(** * PokeButler: blackjack engine, circuit breaker, cache store, request
      deduplication and deck seeding, embedded from the Python sources.

    Layout: the embedding of the source (utils/blackjack_deck.py,
    utils/blackjack_helpers.py, utils/blackjack_game.py,
    utils/circuit_breaker.py, utils/database.py, utils/api_clients.py,
    utils/decorators.py, utils/assets.py and the dealer's line of
    utils/blackjack_views.py) comes first; the lemmas and the theorems
    about it follow. *)

From Stdlib Require Import ZArith Lia.
From stdpp Require Import base list gmap strings sorting pretty.

Local Open Scope Z_scope.

(** ** config/settings.py: blackjack constants *)

Definition BLACKJACK_VALUE : Z := 21.
Definition BLACKJACK_ACE_HIGH_VALUE : Z := 11.
Definition BLACKJACK_ACE_LOW_VALUE : Z := 1.
Definition BLACKJACK_FACE_CARD_VALUE : Z := 10.
Definition BLACKJACK_INITIAL_CARDS_COUNT : nat := 2.
Definition BLACKJACK_NUM_DECKS_IN_SHOE : nat := 2.

(** ** utils/blackjack_deck.py: Card *)

(** [Deck.SUITS] and [Deck.RANKS]: the strings a card is built from. *)
Inductive Suit := Spades | Hearts | Diamonds | Clubs.

Inductive Rank :=
  | RA | R2 | R3 | R4 | R5 | R6 | R7 | R8 | R9 | R10 | RJ | RQ | RK.

Record Card := mkCard { suit : Suit; rank : Rank }.

#[global] Instance Suit_eq_dec : EqDecision Suit.
Proof. solve_decision. Defined.
#[global] Instance Rank_eq_dec : EqDecision Rank.
Proof. solve_decision. Defined.
#[global] Instance Card_eq_dec : EqDecision Card.
Proof. solve_decision. Defined.

Definition SUITS : list Suit := [Spades; Hearts; Diamonds; Clubs].
Definition RANKS : list Rank :=
  [RA; R2; R3; R4; R5; R6; R7; R8; R9; R10; RJ; RQ; RK].

(** The text of a rank, as in [Deck.RANKS]. *)
Definition rank_str (r : Rank) : string :=
  match r with
  | RA => "A" | R2 => "2" | R3 => "3" | R4 => "4" | R5 => "5" | R6 => "6"
  | R7 => "7" | R8 => "8" | R9 => "9" | R10 => "10"
  | RJ => "J" | RQ => "Q" | RK => "K"
  end.

(** [int(card.rank)] on the ranks that are numerals; the other ranks never
    reach it (they are caught by the branches before it). *)
Definition int_rank (r : Rank) : Z :=
  match r with
  | R2 => 2 | R3 => 3 | R4 => 4 | R5 => 5 | R6 => 6
  | R7 => 7 | R8 => 8 | R9 => 9 | R10 => 10
  | RA | RJ | RQ | RK => 0
  end.

Definition is_ace (c : Card) : bool := bool_decide (rank c = RA).
Definition is_face (c : Card) : bool :=
  bool_decide (rank c = RJ) || bool_decide (rank c = RQ) || bool_decide (rank c = RK).

(** [Card.value] *)
Definition value (c : Card) : Z :=
  if is_ace c then 11
  else if is_face c then 10
  else int_rank (rank c).

(** ** utils/blackjack_helpers.py *)

(** One iteration of the counting loop of [calculate_hand_value]; the
    accumulator is [(total, aces)]. *)
Definition count_card (acc : Z * nat) (card : Card) : Z * nat :=
  let '(total, aces) := acc in
  if is_ace card then (total + BLACKJACK_ACE_HIGH_VALUE, S aces)
  else if is_face card then (total + BLACKJACK_FACE_CARD_VALUE, aces)
  else (total + int_rank (rank card), aces).

(** [while total > BLACKJACK_VALUE and aces > 0: total -= 10; aces -= 1],
    returning the final [(total, aces)]. *)
Fixpoint adjust_aces (aces : nat) (total : Z) : Z * nat :=
  match aces with
  | O => (total, O)
  | S aces' =>
      if BLACKJACK_VALUE <? total
      then adjust_aces aces' (total - (BLACKJACK_ACE_HIGH_VALUE - BLACKJACK_ACE_LOW_VALUE))
      else (total, aces)
  end.

Definition calculate_hand_value (cards : list Card) : Z :=
  match cards with
  | [] => 0
  | _ =>
      let '(total, aces) := fold_left count_card cards (0, O) in
      fst (adjust_aces aces total)
  end.

Definition is_blackjack (cards : list Card) : bool :=
  if negb (Nat.eqb (length cards) BLACKJACK_INITIAL_CARDS_COUNT) then false
  else calculate_hand_value cards =? BLACKJACK_VALUE.

Definition is_bust (cards : list Card) : bool :=
  BLACKJACK_VALUE <? calculate_hand_value cards.

(** The generator expression summed by [is_soft_hand]. *)
Definition low_points (card : Card) : Z :=
  if is_face card then BLACKJACK_FACE_CARD_VALUE
  else if is_ace card then BLACKJACK_ACE_LOW_VALUE
  else int_rank (rank card).

Definition sumZ (l : list Z) : Z := fold_left Z.add l 0.

Definition is_soft_hand (cards : list Card) : bool :=
  let has_ace := existsb is_ace cards in
  if negb has_ace then false
  else
    let total_without_ace := sumZ (map low_points cards) in
    total_without_ace + (BLACKJACK_ACE_HIGH_VALUE - BLACKJACK_ACE_LOW_VALUE)
      <=? BLACKJACK_VALUE.

Definition can_split (cards : list Card) : bool :=
  if negb (Nat.eqb (length cards) BLACKJACK_INITIAL_CARDS_COUNT) then false
  else
    match cards !! 0%nat, cards !! 1%nat with
    | Some c0, Some c1 => bool_decide (rank c0 = rank c1)
    | _, _ => false
    end.

(** *** The words of the specification about hand values

    An assignment says, card by card, whether an Ace is counted high (11) or
    low (1); a card that is not an Ace has its fixed value.  Cards beyond the
    end of the assignment are counted low. *)
Fixpoint value_with (hi : list bool) (cards : list Card) : Z :=
  match cards with
  | [] => 0
  | c :: cs =>
      (if is_ace c
       then (if default false (head hi) then BLACKJACK_ACE_HIGH_VALUE
             else BLACKJACK_ACE_LOW_VALUE)
       else value c)
      + value_with (tail hi) cs
  end.

Fixpoint count_aces (cards : list Card) : nat :=
  match cards with
  | [] => O
  | c :: cs => ((if is_ace c then 1 else 0) + count_aces cs)%nat
  end.

Definition high_total (cards : list Card) : Z := sumZ (map value cards).

(** ** utils/blackjack_deck.py: Deck *)

Record Deck := mkDeck { seed : Z; deck_cards : list Card }.

(** [list.pop()]: the last element and the list without it. *)
Definition pop {A} (l : list A) : option (A * list A) :=
  match rev l with
  | [] => None
  | x :: r => Some (x, rev r)
  end.

(** [Deck.draw]: the card drawn and the deck left, or nothing when the deck
    is empty (the method raises IndexError). *)
Definition Deck_draw (d : Deck) : option (Card * Deck) :=
  match pop (deck_cards d) with
  | None => None
  | Some (c, rest) => Some (c, mkDeck (seed d) rest)
  end.

(** The first [n] draws from a deck, in order; [None] stands for a draw that
    raises IndexError. *)
Fixpoint draws (n : nat) (d : Deck) : list (option Card) :=
  match n with
  | O => []
  | S n' =>
      match Deck_draw d with
      | None => None :: draws n' d
      | Some (c, d') => Some c :: draws n' d'
      end
  end.

(** [Deck._initialize_decks]: the cards appended by the three nested loops. *)
Definition one_deck : list Card :=
  flat_map (λ suit, map (λ rank, mkCard suit rank) RANKS) SUITS.

Definition initialize_decks : list Card :=
  concat (replicate BLACKJACK_NUM_DECKS_IN_SHOE one_deck).

(** Python's module [random], which the deck is built with: the state of its
    generator and the three functions used.  [randint a b] draws a number
    from the state; [seed n] replaces the state by one that [n] determines;
    [shuffle] reorders a list by the state. *)
Class Random := {
  rng : Type;
  randint : Z → Z → rng → Z * rng;
  random_seed : Z → rng;
  shuffle : list Card → rng → list Card * rng
}.

(** What the library documents of them: [randint a b] is between [a] and
    [b], and [shuffle] permutes. *)
Definition random_ok (Rnd : Random) : Prop :=
  (∀ a b r, a ≤ b → a ≤ (randint a b r).1 ≤ b)
  ∧ (∀ l r, (shuffle l r).1 ≡ₚ l).

(** [Deck.__init__(seed)]: the deck built and the generator state left.
    [seed or random.randint(1, 1000000)] takes the random number when [seed]
    is [None] or 0. *)
Definition Deck_init `{Rnd : Random} (seed_arg : option Z) (r : rng) : Deck * rng :=
  let '(self_seed, r) :=
    match seed_arg with
    | Some s => if decide (s = 0) then randint 1 1000000 r else (s, r)
    | None => randint 1 1000000 r
    end in
  let cards := initialize_decks in
  let r := random_seed self_seed in
  let '(cards, r) := shuffle cards r in
  (mkDeck self_seed cards, r).

(** A generator to try the deck on: its state is a number, [randint] reads
    it off, and [shuffle] reverses the list when the state is odd. *)
Definition toy_random : Random := {|
  rng := Z;
  randint := λ a b r, (a + r `mod` (b - a + 1), r + 1);
  random_seed := λ n, n;
  shuffle := λ l r, (if Z.odd r then reverse l else l, r + 1)
|}.

(** ** utils/blackjack_game.py: data *)

Inductive GamePhase := LOBBY | DEALING | PLAYING | DEALER_TURN | RESULTS | ENDED.

Inductive HandStatus := ACTIVE | STAND | BUST | BLACKJACK | SPLIT_ACES | SURRENDER.

#[global] Instance GamePhase_eq_dec : EqDecision GamePhase.
Proof. solve_decision. Defined.
#[global] Instance HandStatus_eq_dec : EqDecision HandStatus.
Proof. solve_decision. Defined.

Record PlayerHand := mkHand {
  cards : list Card;
  status : HandStatus;
  is_split : bool;
  is_split_aces : bool
}.

Record Player := mkPlayer {
  user_id : Z;
  username : string;
  hands : list PlayerHand;
  is_dealer : bool;
  current_hand_index : nat
}.

Record BlackjackGame := mkGame {
  channel_id : Z;
  dealer_id : Z;
  max_players : Z;
  timeout : Z;
  use_emojis : bool;
  dealer : Player;
  players : list Player;
  deck : Deck;
  phase : GamePhase;
  current_turn_index : nat
}.

(** Field assignments. *)
Definition set_cards (v : list Card) (h : PlayerHand) : PlayerHand :=
  mkHand v (status h) (is_split h) (is_split_aces h).
Definition set_status (v : HandStatus) (h : PlayerHand) : PlayerHand :=
  mkHand (cards h) v (is_split h) (is_split_aces h).
Definition set_hands (v : list PlayerHand) (p : Player) : Player :=
  mkPlayer (user_id p) (username p) v (is_dealer p) (current_hand_index p).
Definition set_current_hand_index (v : nat) (p : Player) : Player :=
  mkPlayer (user_id p) (username p) (hands p) (is_dealer p) v.
Definition set_use_emojis (v : bool) (g : BlackjackGame) : BlackjackGame :=
  mkGame (channel_id g) (dealer_id g) (max_players g) (timeout g) v
         (dealer g) (players g) (deck g) (phase g) (current_turn_index g).
Definition set_dealer (v : Player) (g : BlackjackGame) : BlackjackGame :=
  mkGame (channel_id g) (dealer_id g) (max_players g) (timeout g) (use_emojis g)
         v (players g) (deck g) (phase g) (current_turn_index g).
Definition set_players (v : list Player) (g : BlackjackGame) : BlackjackGame :=
  mkGame (channel_id g) (dealer_id g) (max_players g) (timeout g) (use_emojis g)
         (dealer g) v (deck g) (phase g) (current_turn_index g).
Definition set_deck (v : Deck) (g : BlackjackGame) : BlackjackGame :=
  mkGame (channel_id g) (dealer_id g) (max_players g) (timeout g) (use_emojis g)
         (dealer g) (players g) v (phase g) (current_turn_index g).
Definition set_phase (v : GamePhase) (g : BlackjackGame) : BlackjackGame :=
  mkGame (channel_id g) (dealer_id g) (max_players g) (timeout g) (use_emojis g)
         (dealer g) (players g) (deck g) v (current_turn_index g).
Definition set_current_turn_index (v : nat) (g : BlackjackGame) : BlackjackGame :=
  mkGame (channel_id g) (dealer_id g) (max_players g) (timeout g) (use_emojis g)
         (dealer g) (players g) (deck g) (phase g) v.

(** [Player.has_multiple_hands], [Player.all_hands_finished] *)
Definition has_multiple_hands (p : Player) : bool :=
  bool_decide (1 < length (hands p))%nat.
Definition all_hands_finished (p : Player) : bool :=
  forallb (λ hand, negb (bool_decide (status hand = ACTIVE))) (hands p).

(** [BlackjackGame.__init__]; the deck is the one [Deck()] built. *)
Definition new_game (channel dealer_uid : Z) (dealer_name : string)
    (maxp tmo : Z) (d : Deck) : BlackjackGame :=
  mkGame channel dealer_uid maxp tmo true
         (mkPlayer dealer_uid dealer_name [mkHand [] ACTIVE false false] true 0)
         [] d LOBBY 0.

(** ** A method of the game: it reads and writes the game object, and it
    returns a value or raises.  The game object as it stands when an
    exception is raised is kept. *)

Inductive exn := IndexError | RecursionError.

Inductive result (A : Type) :=
  | Ok (a : A)
  | Raise (e : exn).
Arguments Ok {A} a.
Arguments Raise {A} e.

Definition M (A : Type) : Type := BlackjackGame → result A * BlackjackGame.

#[global] Instance M_ret : MRet M := λ A a g, (Ok a, g).
#[global] Instance M_bind : MBind M := λ A B k m g,
  match m g with
  | (Ok a, g') => k a g'
  | (Raise e, g') => (Raise e, g')
  end.

Definition raise {A} (e : exn) : M A := λ g, (Raise e, g).
Definition gets {A} (f : BlackjackGame → A) : M A := λ g, (Ok (f g), g).
Definition modify (f : BlackjackGame → BlackjackGame) : M unit := λ g, (Ok tt, f g).
(** [l[i]] on a Python list with [0 <= i]. *)
Definition index {A} (l : list A) (i : nat) : M A :=
  match l !! i with
  | Some x => mret x
  | None => raise IndexError
  end.

(** A reference to a [Player] object: a seat of [self.players] or
    [self.dealer]. *)
Inductive Who := Seat (i : nat) | TheDealer.

#[global] Instance Who_eq_dec : EqDecision Who.
Proof. solve_decision. Defined.

Definition player_at (w : Who) (g : BlackjackGame) : option Player :=
  match w with
  | Seat i => players g !! i
  | TheDealer => Some (dealer g)
  end.

(** Reading the object behind a reference. *)
Definition deref (w : Who) : M Player :=
  λ g, match player_at w g with
       | Some p => (Ok p, g)
       | None => (Raise IndexError, g)
       end.

(** In-place change of the object behind a reference. *)
Definition map_player (w : Who) (f : Player → Player) (g : BlackjackGame)
    : BlackjackGame :=
  match w with
  | Seat i => set_players (alter f i (players g)) g
  | TheDealer => set_dealer (f (dealer g)) g
  end.

(** In-place change of the hand object [w.hands[k]]. *)
Definition map_hand (w : Who) (k : nat) (f : PlayerHand → PlayerHand)
    : BlackjackGame → BlackjackGame :=
  map_player w (λ p, set_hands (alter f k (hands p)) p).

Definition append_card (c : Card) (h : PlayerHand) : PlayerHand :=
  set_cards (cards h ++ [c]) h.

(** [Deck.draw] on [self.deck] *)
Definition draw : M Card :=
  λ g, match Deck_draw (deck g) with
       | None => (Raise IndexError, g)
       | Some (c, d) => (Ok c, set_deck d g)
       end.

(** [Player.get_current_hand] through a reference: the hand and its index. *)
Definition get_current_hand (w : Who) : M (nat * PlayerHand) :=
  p ← deref w;
  h ← index (hands p) (current_hand_index p);
  mret (current_hand_index p, h).

(** The hand object [w.hands[k]], read again after it has been changed. *)
Definition read_hand (w : Who) (k : nat) : M PlayerHand :=
  p ← deref w;
  index (hands p) k.

(** [for x in l: f(x)] *)
Fixpoint for_each {A} (l : list A) (f : A → M unit) : M unit :=
  match l with
  | [] => mret tt
  | x :: r => f x;; for_each r f
  end.

(** ** utils/blackjack_game.py: lobby *)

Definition toggle_style : M bool :=
  modify (λ g, set_use_emojis (negb (use_emojis g)) g);;
  gets use_emojis.

Definition add_player (uid : Z) (name : string) : M bool :=
  g ← gets id;
  if decide (phase g ≠ LOBBY) then mret false
  else if decide (max_players g ≤ Z.of_nat (length (players g))) then mret false
  else if existsb (λ p, user_id p =? uid) (players g) then mret false
  else if decide (uid = dealer_id g) then mret false
  else
    let player := mkPlayer uid name [mkHand [] ACTIVE false false] false 0 in
    modify (λ g, set_players (players g ++ [player]) g);;
    mret true.

Definition remove_player (uid : Z) : M bool :=
  g ← gets id;
  if decide (phase g ≠ LOBBY) then mret false
  else
    modify (λ g, set_players
                   (List.filter (λ p, negb (user_id p =? uid)) (players g)) g);;
    mret true.

Definition get_player_count (g : BlackjackGame) : nat := length (players g).
Definition is_lobby_full (g : BlackjackGame) : bool :=
  bool_decide (max_players g ≤ Z.of_nat (length (players g))).

(** ** utils/blackjack_game.py: turn management *)

Definition get_current_player (g : BlackjackGame) : option Who :=
  if decide (phase g = DEALER_TURN) then Some TheDealer
  else if decide (phase g ≠ PLAYING) then None
  else if decide (current_turn_index g < length (players g))%nat
       then Some (Seat (current_turn_index g))
  else None.

Definition check_all_players_busted_or_surrendered (g : BlackjackGame) : bool :=
  match players g with
  | [] => false
  | _ =>
      forallb (λ player,
        forallb (λ hand,
          negb (bool_decide (status hand ∈ [ACTIVE; STAND; BLACKJACK; SPLIT_ACES])))
          (hands player))
        (players g)
  end.

(** [while i < len(players) and players[i].all_hands_finished(): i += 1],
    with [rest = players[i:]]. *)
Fixpoint skip_finished (rest : list Player) (i : nat) : nat :=
  match rest with
  | [] => i
  | p :: rest' => if all_hands_finished p then skip_finished rest' (S i) else i
  end.

Definition skip_finished_players : M unit :=
  modify (λ g, set_current_turn_index
                 (skip_finished (drop (current_turn_index g) (players g))
                                (current_turn_index g)) g).

(** [_check_dealer_auto_stand]: returns [None], [False] or [True]. *)
Definition check_dealer_auto_stand : M (option bool) :=
  ph ← gets phase;
  if decide (ph ≠ DEALER_TURN) then mret None
  else
    d ← gets dealer;
    dealer_hand ← index (hands d) 0;
    let hand_value := calculate_hand_value (cards dealer_hand) in
    let is_soft := is_soft_hand (cards dealer_hand) in
    if hand_value <? 17 then mret (Some false)
    else if (hand_value =? 17) && is_soft then mret (Some false)
    else
      modify (map_hand TheDealer 0 (set_status STAND));;
      modify (set_phase RESULTS);;
      mret (Some true).

(** The part of [_advance_turn] after its first [if] block. *)
Definition advance_turn_rest (current_player : option Who) : M unit :=
  dealer_done ←
    match current_player with
    | None => mret false
    | Some w =>
        p ← deref w;
        if is_dealer p then
          '(_, h) ← get_current_hand w;
          if bool_decide (status h ∈ [BUST; STAND])
          then modify (set_phase RESULTS);; mret true
          else mret false
        else mret false
    end;
  if dealer_done : bool then mret tt
  else
    all_out ← gets check_all_players_busted_or_surrendered;
    if all_out : bool then modify (set_phase RESULTS)
    else
      modify (λ g, set_current_turn_index (current_turn_index g + 1) g);;
      skip_finished_players;;
      g ← gets id;
      if decide (length (players g) ≤ current_turn_index g)%nat then
        modify (set_phase DEALER_TURN);;
        check_dealer_auto_stand;;
        mret tt
      else mret tt.

(** One activation of [_advance_turn] up to its recursive call, which is in
    tail position ([self._advance_turn(); return]): the result is [true]
    when that call is reached. *)
Definition advance_turn_body : M bool :=
  current_player ← gets get_current_player;
  match current_player with
  | None => advance_turn_rest current_player;; mret false
  | Some w =>
      p ← deref w;
      if negb (all_hands_finished p) then
        if Z.of_nat (current_hand_index p) <? Z.of_nat (length (hands p)) - 1
        then
          modify (map_player w
                    (λ p, set_current_hand_index (current_hand_index p + 1) p));;
          '(k, current_hand) ← get_current_hand w;
          if Nat.eqb (length (cards current_hand)) 1 then
            new_card ← draw;
            modify (map_hand w k (append_card new_card));;
            if is_split_aces current_hand then
              modify (map_hand w k (set_status SPLIT_ACES));;
              mret true
            else mret false
          else mret false
        else advance_turn_rest current_player;; mret false
      else advance_turn_rest current_player;; mret false
  end.

(** The recursion of [_advance_turn], [n] activations deep at most. *)
Fixpoint advance_turn_fuel (n : nat) : M unit :=
  again ← advance_turn_body;
  if again : bool then
    match n with
    | O => raise RecursionError
    | S n' => advance_turn_fuel n'
    end
  else mret tt.

(** Each activation that recurses has moved the current player one hand
    further, so the number of hands bounds the depth. *)
Definition advance_turn_depth (g : BlackjackGame) : nat :=
  match get_current_player g with
  | Some w =>
      match player_at w g with
      | Some p => length (hands p) - current_hand_index p
      | None => O
      end
  | None => O
  end.

Definition advance_turn : M unit :=
  λ g, advance_turn_fuel (advance_turn_depth g) g.

(** ** utils/blackjack_game.py: dealer rule *)

Definition can_dealer_hit : M bool :=
  d ← gets dealer;
  h0 ← index (hands d) 0;
  match cards h0 with
  | [] => mret false
  | hand =>
      let val := calculate_hand_value hand in
      let is_soft := is_soft_hand hand in
      if val <? 17 then mret true
      else if (val =? 17) && is_soft then mret true
      else mret false
  end.

Definition can_dealer_stand : M bool :=
  b ← can_dealer_hit;
  mret (negb b).

(** ** utils/blackjack_game.py: game start *)

(** [card = self.deck.draw(); player.hands[0].cards.append(card)] *)
Definition deal_to (w : Who) : M unit :=
  card ← draw;
  p ← deref w;
  _ ← index (hands p) 0;
  modify (map_hand w 0 (append_card card)).

Definition deal_round : M unit :=
  ps ← gets players;
  for_each (seq 0 (length ps)) (λ i, deal_to (Seat i));;
  deal_to TheDealer.

Definition deal_initial_cards : M unit :=
  deal_round;;
  deal_round.

Definition mark_blackjack (i : nat) : M unit :=
  h ← read_hand (Seat i) 0;
  if is_blackjack (cards h)
  then modify (map_hand (Seat i) 0 (set_status BLACKJACK))
  else mret tt.

Definition start_game : M bool :=
  g ← gets id;
  if decide (phase g ≠ LOBBY) then mret false
  else if decide (length (players g) = 0%nat) then mret false
  else
    modify (set_phase DEALING);;
    deal_initial_cards;;
    dh ← read_hand TheDealer 0;
    if is_blackjack (cards dh) then
      modify (map_hand TheDealer 0 (set_status BLACKJACK));;
      modify (set_phase RESULTS);;
      mret true
    else
      ps ← gets players;
      for_each (seq 0 (length ps)) mark_blackjack;;
      modify (set_phase PLAYING);;
      modify (set_current_turn_index 0);;
      skip_finished_players;;
      g ← gets id;
      (if decide (length (players g) ≤ current_turn_index g)%nat then
         modify (set_phase DEALER_TURN);;
         check_dealer_auto_stand;;
         mret tt
       else mret tt);;
      mret true.

(** [start_game] from the point where the phase has been set to DEALING. *)
Definition start_game_play : M bool :=
  deal_initial_cards;;
  dh ← read_hand TheDealer 0;
  if is_blackjack (cards dh) then
    modify (map_hand TheDealer 0 (set_status BLACKJACK));;
    modify (set_phase RESULTS);;
    mret true
  else
    ps ← gets players;
    for_each (seq 0 (length ps)) mark_blackjack;;
    modify (set_phase PLAYING);;
    modify (set_current_turn_index 0);;
    skip_finished_players;;
    g ← gets id;
    (if decide (length (players g) ≤ current_turn_index g)%nat then
       modify (set_phase DEALER_TURN);;
       check_dealer_auto_stand;;
       mret tt
     else mret tt);;
    mret true.

(** ** utils/blackjack_game.py: player actions *)

Definition hit (uid : Z) : M (option Card) :=
  current_player ← gets get_current_player;
  match current_player with
  | None => mret None
  | Some w =>
      p ← deref w;
      if decide (user_id p ≠ uid) then mret None
      else
        must_stand ← (if is_dealer p then can_dealer_stand else mret false);
        if must_stand : bool then mret None
        else
          '(k, current_hand) ← get_current_hand w;
          if decide (status current_hand ≠ ACTIVE) then mret None
          else
            card ← draw;
            modify (map_hand w k (append_card card));;
            h ← read_hand w k;
            (if is_bust (cards h) then
               modify (map_hand w k (set_status BUST));;
               advance_turn
             else if is_dealer p then
               st ← can_dealer_stand;
               if st : bool then
                 modify (map_hand w k (set_status STAND));;
                 modify (set_phase RESULTS)
               else mret tt
             else mret tt);;
            mret (Some card)
  end.

Definition stand (uid : Z) : M bool :=
  current_player ← gets get_current_player;
  match current_player with
  | None => mret false
  | Some w =>
      p ← deref w;
      if decide (user_id p ≠ uid) then mret false
      else
        must_hit ← (if is_dealer p
                    then (b ← can_dealer_stand; mret (negb b))
                    else mret false);
        if must_hit : bool then mret false
        else
          '(k, current_hand) ← get_current_hand w;
          if decide (status current_hand ≠ ACTIVE) then mret false
          else
            modify (map_hand w k (set_status STAND));;
            (if is_dealer p then modify (set_phase RESULTS) else advance_turn);;
            mret true
  end.

Definition double_down (uid : Z) : M (option Card) :=
  current_player ← gets get_current_player;
  match current_player with
  | None => mret None
  | Some w =>
      p ← deref w;
      if decide (user_id p ≠ uid) then mret None
      else if is_dealer p then mret None
      else
        '(k, current_hand) ← get_current_hand w;
        if negb (Nat.eqb (length (cards current_hand)) BLACKJACK_INITIAL_CARDS_COUNT)
        then mret None
        else if decide (status current_hand ≠ ACTIVE) then mret None
        else
          card ← draw;
          modify (map_hand w k (append_card card));;
          h ← read_hand w k;
          (if is_bust (cards h)
           then modify (map_hand w k (set_status BUST))
           else modify (map_hand w k (set_status STAND)));;
          advance_turn;;
          mret (Some card)
  end.

(** [l.insert(i, x)] *)
Definition list_insert_at {A} (i : nat) (x : A) (l : list A) : list A :=
  take i l ++ x :: drop i l.

Definition split (uid : Z) : M bool :=
  current_player ← gets get_current_player;
  match current_player with
  | None => mret false
  | Some w =>
      p ← deref w;
      if decide (user_id p ≠ uid) then mret false
      else if is_dealer p then mret false
      else
        '(k, current_hand) ← get_current_hand w;
        if negb (can_split (cards current_hand)) then mret false
        else if decide (status current_hand ≠ ACTIVE) then mret false
        else
          card1 ← index (cards current_hand) 0;
          card2 ← index (cards current_hand) 1;
          let is_aces := bool_decide (rank card1 = RA) in
          let hand1 := mkHand [card1] ACTIVE true is_aces in
          let hand2 := mkHand [card2] ACTIVE true is_aces in
          new_card1 ← draw;
          let hand1 := append_card new_card1 hand1 in
          modify (map_player w (λ p, set_hands (<[k := hand1]> (hands p)) p));;
          modify (map_player w
                    (λ p, set_hands (list_insert_at (k + 1) hand2 (hands p)) p));;
          (if is_aces then
             modify (map_hand w k (set_status SPLIT_ACES));;
             c ← draw;
             modify (map_hand w (k + 1) (append_card c));;
             modify (map_hand w (k + 1) (set_status SPLIT_ACES));;
             advance_turn
           else mret tt);;
          mret true
  end.

Definition surrender (uid : Z) : M bool :=
  current_player ← gets get_current_player;
  match current_player with
  | None => mret false
  | Some w =>
      p ← deref w;
      if decide (user_id p ≠ uid) then mret false
      else if is_dealer p then mret false
      else
        '(k, current_hand) ← get_current_hand w;
        if negb (Nat.eqb (length (cards current_hand)) 2) || is_split current_hand
        then mret false
        else if decide (status current_hand ≠ ACTIVE) then mret false
        else
          modify (map_hand w k (set_status SURRENDER));;
          advance_turn;;
          mret true
  end.

(** The five actions under one name; what they return. *)
Inductive Action := Hit | Stand | DoubleDown | Split | Surrender.

Inductive Returned :=
  | RCard (c : option Card)   (* [hit], [double_down]: the card or [None] *)
  | RBool (b : bool).         (* [stand], [split], [surrender] *)

Definition act (a : Action) (uid : Z) : M Returned :=
  match a with
  | Hit => c ← hit uid; mret (RCard c)
  | Stand => b ← stand uid; mret (RBool b)
  | DoubleDown => c ← double_down uid; mret (RCard c)
  | Split => b ← split uid; mret (RBool b)
  | Surrender => b ← surrender uid; mret (RBool b)
  end.

(** The value an action returns on an invalid move. *)
Definition invalid_move (a : Action) : Returned :=
  match a with
  | Hit | DoubleDown => RCard None
  | Stand | Split | Surrender => RBool false
  end.

(** ** Properties kept by a method

    [keeps I m Q]: when [I] holds of the game object before the method [m]
    runs, it holds after it, whether [m] returns or raises; and a value that
    [m] returns satisfies [Q]. *)
Definition keeps (I : BlackjackGame → Prop) {A} (m : M A) (Q : A → Prop) : Prop :=
  ∀ g, I g → I (snd (m g)) ∧ ∀ a, fst (m g) = Ok a → Q a.

(** ** The states a game object goes through

    A call of one of the public methods that change the object; the object
    after the call is the one the method leaves, also when it raised. *)
Inductive Call :=
  | CAddPlayer (uid : Z) (name : string)
  | CRemovePlayer (uid : Z)
  | CStartGame
  | CToggleStyle
  | CAct (a : Action) (uid : Z).

Definition after_call (c : Call) (g : BlackjackGame) : BlackjackGame :=
  match c with
  | CAddPlayer uid name => snd (add_player uid name g)
  | CRemovePlayer uid => snd (remove_player uid g)
  | CStartGame => snd (start_game g)
  | CToggleStyle => snd (toggle_style g)
  | CAct a uid => snd (act a uid g)
  end.

Definition after_calls (cs : list Call) (g : BlackjackGame) : BlackjackGame :=
  fold_left (λ g c, after_call c g) cs g.

Inductive reachable (g0 : BlackjackGame) : BlackjackGame → Prop :=
  | reachable_init : reachable g0 g0
  | reachable_call g c : reachable g0 g → reachable g0 (after_call c g).

(** The user ids of the seated players, in seat order. *)
Definition seated_ids (g : BlackjackGame) : list Z := user_id <$> players g.

(** Who sits at the table: the limit, the dealer and the seated ids. *)
Definition same_table (maxp d : Z) (ids : list Z) (g : BlackjackGame) : Prop :=
  max_players g = maxp ∧ dealer_id g = d ∧ user_id (dealer g) = d
  ∧ seated_ids g = ids.

(** The lobby invariant: no more players than the limit, no user id seated
    twice, and the dealer not seated. *)
Definition table_ok (g : BlackjackGame) : Prop :=
  Z.of_nat (length (players g)) ≤ max_players g
  ∧ NoDup (seated_ids g)
  ∧ (user_id (dealer g) ∉ seated_ids g)
  ∧ dealer_id g = user_id (dealer g).

(** ** The words of the specification about the end of the players' turns *)

(** Every hand of every seated player is BUST or SURRENDER. *)
Definition all_out (g : BlackjackGame) : Prop :=
  ∀ p h, p ∈ players g → h ∈ hands p → status h = BUST ∨ status h = SURRENDER.


(** The dealer's cards, hand by hand. *)
Definition dealer_cards (g : BlackjackGame) : list (list Card) :=
  cards <$> hands (dealer g).

(** ** The words of the specification about the dealer's rule *)

(** Hit when the value is below 17, or is 17 and the hand is soft. *)
Definition dealer_must_hit (hand : list Card) : bool :=
  (calculate_hand_value hand <? 17)
  || ((calculate_hand_value hand =? 17) && is_soft_hand hand).

(** An Ace is still counted as 11 in the value [calculate_hand_value]
    arrives at: its loop stops with an Ace not downgraded. *)
Definition ace_counted_high (hand : list Card) : Prop :=
  (0 < snd (adjust_aces (count_aces hand) (high_total hand)))%nat.

(** The dealer's first hand. *)
Definition dealer_hand (g : BlackjackGame) : option PlayerHand :=
  hands (dealer g) !! 0%nat.

(** A game right after [__init__], and one in which the dealer is dealt
    [A♠, 6♥] against a player who stands on [10♣, 9♦]. *)
Definition fresh_game : BlackjackGame :=
  new_game 1 100 "house" 3 60
    (mkDeck 7 [mkCard Clubs R5; mkCard Hearts RK; mkCard Spades R4]).

Definition soft17_game : BlackjackGame :=
  mkGame 1 100 3 60 true
    (mkPlayer 100 "house"
       [mkHand [mkCard Spades RA; mkCard Hearts R6] ACTIVE false false] true 0)
    [mkPlayer 7 "ann"
       [mkHand [mkCard Clubs R10; mkCard Diamonds R9] STAND false false] false 0]
    (mkDeck 7 [mkCard Clubs R5; mkCard Hearts RK; mkCard Spades R4])
    DEALER_TURN 1.

(** The seat [_advance_turn] moves to after the current one: the loop that
    skips finished players, started one past the current index. *)
Definition next_seat (g : BlackjackGame) : nat :=
  skip_finished (drop (current_turn_index g + 1) (players g))
                (current_turn_index g + 1).

(** The hands of a player after the pair of Aces [c1], [c2] at index [k] was
    split and the cards [d1], [d2] were dealt onto the two new hands. *)
Definition split_aces_hands (hs : list PlayerHand) (k : nat)
    (c1 c2 d1 d2 : Card) : list PlayerHand :=
  take k hs
  ++ mkHand [c1; d1] SPLIT_ACES true true
  :: mkHand [c2; d2] SPLIT_ACES true true
  :: drop (S k) hs.

(** A game in which the only player, seat 0, is to act on [A♠, A♥] against
    a dealer showing [K♣, 7♦]. *)
Definition aces_game : BlackjackGame :=
  mkGame 1 100 3 60 true
    (mkPlayer 100 "house"
       [mkHand [mkCard Clubs RK; mkCard Diamonds R7] ACTIVE false false] true 0)
    [mkPlayer 7 "ann"
       [mkHand [mkCard Spades RA; mkCard Hearts RA] ACTIVE false false] false 0]
    (mkDeck 7 [mkCard Clubs R5; mkCard Hearts RK; mkCard Spades R4])
    PLAYING 0.

(** Two games at the moment the last seat has finished its hand: the player
    has gone BUST, or stands on 19 against the dealer's [K♣, 7♦]. *)
Definition busted_game : BlackjackGame :=
  mkGame 1 100 3 60 true
    (mkPlayer 100 "house"
       [mkHand [mkCard Clubs RK; mkCard Diamonds R7] ACTIVE false false] true 0)
    [mkPlayer 7 "ann"
       [mkHand [mkCard Clubs R10; mkCard Diamonds R9; mkCard Hearts R5]
               BUST false false] false 0]
    (mkDeck 7 [mkCard Clubs R5; mkCard Hearts RK; mkCard Spades R4])
    PLAYING 0.

Definition standing_game : BlackjackGame :=
  mkGame 1 100 3 60 true
    (mkPlayer 100 "house"
       [mkHand [mkCard Clubs RK; mkCard Diamonds R7] ACTIVE false false] true 0)
    [mkPlayer 7 "ann"
       [mkHand [mkCard Clubs R10; mkCard Diamonds R9] STAND false false] false 0]
    (mkDeck 7 [mkCard Clubs R5; mkCard Hearts RK; mkCard Spades R4])
    PLAYING 0.

(** Seat [i] holds the player [p], and the game has left the lobby. *)
Definition frozen_seat (i : nat) (p : Player) (g : BlackjackGame) : Prop :=
  players g !! i = Some p ∧ phase g ≠ LOBBY.

(** ** utils/circuit_breaker.py

    The clock [time.monotonic()] is a reading of the world the protected
    operation runs in; clock readings and the timeout are numbers of one
    unit.  The protected operation takes the world to a new world and either
    returns a value or raises; [expected] says whether an exception is an
    instance of one of [expected_exceptions].  Calls are taken one after the
    other. *)
Module CircuitBreaker.

Inductive CircuitState := CLOSED | OPEN | HALF_OPEN.

#[global] Instance CircuitState_eq_dec : EqDecision CircuitState.
Proof. solve_decision. Defined.

Record CircuitBreaker := mkBreaker {
  failure_threshold : Z;
  recovery_timeout : Z;
  success_threshold : Z;
  state : CircuitState;
  failure_count : Z;
  success_count : Z;
  last_failure_time : option Z
}.

Definition set_state (v : CircuitState) (b : CircuitBreaker) : CircuitBreaker :=
  mkBreaker (failure_threshold b) (recovery_timeout b) (success_threshold b)
            v (failure_count b) (success_count b) (last_failure_time b).
Definition set_failure_count (v : Z) (b : CircuitBreaker) : CircuitBreaker :=
  mkBreaker (failure_threshold b) (recovery_timeout b) (success_threshold b)
            (state b) v (success_count b) (last_failure_time b).
Definition set_success_count (v : Z) (b : CircuitBreaker) : CircuitBreaker :=
  mkBreaker (failure_threshold b) (recovery_timeout b) (success_threshold b)
            (state b) (failure_count b) v (last_failure_time b).
Definition set_last_failure_time (v : option Z) (b : CircuitBreaker) : CircuitBreaker :=
  mkBreaker (failure_threshold b) (recovery_timeout b) (success_threshold b)
            (state b) (failure_count b) (success_count b) v.

(** [__init__] *)
Definition new (failure_thr recovery success_thr : Z) : CircuitBreaker :=
  mkBreaker failure_thr recovery success_thr CLOSED 0 0 None.

(** [_should_attempt_reset], at clock reading [now] *)
Definition should_attempt_reset (b : CircuitBreaker) (now : Z) : bool :=
  match last_failure_time b with
  | None => true
  | Some t => recovery_timeout b <=? now - t
  end.

(** [_on_success] *)
Definition on_success (b : CircuitBreaker) : CircuitBreaker :=
  let b := set_failure_count 0 b in
  if decide (state b = HALF_OPEN) then
    let b := set_success_count (success_count b + 1) b in
    if success_threshold b <=? success_count b
    then set_success_count 0 (set_state CLOSED b)
    else b
  else b.

(** [_on_failure], at clock reading [now] *)
Definition on_failure (b : CircuitBreaker) (now : Z) : CircuitBreaker :=
  let b := set_failure_count (failure_count b + 1) b in
  let b := set_last_failure_time (Some now) b in
  if decide (state b = HALF_OPEN)
  then set_success_count 0 (set_state OPEN b)
  else if failure_threshold b <=? failure_count b
  then set_state OPEN b
  else b.

(** [reset] *)
Definition reset (b : CircuitBreaker) : CircuitBreaker :=
  set_last_failure_time None
    (set_success_count 0 (set_failure_count 0 (set_state CLOSED b))).

(** What the protected operation does, and what [call] gives back. *)
Inductive Outcome (R E : Type) :=
  | Returns (r : R)
  | Raises (e : E).
Arguments Returns {R E} r.
Arguments Raises {R E} e.

Inductive CallResult (R E : Type) :=
  | Returned (r : R)
  | Raised (e : E)           (* the operation's own exception, re-raised *)
  | CircuitBreakerError.     (* rejected: the operation was not invoked *)
Arguments Returned {R E} r.
Arguments Raised {R E} e.
Arguments CircuitBreakerError {R E}.

Section call.
Context {W R E : Type} (clock : W → Z) (expected : E → bool).

(** The first block of [call]: the breaker to go on with, or nothing when
    the call is rejected. *)
Definition admission (b : CircuitBreaker) (w : W) : option CircuitBreaker :=
  if decide (state b = OPEN) then
    if should_attempt_reset b (clock w)
    then Some (set_success_count 0 (set_state HALF_OPEN b))
    else None
  else Some b.

(** [call] *)
Definition call (b : CircuitBreaker) (func : W → Outcome R E * W) (w : W)
    : CallResult R E * CircuitBreaker * W :=
  match admission b w with
  | None => (CircuitBreakerError, b, w)
  | Some b =>
      match func w with
      | (Returns result, w') => (Returned result, on_success b, w')
      | (Raises e, w') =>
          if expected e
          then (Raised e, on_failure b (clock w'), w')
          else (Raised e, b, w')
      end
  end.

(** One call after the other, each on the breaker and the world the one
    before it left. *)
Fixpoint calls (b : CircuitBreaker) (funcs : list (W → Outcome R E * W)) (w : W)
    : list (CallResult R E) * CircuitBreaker * W :=
  match funcs with
  | [] => ([], b, w)
  | func :: rest =>
      let '(r, b1, w1) := call b func w in
      let '(rs, b2, w2) := calls b1 rest w1 in
      (r :: rs, b2, w2)
  end.

(** The call ended in an exception that counts as a failure. *)
Definition matched_failure (r : CallResult R E) : Prop :=
  ∃ e, r = Raised e ∧ expected e = true.

(** The call ended with the operation's result. *)
Definition success (r : CallResult R E) : Prop := ∃ x, r = Returned x.

(** What is done to a breaker in its life: a call, or a manual [reset]. *)
Inductive Op :=
  | DoCall (func : W → Outcome R E * W)
  | DoReset.

Definition do (bw : CircuitBreaker * W) (op : Op) : CircuitBreaker * W :=
  match op with
  | DoCall func => let '(_, b, w) := call bw.1 func bw.2 in (b, w)
  | DoReset => (reset bw.1, bw.2)
  end.

(** The operation raises an exception that is not an instance of
    [expected_exceptions], whatever world it is run in. *)
Definition unmatched (func : W → Outcome R E * W) : Prop :=
  ∀ w, ∃ e w', func w = (Raises e, w') ∧ expected e = false.

End call.

(** The counters of a breaker agree with its state: fewer failures counted
    than [failure_threshold] while CLOSED, fewer successes than
    [success_threshold] while HALF_OPEN and none counted otherwise, and the
    time of a failure on record while OPEN. *)
Definition settled (b : CircuitBreaker) : Prop :=
  0 ≤ failure_count b
  ∧ (state b = CLOSED → failure_count b < failure_threshold b)
  ∧ (state b = HALF_OPEN → 0 ≤ success_count b < success_threshold b)
  ∧ (state b ≠ HALF_OPEN → success_count b = 0)
  ∧ (state b = OPEN → is_Some (last_failure_time b)).

End CircuitBreaker.

(** ** utils/database.py: the API cache

    The table [api_cache] is the list of its rows, in rowid order; the
    column [cache_key] is its primary key.  Times are clock readings
    [time.time()], numbers of one unit.  The failure paths of the database
    driver (the [except] branches) are left out. *)
Module CacheStore.

Record CacheEntry := mkEntry {
  cache_key : string;
  data : string;
  created_at : Z;
  last_accessed : Z;
  access_count : Z
}.

Definition keys (t : list CacheEntry) : list string := cache_key <$> t.

(** The order of [ORDER BY last_accessed ASC]. *)
Definition older (a b : CacheEntry) : Prop := last_accessed a ≤ last_accessed b.

#[global] Instance older_dec (a b : CacheEntry) : Decision (older a b).
Proof. unfold older. apply _. Defined.






(** [Database.get_cache], at clock reading [now]: the data returned and the
    table it leaves. *)
Fixpoint get_cache (key : string) (max_age : Z) (now : Z) (t : list CacheEntry)
    : option string * list CacheEntry :=
  match t with
  | [] => (None, [])
  | r :: t' =>
      if decide (cache_key r = key) then
        if now - created_at r <? max_age
        then (Some (data r),
              mkEntry (cache_key r) (data r) (created_at r) now
                      (access_count r + 1) :: t')
        else (None, t')
      else
        let '(res, t'') := get_cache key max_age now t' in
        (res, r :: t'')
  end.

(** [Database.cleanup_expired_cache], at clock reading [now]: the number of
    rows deleted ([DELETE ... WHERE created_at < cutoff RETURNING cache_key])
    and the table left. *)
Definition cleanup_expired_cache (max_age : Z) (now : Z) (t : list CacheEntry)
    : Z * list CacheEntry :=
  let cutoff_time := now - max_age in
  let deleted_rows := filter (λ r, created_at r < cutoff_time) t in
  (Z.of_nat (length deleted_rows),
   filter (λ r, ¬ created_at r < cutoff_time) t).

End CacheStore.

(** ** utils/api_clients.py: [_deduplicate_request]

    The callers are coroutines on one event loop: a coroutine runs without
    interruption from one suspension point to the next.  The lock of a key is
    only ever held across code without a suspension point, so whoever asks
    for it finds it free, and [_deduplicate_request] suspends at one place,
    [await task].  A call therefore runs in two pieces: up to [await task],
    and from there to the end.  The fetch runs as a task of its own, and
    ends at some moment with a result or an exception. *)
Module Dedup.

(** How a fetch ends. *)
Inductive Outcome :=
  | FetchOk (v : string)
  | FetchErr (e : string).

(** An [asyncio.Task] made by [create_task(fetch_func(...))]: the key it
    was made for and, once it is done, how it ended. *)
Record Task := mkTask { task_key : string; task_done : option Outcome }.

(** A call of [_deduplicate_request(key, ...)]: not started yet; suspended
    in [await task], with its local variables [task] and [created]; or
    over, with what it returned or raised. *)
Inductive Caller :=
  | Start (key : string)
  | Awaiting (key : string) (task : nat) (created : bool)
  | Over (key : string) (task : nat) (created : bool) (o : Outcome).

(** [self._pending_requests] (a task is named by its place among the tasks
    made so far), the tasks made, and the calls. *)
Record State := mkState {
  pending_requests : gmap string nat;
  tasks : list Task;
  callers : list Caller
}.


(** What the event loop does next. *)
Inductive Event :=
  | Arrive (key : string)            (* a new call is made *)
  | Enter (c : nat)                  (* call [c] runs up to [await task] *)
  | Complete (t : nat) (o : Outcome) (* the fetch of task [t] ends *)
  | Resume (c : nat).                (* call [c] runs on from [await task] *)

(** Step 1 of the method, under the lock: join the pending task of the key,
    or create one and register it. *)
Definition enter (c : nat) (s : State) : State :=
  match callers s !! c with
  | Some (Start key) =>
      match pending_requests s !! key with
      | Some task =>
          mkState (pending_requests s) (tasks s)
                  (<[c := Awaiting key task false]> (callers s))
      | None =>
          let task := length (tasks s) in
          mkState (<[key := task]> (pending_requests s))
                  (tasks s ++ [mkTask key None])
                  (<[c := Awaiting key task true]> (callers s))
      end
  | _ => s
  end.

Definition complete (t : nat) (o : Outcome) (s : State) : State :=
  match tasks s !! t with
  | Some (mkTask key None) =>
      mkState (pending_requests s) (<[t := mkTask key (Some o)]> (tasks s))
              (callers s)
  | _ => s
  end.

(** Steps 2 and 3: the awaited task is done; the [finally] block removes the
    entry when this call created it and the entry still is its task; the
    call returns or raises what the task did. *)
Definition resume (c : nat) (s : State) : State :=
  match callers s !! c with
  | Some (Awaiting key task created) =>
      match tasks s !! task with
      | Some (mkTask _ (Some o)) =>
          let pending :=
            if created
            then if decide (pending_requests s !! key = Some task)
                 then delete key (pending_requests s)
                 else pending_requests s
            else pending_requests s in
          mkState pending (tasks s) (<[c := Over key task created o]> (callers s))
      | _ => s
      end
  | _ => s
  end.

Definition step (ev : Event) (s : State) : State :=
  match ev with
  | Arrive key => mkState (pending_requests s) (tasks s) (callers s ++ [Start key])
  | Enter c => enter c s
  | Complete t o => complete t o s
  | Resume c => resume c s
  end.

Definition run (evs : list Event) (s : State) : State :=
  fold_left (λ s ev, step ev s) evs s.


(** Call [c] awaits or awaited task [t]. *)
Definition uses (s : State) (c t : nat) : Prop :=
  ∃ key created, callers s !! c = Some (Awaiting key t created)
                 ∨ ∃ o, callers s !! c = Some (Over key t created o).


End Dedup.

(** A change of a player object that leaves its user id and its dealer flag
    alone, and leaves a hand where there was one: what the methods do to
    players once they are seated. *)
Definition same_player (f : Player → Player) : Prop :=
  ∀ p, user_id (f p) = user_id p
       ∧ is_dealer (f p) = is_dealer p
       ∧ (hands p ≠ [] → hands (f p) ≠ []).

(** The shape every game object has: the dealer is flagged and holds a hand,
    the seated players are not flagged and hold a hand each. *)
Definition well_formed (g : BlackjackGame) : Prop :=
  is_dealer (dealer g) = true
  ∧ hands (dealer g) ≠ []
  ∧ ∀ p, p ∈ players g → is_dealer p = false ∧ hands p ≠ [].

(** ** utils/blackjack_helpers.py: results *)

(** [determine_winner]: the result code ["win"], ["lose"] or ["push"]. *)
Definition determine_winner (player_value dealer_value : Z)
    (player_blackjack dealer_blackjack : bool) : string :=
  if player_blackjack && dealer_blackjack then "push"
  else if player_blackjack then "win"
  else if dealer_blackjack then "lose"
  else if BLACKJACK_VALUE <? player_value then "lose"
  else if BLACKJACK_VALUE <? dealer_value then "win"
  else if dealer_value <? player_value then "win"
  else if player_value <? dealer_value then "lose"
  else "push".

(** The result code of the same two hands seen from the other side. *)
Definition opposite (result : string) : string :=
  if decide (result = "win") then "lose"
  else if decide (result = "lose") then "win"
  else result.

(** The call made for a hand against the dealer's: the values and the
    blackjack flags are those of the cards. *)
Definition hand_against (player_cards dealer_cards : list Card) : string :=
  determine_winner (calculate_hand_value player_cards)
                   (calculate_hand_value dealer_cards)
                   (is_blackjack player_cards) (is_blackjack dealer_cards).

(** [Deck.cards_remaining], which is [Deck.__len__] too *)
Definition cards_remaining (d : Deck) : nat := length (deck_cards d).

(** ** utils/decorators.py: [retry_on_error]

    The decorated function runs in a world, as the operation a circuit
    breaker protects does; [retryable] says whether an exception is an
    instance of [exceptions]; [asyncio.sleep] takes the world to a later one.
    Delays are whole numbers of seconds, as the defaults are.  Besides what
    the wrapper returns or raises and the world it leaves, a run records how
    often the function was called and the delays slept, in order. *)
Module Retry.

Inductive Wrapped (R E : Type) :=
  | Returned (r : R)
  | ReturnedNone             (* the wrapper falls off its end *)
  | Raised (e : E).
Arguments Returned {R E} r.
Arguments ReturnedNone {R E}.
Arguments Raised {R E} e.

Record Run (W R E : Type) := mkRun {
  result : Wrapped R E;
  calls_made : nat;
  delays : list Z;
  world : W
}.
Arguments mkRun {W R E}.
Arguments result {W R E}.
Arguments calls_made {W R E}.
Arguments delays {W R E}.
Arguments world {W R E}.

(** [range(n)] *)
Definition range (n : Z) : list Z := Z.of_nat <$> seq 0 (Z.to_nat n).

Section wrapper.
Context {W R E : Type} (retryable : E → bool) (sleep : Z → W → W).

(** [for attempt in range(max_retries): ...] from the attempts still to
    make, and the two lines after the loop. *)
Fixpoint loop (max_retries base_delay max_delay : Z)
    (func : W → CircuitBreaker.Outcome R E * W)
    (attempts : list Z) (last_exception : option E)
    (n : nat) (ds : list Z) (w : W) : Run W R E :=
  match attempts with
  | [] =>
      match last_exception with
      | Some e => mkRun (Raised e) n ds w
      | None => mkRun ReturnedNone n ds w
      end
  | attempt :: attempts' =>
      match func w with
      | (CircuitBreaker.Returns r, w') => mkRun (Returned r) (S n) ds w'
      | (CircuitBreaker.Raises e, w') =>
          if retryable e then
            if decide (attempt = max_retries - 1)
            then mkRun (Raised e) (S n) ds w'
            else
              let delay := Z.min (base_delay * 2 ^ attempt) max_delay in
              loop max_retries base_delay max_delay func attempts' (Some e)
                   (S n) (ds ++ [delay]) (sleep delay w')
          else mkRun (Raised e) (S n) ds w'
      end
  end.

(** The wrapper [retry_on_error(max_retries, exceptions, base_delay,
    max_delay)] puts around [func]. *)
Definition wrapper (max_retries base_delay max_delay : Z)
    (func : W → CircuitBreaker.Outcome R E * W) (w : W) : Run W R E :=
  loop max_retries base_delay max_delay func (range max_retries) None 0 [] w.
End wrapper.

End Retry.

(** ** utils/blackjack_game.py: game state *)

(** [get_turn_order] *)
Definition get_turn_order (g : BlackjackGame) : list Player :=
  players g ++ [dealer g].

(** [should_reveal_hole_card], [is_game_over] *)
Definition should_reveal_hole_card (g : BlackjackGame) : bool :=
  bool_decide (phase g ∈ [DEALER_TURN; RESULTS]).
Definition is_game_over (g : BlackjackGame) : bool :=
  bool_decide (phase g ∈ [RESULTS; ENDED]).

(** [get_dealer_hand]; [l[:1]] is the list of the first element, if any. *)
Definition get_dealer_hand (reveal_hole_card : bool) : M (list Card) :=
  g ← gets id;
  if reveal_hole_card || bool_decide (phase g ∈ [DEALER_TURN; RESULTS]) then
    h0 ← index (hands (dealer g)) 0;
    mret (cards h0)
  else
    h0 ← index (hands (dealer g)) 0;
    mret (take 1 (cards h0)).

(** The place of a phase in the course of a game, in the order [GamePhase]
    lists them. *)
Definition phase_rank (ph : GamePhase) : nat :=
  match ph with
  | LOBBY => 0 | DEALING => 1 | PLAYING => 2
  | DEALER_TURN => 3 | RESULTS => 4 | ENDED => 5
  end.

(** ** The cards of a game *)

(** The cards a player holds, hand after hand; the cards on the table, the
    dealer's first; and all the cards of a game, those left in the deck
    first. *)
Definition player_cards (p : Player) : list Card := concat (cards <$> hands p).

Definition table_cards (g : BlackjackGame) : list Card :=
  player_cards (dealer g) ++ concat (player_cards <$> players g).

Definition all_cards (g : BlackjackGame) : list Card :=
  deck_cards (deck g) ++ table_cards g.

(** Nobody holds a card while the game is in the lobby. *)
Definition lobby_clean (g : BlackjackGame) : Prop :=
  phase g = LOBBY → table_cards g = [].

(** A method that only reads the game object. *)
Definition reads {A} (m : M A) : Prop := ∀ g, (m g).2 = g.

(** A method that leaves the cards of the game the same, up to their order,
    from whatever game object it is run on, also when it raises. *)
Definition conserves {A} (m : M A) : Prop :=
  ∀ g, all_cards (m g).2 ≡ₚ all_cards g.

(** Run on [g], the method leaves a game whose cards are [total]. *)
Definition lands {A} (total : list Card) (m : M A) (g : BlackjackGame) : Prop :=
  all_cards (m g).2 ≡ₚ total.

(** What dealing keeps of a game of [n] seats whose cards are [total]. *)
Definition dealing (total : list Card) (n : nat) (g : BlackjackGame) : Prop :=
  all_cards g ≡ₚ total ∧ well_formed g ∧ length (players g) = n.

(** ** The order of dealing *)

(** The order in which [_deal_initial_cards] deals one round at a table of
    [n] seats: seat after seat, then the dealer. *)
Definition dealing_round (n : nat) : list Who :=
  (Seat <$> seq 0 n) ++ [TheDealer].

(** The cards that come to [w] when the cards [cs] are dealt one by one in
    the order [ws]. *)
Fixpoint dealt_to (w : Who) (ws : list Who) (cs : list Card) : list Card :=
  match ws, cs with
  | w' :: ws', c :: cs' =>
      if decide (w' = w) then c :: dealt_to w ws' cs' else dealt_to w ws' cs'
  | _, _ => []
  end.

(** The cards of the first hand of a player, [w.hands[0].cards]. *)
Definition first_hand_cards (w : Who) (g : BlackjackGame) : option (list Card) :=
  p ← player_at w g; h ← hands p !! 0%nat; Some (cards h).

(** [w] is the dealer or one of [n] seats. *)
Definition at_table (n : nat) (w : Who) : Prop :=
  match w with
  | TheDealer => True
  | Seat i => (i < n)%nat
  end.

(** ** utils/assets.py: the card emojis *)

Definition CARD_BACK_EMOJI : string := "<:reverse_modified:1441432178557718719>".

Definition CARD_EMOJIS : gmap string string := list_to_map [
    ("ace_spades", "<:ace_of_spades:1441431173871042750>");
    ("2_spades", "<:2_of_spades:1441430921063698503>");
    ("3_spades", "<:3_of_spades:1441430929632526377>");
    ("4_spades", "<:4_of_spades:1441430938713198704>");
    ("5_spades", "<:5_of_spades:1441430953372155995>");
    ("6_spades", "<:6_of_spades:1441430962616533023>");
    ("7_spades", "<:7_of_spades:1441430972221624471>");
    ("8_spades", "<:8_of_spades:1441430982992593047>");
    ("9_spades", "<:9_of_spades:1441430991163101244>");
    ("10_spades", "<:10_of_spades:1441431000818389095>");
    ("jack_spades", "<:jack_of_spades:1441467496224788672>");
    ("queen_spades", "<:queen_of_spades:1441467518547136776>");
    ("king_spades", "<:king_of_spades:1441467507415453736>");
    ("ace_hearts", "<:ace_of_hearts:1441431171996188702>");
    ("2_hearts", "<:2_of_hearts:1441430919331188736>");
    ("3_hearts", "<:3_of_hearts:1441430927678116005>");
    ("4_hearts", "<:4_of_hearts:1441430936611852439>");
    ("5_hearts", "<:5_of_hearts:1441430951417876560>");
    ("6_hearts", "<:6_of_hearts:1441430960007544862>");
    ("7_hearts", "<:7_of_hearts:1441430969411436594>");
    ("8_hearts", "<:8_of_hearts:1441430980446392330>");
    ("9_hearts", "<:9_of_hearts:1441430989309218897>");
    ("10_hearts", "<:10_of_hearts:1441430998398275604>");
    ("jack_hearts", "<:jack_of_hearts:1441467494660444261>");
    ("queen_hearts", "<:queen_of_hearts:1441467516252848230>");
    ("king_hearts", "<:king_of_hearts:1441467504760328202>");
    ("ace_diamonds", "<:ace_of_diamonds:1441431170251493497>");
    ("2_diamonds", "<:2_of_diamonds:1441430917137567898>");
    ("3_diamonds", "<:3_of_diamonds:1441430924888637461>");
    ("4_diamonds", "<:4_of_diamonds:1441430933579239654>");
    ("5_diamonds", "<:5_of_diamonds:1441430949639356446>");
    ("6_diamonds", "<:6_of_diamonds:1441430957579178025>");
    ("7_diamonds", "<:7_of_diamonds:1441430967116890225>");
    ("8_diamonds", "<:8_of_diamonds:1441430977825214587>");
    ("9_diamonds", "<:9_of_diamonds:1441430987233038438>");
    ("10_diamonds", "<:10_of_diamonds:1441430996342800507>");
    ("jack_diamonds", "<:jack_of_diamonds:1441467492022095893>");
    ("queen_diamonds", "<:queen_of_diamonds:1441467513421566022>");
    ("king_diamonds", "<:king_of_diamonds:1441467502138753116>");
    ("ace_clubs", "<:ace_of_clubs:1441431168376639498>");
    ("2_clubs", "<:2_of_clubs:1441430914830962768>");
    ("3_clubs", "<:3_of_clubs:1441430922997006439>");
    ("4_clubs", "<:4_of_clubs:1441430931507511357>");
    ("5_clubs", "<:5_of_clubs:1441430947818901667>");
    ("6_clubs", "<:6_of_clubs:1441430955377033257>");
    ("7_clubs", "<:7_of_clubs:1441430964772409394>");
    ("8_clubs", "<:8_of_clubs:1441430974327033887>");
    ("9_clubs", "<:9_of_clubs:1441430984896811068>");
    ("10_clubs", "<:10_of_clubs:1441430993742462996>");
    ("jack_clubs", "<:jack_of_clubs:1441467490143047802>");
    ("queen_clubs", "<:queen_of_clubs:1441467510624092221>");
    ("king_clubs", "<:king_of_clubs:1441467499353866411>");
    ("red_joker", "<:red_joker:1441431255294935050>");
    ("black_joker", "<:black_joker:1441431281442230292>")
  ].

(** ** utils/blackjack_deck.py: how a card is shown *)

(** The text of a suit, as in [Deck.SUITS]. *)
Definition suit_str (s : Suit) : string :=
  match s with
  | Spades => "♠" | Hearts => "♥" | Diamonds => "♦" | Clubs => "♣"
  end.

(** [Card.__str__] *)
Definition Card_str (c : Card) : string := rank_str (rank c) +:+ suit_str (suit c).

(** [Card.get_emoji]: [suit_map] and [rank_map] are read off the suit and
    the rank; a rank that is not in [rank_map] stands for itself. *)
Definition suit_name (s : Suit) : string :=
  match s with
  | Spades => "spades" | Hearts => "hearts"
  | Diamonds => "diamonds" | Clubs => "clubs"
  end.

Definition rank_name (r : Rank) : string :=
  match r with
  | RA => "ace" | RJ => "jack" | RQ => "queen" | RK => "king"
  | _ => rank_str r
  end.

Definition get_emoji (c : Card) : string :=
  let key := rank_name (rank c) +:+ "_" +:+ suit_name (suit c) in
  default (Card_str c) (CARD_EMOJIS !! key).

(** ** utils/blackjack_helpers.py: formatting *)

(** [sep.join(l)] *)
Fixpoint join (sep : string) (l : list string) : string :=
  match l with
  | [] => ""
  | [x] => x
  | x :: l' => x +:+ sep +:+ join sep l'
  end.

(** The body of the loop of [format_hand] for the card at index [i]. *)
Definition display_card (hide_second use_emojis : bool) (i : nat) (card : Card)
    : string :=
  if hide_second && bool_decide (i = 1%nat) then
    if use_emojis then CARD_BACK_EMOJI else "??"
  else
    if use_emojis then get_emoji card else Card_str card.

Definition format_hand (cards : list Card) (hide_second use_emojis : bool)
    : string :=
  match cards with
  | [] => "—"
  | _ => join " " (imap (display_card hide_second use_emojis) cards)
  end.

Definition format_hand_with_value (cards : list Card)
    (hide_second use_emojis : bool) : string :=
  let hand_str := format_hand cards hide_second use_emojis in
  if hide_second then hand_str +:+ " = ?"
  else
    let value := calculate_hand_value cards in
    if is_soft_hand cards
    then hand_str +:+ " = " +:+ pretty value +:+ " (soft)"
    else hand_str +:+ " = " +:+ pretty value.

(** ** utils/blackjack_views.py: the dealer's line of the game embed *)

(** The text of the dealer's field in [create_game_embed]. *)
Definition dealer_text : M string :=
  g ← gets id;
  let use_emojis := use_emojis g in
  h0 ← index (hands (dealer g)) 0;
  let dealer_hand := cards h0 in
  let reveal_hole := should_reveal_hole_card g in
  mret (format_hand_with_value dealer_hand (negb reveal_hole) use_emojis).

(* ==================================================================== *)
(** * Lemmas and theorems *)
(* ==================================================================== *)

(** ** Hand values *)

Lemma sumZ_from (l : list Z) (a : Z) : fold_left Z.add l a = a + sumZ l.
Proof.
  unfold sumZ. revert a.
  induction l as [|x l IH]; intros a; cbn [fold_left]; [lia|].
  rewrite (IH (a + x)), (IH (0 + x)). lia.
Qed.

Lemma sumZ_cons (x : Z) (l : list Z) : sumZ (x :: l) = x + sumZ l.
Proof. unfold sumZ at 1. simpl. apply sumZ_from. Qed.

Lemma count_aces_cons (c : Card) (cs : list Card) :
  count_aces (c :: cs) = ((if is_ace c then 1 else 0) + count_aces cs)%nat.
Proof. reflexivity. Qed.

Lemma value_cases (c : Card) :
  value c = if is_ace c then 11 else low_points c.
Proof.
  unfold value, low_points, is_ace, is_face.
  destruct c as [s []]; reflexivity.
Qed.

Lemma fold_count_card (cards : list Card) (t : Z) (a : nat) :
  fold_left count_card cards (t, a)
  = (t + high_total cards, (a + count_aces cards)%nat).
Proof.
  revert t a. induction cards as [|c cs IH]; intros t a.
  - unfold high_total, sumZ. simpl. f_equal; lia.
  - cbn [fold_left]. unfold high_total in *.
    rewrite map_cons, sumZ_cons, count_aces_cons.
    unfold count_card at 2.
    assert (value c = if is_ace c then 11
                      else if is_face c then 10 else int_rank (rank c)) as ->
      by reflexivity.
    destruct (is_ace c) eqn:Ea; [|destruct (is_face c) eqn:Ef];
      rewrite IH; unfold BLACKJACK_ACE_HIGH_VALUE, BLACKJACK_FACE_CARD_VALUE;
      f_equal; lia.
Qed.

(** The loop of [calculate_hand_value] stops after [k] downgrades: every
    earlier total was above 21, and the final one is at most 21 unless the
    Aces ran out. *)
Lemma adjust_aces_spec (aces : nat) (total : Z) :
  ∃ k : nat,
    (k ≤ aces)%nat
    ∧ adjust_aces aces total = (total - 10 * Z.of_nat k, (aces - k)%nat)
    ∧ ((k < aces)%nat → total - 10 * Z.of_nat k ≤ 21)
    ∧ (∀ j : nat, (j < k)%nat → 21 < total - 10 * Z.of_nat j).
Proof.
  revert total. induction aces as [|a IH]; intros total.
  - exists O. simpl. repeat split; try lia. f_equal; lia.
  - simpl. unfold BLACKJACK_VALUE, BLACKJACK_ACE_HIGH_VALUE, BLACKJACK_ACE_LOW_VALUE.
    destruct (21 <? total) eqn:E.
    + apply Z.ltb_lt in E.
      destruct (IH (total - (11 - 1))) as (k & Hk & Heq & Hle & Hgt).
      exists (S k). repeat split; try lia.
      * rewrite Heq. f_equal; lia.
      * intros j Hj. destruct j as [|j]; [lia|].
        specialize (Hgt j ltac:(lia)). lia.
    + apply Z.ltb_ge in E.
      exists O. repeat split; try lia. f_equal; lia.
Qed.

Lemma value_with_low (hi : list bool) (cards : list Card) :
  value_with [] cards ≤ value_with hi cards
  ∧ value_with [] cards = high_total cards - 10 * Z.of_nat (count_aces cards).
Proof.
  revert hi. induction cards as [|c cs IH]; intros hi.
  - simpl. unfold high_total, sumZ. simpl. lia.
  - cbn [value_with]. unfold high_total in *.
    rewrite map_cons, sumZ_cons, count_aces_cons.
    destruct (IH (tail hi)) as [H1 H2]. cbn [tail head default] in *.
    unfold BLACKJACK_ACE_HIGH_VALUE, BLACKJACK_ACE_LOW_VALUE.
    rewrite value_cases.
    destruct (is_ace c); destruct (default false (head hi)); lia.
Qed.

Lemma calculate_hand_value_eq (cards : list Card) :
  calculate_hand_value cards
  = fst (adjust_aces (count_aces cards) (high_total cards)).
Proof.
  destruct cards as [|c cs]; [reflexivity|].
  unfold calculate_hand_value.
  rewrite fold_count_card. cbv beta iota. f_equal.
Qed.

(** C2. The hand value is the sum of the card values with every Ace at 11,
    lowered by 10 once per downgraded Ace, where Aces are downgraded one by
    one exactly as long as the total is above 21 and an Ace is left.  So it
    is at most 21 whenever some way of counting the Aces as 1 or 11 gives at
    most 21, and otherwise it is the smallest value any such way gives. *)
Theorem calculate_hand_value_best (cards : list Card) :
  (∃ k : nat,
      (k ≤ count_aces cards)%nat
      ∧ calculate_hand_value cards = high_total cards - 10 * Z.of_nat k
      ∧ ((k < count_aces cards)%nat → calculate_hand_value cards ≤ 21)
      ∧ (∀ j : nat, (j < k)%nat → 21 < high_total cards - 10 * Z.of_nat j))
  ∧ ((∃ hi, value_with hi cards ≤ 21) → calculate_hand_value cards ≤ 21)
  ∧ ((∀ hi, 21 < value_with hi cards) →
       calculate_hand_value cards = value_with [] cards
       ∧ ∀ hi, calculate_hand_value cards ≤ value_with hi cards).
Proof.
  rewrite calculate_hand_value_eq.
  destruct (adjust_aces_spec (count_aces cards) (high_total cards))
    as (k & Hk & Heq & Hle & Hgt).
  rewrite Heq. cbn [fst].
  pose proof (value_with_low [] cards) as [_ Hlow].
  split; [exists k; repeat split; auto|].
  split.
  - intros [hi Hhi].
    pose proof (value_with_low hi cards) as [Hmin _].
    destruct (decide (k < count_aces cards)%nat) as [Hlt|Hge]; [auto|].
    assert (k = count_aces cards) by lia. subst k. lia.
  - intros Hall.
    assert (k = count_aces cards) as ->.
    { destruct (decide (k < count_aces cards)%nat) as [Hlt|Hge]; [|lia].
      exfalso. specialize (Hle Hlt).
      (* counting the first k Aces low is one of the assignments *)
      clear Hgt Heq.
      assert (∀ cs (n : nat), (n ≤ count_aces cs)%nat →
                ∃ hi, value_with hi cs = high_total cs - 10 * Z.of_nat n) as Hex.
      { clear. induction cs as [|c cs IH]; intros n Hn.
        - simpl in Hn. assert (n = O) by lia. subst. exists [].
          unfold high_total, sumZ. simpl. lia.
        - unfold high_total in *. rewrite count_aces_cons in Hn.
          destruct (is_ace c) eqn:Ea.
          + destruct n as [|n].
            * destruct (IH O ltac:(lia)) as [hi Hhi]. exists (true :: hi).
              cbn [value_with head tail default from_option id]. rewrite Ea, Hhi.
              rewrite map_cons, sumZ_cons, value_cases, Ea.
              unfold BLACKJACK_ACE_HIGH_VALUE. lia.
            * destruct (IH n ltac:(lia)) as [hi Hhi]. exists (false :: hi).
              cbn [value_with head tail default from_option id]. rewrite Ea, Hhi.
              rewrite map_cons, sumZ_cons, value_cases, Ea.
              unfold BLACKJACK_ACE_LOW_VALUE. lia.
          + destruct (IH n ltac:(lia)) as [hi Hhi]. exists (false :: hi).
            cbn [value_with head tail default from_option id]. rewrite Ea, Hhi.
            rewrite map_cons, sumZ_cons. lia. }
      destruct (Hex cards k Hk) as [hi Hhi].
      specialize (Hall hi). lia. }
    split; [lia|].
    intros hi. pose proof (value_with_low hi cards) as [Hmin _]. lia.
Qed.

(** The soft hand [A, 5] is worth 16; downgrading is forced on [A, 5, 10]. *)
Lemma calculate_hand_value_best_witness :
  (∃ hi, value_with hi [mkCard Spades RA; mkCard Hearts R5; mkCard Diamonds R10] ≤ 21)
  ∧ calculate_hand_value [mkCard Spades RA; mkCard Hearts R5; mkCard Diamonds R10] ≤ 21.
Proof.
  assert (∃ hi, value_with hi [mkCard Spades RA; mkCard Hearts R5; mkCard Diamonds R10] ≤ 21) as H.
  { exists [false; false; false]. vm_compute. discriminate. }
  split; [exact H|].
  exact (proj1 (proj2 (calculate_hand_value_best _)) H).
Defined.

(** ** The game: running a method *)

Lemma bind_run {A B} (m : M A) (k : A → M B) (g : BlackjackGame) :
  (m ≫= k) g
  = match m g with
    | (Ok a, g') => k a g'
    | (Raise e, g') => (Raise e, g')
    end.
Proof. reflexivity. Qed.

Lemma bind_ok {A B} (m : M A) (k : A → M B) (g g' : BlackjackGame) (a : A) :
  m g = (Ok a, g') → (m ≫= k) g = k a g'.
Proof. intros H. rewrite bind_run, H. reflexivity. Qed.

Lemma bind_raise {A B} (m : M A) (k : A → M B) (g g' : BlackjackGame) (e : exn) :
  m g = (Raise e, g') → (m ≫= k) g = (Raise e, g').
Proof. intros H. rewrite bind_run, H. reflexivity. Qed.

Lemma gets_run {A} (f : BlackjackGame → A) (g : BlackjackGame) :
  gets f g = (Ok (f g), g).
Proof. reflexivity. Qed.

Lemma modify_run (f : BlackjackGame → BlackjackGame) (g : BlackjackGame) :
  modify f g = (Ok tt, f g).
Proof. reflexivity. Qed.

Lemma ret_run {A} (a : A) (g : BlackjackGame) : (mret a : M A) g = (Ok a, g).
Proof. reflexivity. Qed.

Lemma raise_run {A} (e : exn) (g : BlackjackGame) :
  (raise e : M A) g = (Raise e, g).
Proof. reflexivity. Qed.

Lemma deref_run (w : Who) (g : BlackjackGame) (p : Player) :
  player_at w g = Some p → deref w g = (Ok p, g).
Proof. intros H. unfold deref. rewrite H. reflexivity. Qed.

Lemma index_run {A} (l : list A) (i : nat) (x : A) (g : BlackjackGame) :
  l !! i = Some x → index l i g = (Ok x, g).
Proof. intros H. unfold index. rewrite H. reflexivity. Qed.

Lemma get_current_hand_run (w : Who) (g : BlackjackGame) (p : Player) (h : PlayerHand) :
  player_at w g = Some p →
  hands p !! current_hand_index p = Some h →
  get_current_hand w g = (Ok (current_hand_index p, h), g).
Proof.
  intros Hp Hh. unfold get_current_hand.
  rewrite (bind_ok _ _ _ _ _ (deref_run _ _ _ Hp)).
  rewrite (bind_ok _ _ _ _ _ (index_run _ _ _ _ Hh)).
  reflexivity.
Qed.

Lemma get_current_player_at (g : BlackjackGame) (w : Who) :
  get_current_player g = Some w → ∃ p, player_at w g = Some p.
Proof.
  unfold get_current_player. intros H.
  repeat case_decide; simplify_eq; simpl.
  - eauto.
  - apply lookup_lt_is_Some_2. done.
Qed.

(** Rewriting a run step by step. *)
Ltac run :=
  repeat first
    [ rewrite gets_run
    | rewrite modify_run
    | rewrite ret_run
    | rewrite raise_run
    | progress cbv beta iota
    | rewrite bind_run ].

(** Splitting on the test the run is stuck at. *)
Ltac run_case :=
  match goal with
  | |- context [decide ?P] => destruct (decide P)
  | |- context [if ?b then _ else _] => destruct b eqn:?
  end.

Lemma can_dealer_hit_run (g : BlackjackGame) (h0 : PlayerHand) :
  hands (dealer g) !! 0%nat = Some h0 →
  ∃ b, can_dealer_hit g = (Ok b, g).
Proof.
  intros H. unfold can_dealer_hit.
  rewrite bind_run, gets_run, bind_run, (index_run _ _ _ _ H).
  destruct (cards h0); [by eexists|].
  repeat case_match; by eexists.
Qed.

Lemma can_dealer_stand_run (g : BlackjackGame) (h0 : PlayerHand) :
  hands (dealer g) !! 0%nat = Some h0 →
  ∃ b, can_dealer_stand g = (Ok b, g).
Proof.
  intros H. unfold can_dealer_stand.
  destruct (can_dealer_hit_run g h0 H) as [b Hb].
  rewrite bind_run, Hb. by eexists.
Qed.

(** ** Invalid moves *)

Lemma act_nobody_to_play (a : Action) (uid : Z) (g : BlackjackGame) :
  get_current_player g = None → act a uid g = (Ok (invalid_move a), g).
Proof.
  intros Ew.
  destruct a; unfold act, hit, stand, double_down, split, surrender;
    run; rewrite Ew; reflexivity.
Qed.

Lemma act_not_your_turn (a : Action) (uid : Z) (g : BlackjackGame)
    (w : Who) (p : Player) :
  get_current_player g = Some w → player_at w g = Some p → user_id p ≠ uid →
  act a uid g = (Ok (invalid_move a), g).
Proof.
  intros Ew Hp Hne.
  destruct a; unfold act, hit, stand, double_down, split, surrender;
    run; rewrite Ew; run; rewrite (deref_run _ _ _ Hp); run;
    destruct (decide (user_id p ≠ uid)); try done.
Qed.

(** C4. An action asked by someone who is not the current player, or while
    the current hand is not ACTIVE (or while nobody is to play), returns the
    invalid-move value of that action, [None] or [False], and leaves the
    whole game object as it was. *)
Theorem invalid_move_no_change (a : Action) (uid : Z) (g : BlackjackGame) :
  hands (dealer g) ≠ [] →
  (∀ w p, get_current_player g = Some w → player_at w g = Some p →
     user_id p ≠ uid
     ∨ ∃ h, hands p !! current_hand_index p = Some h ∧ status h ≠ ACTIVE) →
  act a uid g = (Ok (invalid_move a), g).
Proof.
  intros Hd H.
  destruct (get_current_player g) as [w|] eqn:Ew;
    [|by apply act_nobody_to_play].
  destruct (get_current_player_at g w Ew) as [p Hp].
  destruct (H w p eq_refl Hp) as [Hne|(h & Hh & Hst)].
  - by eapply act_not_your_turn.
  - destruct (hands (dealer g)) as [|h0 hs] eqn:Eh; [done|].
    destruct (can_dealer_stand_run g h0) as [b Hb]; [by rewrite Eh|].
    pose proof (get_current_hand_run w g p h Hp Hh) as Hcur.
    destruct a; unfold act, hit, stand, double_down, split, surrender;
      run; rewrite Ew; run; rewrite (deref_run _ _ _ Hp); run;
      destruct (decide (user_id p ≠ uid)); try done;
      repeat first
        [ progress run | rewrite Hcur | rewrite Hb | progress cbn [negb]
        | done | run_case ].
Qed.

(** ** References and in-place changes *)

Lemma get_current_player_map_player (w : Who) (f : Player → Player) (g : BlackjackGame) :
  get_current_player (map_player w f g) = get_current_player g.
Proof.
  unfold get_current_player. destruct w; simpl; [|done].
  rewrite length_alter. done.
Qed.

Lemma get_current_player_set_deck (d : Deck) (g : BlackjackGame) :
  get_current_player (set_deck d g) = get_current_player g.
Proof. reflexivity. Qed.

Lemma player_at_map_player (w : Who) (f : Player → Player) (g : BlackjackGame) :
  player_at w (map_player w f g) = f <$> player_at w g.
Proof. destruct w; simpl; [apply list_lookup_alter_eq|done]. Qed.

Lemma player_at_map_player_ne (w w' : Who) (f : Player → Player) (g : BlackjackGame) :
  w ≠ w' → player_at w' (map_player w f g) = player_at w' g.
Proof.
  intros Hne. destruct w as [i|], w' as [j|]; simpl; try done.
  apply list_lookup_alter_ne. congruence.
Qed.

Lemma player_at_set_deck (w : Who) (d : Deck) (g : BlackjackGame) :
  player_at w (set_deck d g) = player_at w g.
Proof. by destruct w. Qed.

Lemma player_at_set_phase (w : Who) (ph : GamePhase) (g : BlackjackGame) :
  player_at w (set_phase ph g) = player_at w g.
Proof. by destruct w. Qed.

Lemma player_at_set_current_turn_index (w : Who) (i : nat) (g : BlackjackGame) :
  player_at w (set_current_turn_index i g) = player_at w g.
Proof. by destruct w. Qed.

Lemma draw_run (g : BlackjackGame) :
  (∃ c rest, deck_cards (deck g) = rest ++ [c]
             ∧ draw g = (Ok c, set_deck (mkDeck (seed (deck g)) rest) g))
  ∨ (deck_cards (deck g) = [] ∧ draw g = (Raise IndexError, g)).
Proof.
  unfold draw, Deck_draw, pop.
  destruct (rev (deck_cards (deck g))) as [|c r] eqn:E.
  - right. split; [|done].
    apply (f_equal (@rev _)) in E. by rewrite rev_involutive in E.
  - left. exists c, (rev r). split; [|done].
    apply (f_equal (@rev _)) in E. rewrite rev_involutive in E.
    rewrite E. simpl. done.
Qed.

Lemma pop_snoc {A} (l : list A) (x : A) : pop (l ++ [x]) = Some (x, l).
Proof. unfold pop. rewrite rev_unit, rev_involutive. done. Qed.

Lemma draw_snoc (g : BlackjackGame) (rest : list Card) (c : Card) :
  deck_cards (deck g) = rest ++ [c] →
  draw g = (Ok c, set_deck (mkDeck (seed (deck g)) rest) g).
Proof. intros H. unfold draw, Deck_draw. rewrite H, pop_snoc. done. Qed.

(** ** The recursion of [_advance_turn] *)

Lemma seq_ret_false_not_true {A} (m : M A) (g g' : BlackjackGame) :
  (m;; mret false) g ≠ (Ok true, g').
Proof.
  rewrite bind_run. destruct (m g) as [[a|e] g1]; [rewrite ret_run|]; congruence.
Qed.

(** An activation that reaches the recursive call has moved its player to
    the next hand. *)
Lemma advance_turn_body_true (g g' : BlackjackGame) :
  advance_turn_body g = (Ok true, g') →
  advance_turn_depth g = S (advance_turn_depth g').
Proof.
  unfold advance_turn_body. run.
  destruct (get_current_player g) as [w|] eqn:Ew;
    [|intros H; by apply seq_ret_false_not_true in H].
  destruct (get_current_player_at g w Ew) as [p Hp].
  run. rewrite (deref_run _ _ _ Hp). run.
  destruct (all_hands_finished p); cbn [negb];
    [intros H; by apply seq_ret_false_not_true in H|].
  destruct (Z.of_nat (current_hand_index p) <? Z.of_nat (length (hands p)) - 1) eqn:Elt;
    [|intros H; by apply seq_ret_false_not_true in H].
  apply Z.ltb_lt in Elt. run.
  set (g1 := map_player w _ g).
  assert (player_at w g1
          = Some (set_current_hand_index (current_hand_index p + 1) p)) as Hp1.
  { unfold g1. rewrite player_at_map_player, Hp. done. }
  assert (get_current_player g1 = Some w) as Ew1.
  { unfold g1. by rewrite get_current_player_map_player. }
  unfold get_current_hand. run. rewrite (deref_run _ _ _ Hp1). run.
  unfold index. cbn [hands current_hand_index set_current_hand_index].
  destruct (hands p !! (current_hand_index p + 1)%nat) as [h|] eqn:Eh;
    [|run; congruence].
  run.
  assert (∀ g2, get_current_player g2 = Some w →
                (∃ q, player_at w g2 = Some q
                      ∧ length (hands q) = length (hands p)
                      ∧ current_hand_index q = (current_hand_index p + 1)%nat) →
                advance_turn_depth g = S (advance_turn_depth g2)) as Hdepth.
  { intros g2 Ew2 (q & Hq & Hlen & Hchi).
    unfold advance_turn_depth. rewrite Ew, Hp, Ew2, Hq, Hlen, Hchi. lia. }
  destruct (Nat.eqb (length (cards h)) 1); [|run; congruence].
  run.
  destruct (draw_run g1) as [(c & rest & Hdeck & ->)|[_ ->]]; [|congruence].
  run. destruct (is_split_aces h); [|run; congruence].
  run. intros [= <-]. apply Hdepth.
  - unfold map_hand.
    rewrite !get_current_player_map_player, get_current_player_set_deck. done.
  - unfold map_hand. eexists. split.
    + rewrite !player_at_map_player, player_at_set_deck, Hp1. simpl. done.
    + simpl. rewrite !length_alter. done.
Qed.

(** [_advance_turn] is the fixed point the source writes: one activation,
    then itself again when the recursive call is reached. *)
Lemma advance_turn_unfold (g : BlackjackGame) :
  advance_turn g
  = (again ← advance_turn_body; if again : bool then advance_turn else mret tt) g.
Proof.
  unfold advance_turn at 1. rewrite bind_run.
  destruct (advance_turn_depth g) as [|n] eqn:En; cbn [advance_turn_fuel];
    rewrite bind_run;
    destruct (advance_turn_body g) as [[[]|e] g'] eqn:Eb; try reflexivity.
  - apply advance_turn_body_true in Eb. congruence.
  - apply advance_turn_body_true in Eb. unfold advance_turn.
    congruence.
Qed.

(** ** Rules for [keeps] *)

Section keeps_rules.
Context (I : BlackjackGame → Prop).

Lemma keeps_ret {A} (a : A) (Q : A → Prop) : Q a → keeps I (mret a) Q.
Proof. intros HQ g Hg. split; [done|]. simpl. by intros ? [= <-]. Qed.

Lemma keeps_raise {A} (e : exn) (Q : A → Prop) : keeps I (raise e) Q.
Proof. intros g Hg. split; [done|]. simpl. done. Qed.

Lemma keeps_gets {A} (f : BlackjackGame → A) :
  keeps I (gets f) (λ a, ∃ g, I g ∧ a = f g).
Proof. intros g Hg. split; [done|]. simpl. intros ? [= <-]. eauto. Qed.

Lemma keeps_modify (f : BlackjackGame → BlackjackGame) :
  (∀ g, I g → I (f g)) → keeps I (modify f) (λ _, True).
Proof. intros Hf g Hg. split; [by apply Hf|done]. Qed.

Lemma keeps_bind {A B} (m : M A) (k : A → M B) (Q : A → Prop) (Q' : B → Prop) :
  keeps I m Q → (∀ a, Q a → keeps I (k a) Q') → keeps I (m ≫= k) Q'.
Proof.
  intros Hm Hk g Hg. rewrite bind_run.
  destruct (Hm g Hg) as [HI HQ].
  destruct (m g) as [[a|e] g1]; simpl in *; [|done].
  apply (Hk a (HQ a eq_refl) g1 HI).
Qed.

Lemma keeps_weaken {A} (m : M A) (Q Q' : A → Prop) :
  keeps I m Q → (∀ a, Q a → Q' a) → keeps I m Q'.
Proof.
  intros Hm HQ g Hg. destruct (Hm g Hg) as [HI Ha]. split; [done|].
  intros a E. apply HQ, Ha, E.
Qed.

Lemma keeps_deref (w : Who) :
  keeps I (deref w) (λ p, ∃ g, I g ∧ player_at w g = Some p).
Proof.
  intros g Hg. unfold deref.
  destruct (player_at w g) as [p|] eqn:E; simpl; (split; [done|]); [|done].
  intros ? [= <-]. eauto.
Qed.

Lemma keeps_index {A} (l : list A) (i : nat) :
  keeps I (index l i) (λ x, l !! i = Some x).
Proof.
  intros g Hg. unfold index.
  destruct (l !! i) as [x|]; simpl; (split; [done|]); [|done].
  by intros ? [= <-].
Qed.

Lemma keeps_draw :
  (∀ g d, I g → I (set_deck d g)) → keeps I draw (λ _, True).
Proof.
  intros Hd g Hg. unfold draw.
  destruct (Deck_draw (deck g)) as [[c rest]|]; simpl; [|done].
  split; [by apply Hd|done].
Qed.

Lemma keeps_for_each {A} (l : list A) (f : A → M unit) :
  (∀ x, keeps I (f x) (λ _, True)) → keeps I (for_each l f) (λ _, True).
Proof.
  intros Hf. induction l as [|x l IH]; simpl.
  - by apply keeps_ret.
  - eapply keeps_bind; [apply Hf|]. intros _ _. apply IH.
Qed.
End keeps_rules.

(** One step of a [keeps] proof: the rule of the construct at the head of
    the method, or a case split on the test it branches on. *)
Ltac keeps_step :=
  lazymatch goal with
  | |- keeps _ (mbind _ _) _ => eapply keeps_bind; [|intros ? ?]
  | |- keeps _ (mret _) _ => apply keeps_ret
  | |- keeps _ (raise _) _ => apply keeps_raise
  | |- keeps _ (gets _) _ => apply keeps_gets
  | |- keeps _ (deref _) _ => apply keeps_deref
  | |- keeps _ (index _ _) _ => apply keeps_index
  | |- keeps _ (modify _) _ => apply keeps_modify
  | |- keeps _ (if ?b then _ else _) _ => destruct b eqn:?
  | |- keeps _ (match ?x with _ => _ end) _ => destruct x eqn:?
  | |- keeps _ (let '(_, _) := ?x in _) _ => destruct x eqn:?
  end.

Lemma active_hand_not_finished (p : Player) (k : nat) (h : PlayerHand) :
  hands p !! k = Some h → status h = ACTIVE → all_hands_finished p = false.
Proof.
  intros Hk Hst. unfold all_hands_finished.
  apply not_true_is_false. rewrite forallb_forall. intros Hall.
  specialize (Hall h). rewrite <- list_elem_of_In in Hall.
  specialize (Hall (list_elem_of_lookup_2 _ _ _ Hk)).
  rewrite Hst in Hall. by rewrite bool_decide_eq_true_2 in Hall.
Qed.

Lemma same_player_alter (k : nat) (f : PlayerHand → PlayerHand) :
  same_player (λ p, set_hands (alter f k (hands p)) p).
Proof.
  intros [uid name hs d chi]. simpl. split; [done|]. split; [done|].
  destruct hs; [done|]. by destruct k.
Qed.

Lemma same_player_next_hand :
  same_player (λ p, set_current_hand_index (current_hand_index p + 1) p).
Proof. by intros [uid name hs d chi]. Qed.

Lemma same_player_insert (k : nat) (h : PlayerHand) :
  same_player (λ p, set_hands (<[k := h]> (hands p)) p).
Proof.
  intros [uid name hs d chi]. simpl. split; [done|]. split; [done|].
  destruct hs; [done|]. by destruct k.
Qed.

Lemma same_player_insert_at (k : nat) (h : PlayerHand) :
  same_player (λ p, set_hands (list_insert_at k h (hands p)) p).
Proof.
  intros [uid name hs d chi]. simpl. split; [done|]. split; [done|].
  intros _. unfold list_insert_at. by destruct (take k hs).
Qed.

(** ** What every action keeps

    The property [I] is one that survives a change of the deck, of the phase
    (to a phase it allows to be set), of the turn index and of the style flag,
    and a change of the hands or of the hand index of a player the property
    allows to be touched; a player with an ACTIVE hand, and the dealer, have
    to be among those. *)
Section keeps_game.
Context (I : BlackjackGame → Prop) (touchable : Who → Prop)
        (settable : GamePhase → Prop).
Hypothesis I_set_deck : ∀ g d, I g → I (set_deck d g).
Hypothesis I_set_phase : ∀ g ph, settable ph → I g → I (set_phase ph g).
Hypothesis I_set_index : ∀ g n, I g → I (set_current_turn_index n g).
Hypothesis I_touch : ∀ g w p,
  I g → player_at w g = Some p → all_hands_finished p = false → touchable w.
Hypothesis I_dealer : touchable TheDealer.
Hypothesis I_map_player : ∀ g w f,
  touchable w → same_player f → I g → I (map_player w f g).
(** The actions set the phases DEALER_TURN and RESULTS, [start_game] also
    DEALING and PLAYING. *)
Hypothesis settable_DEALER_TURN : settable DEALER_TURN.
Hypothesis settable_RESULTS : settable RESULTS.
Hypothesis settable_DEALING : settable DEALING.
Hypothesis settable_PLAYING : settable PLAYING.

Local Ltac keeps_mod :=
  lazymatch goal with
  | |- keeps _ (modify _) _ =>
      apply keeps_modify; intros ? ?;
      first [ apply I_set_phase;
              [ first [ apply settable_DEALER_TURN | apply settable_RESULTS
                      | apply settable_DEALING | apply settable_PLAYING ]
              | done ]
            | apply I_set_index; done
            | apply I_map_player;
              [ by auto
              | first [ apply same_player_alter | apply same_player_next_hand
                      | apply same_player_insert | apply same_player_insert_at ]
              | done ] ]
  end.

Local Ltac keeps_go := repeat first [keeps_mod | keeps_step | done].

Lemma keeps_get_current_hand (w : Who) :
  keeps I (get_current_hand w) (λ kh, status kh.2 = ACTIVE → touchable w).
Proof.
  unfold get_current_hand.
  eapply keeps_bind; [apply keeps_deref|]. intros p (g & Hg & Hp).
  eapply keeps_bind; [apply keeps_index|]. intros h Hh.
  apply keeps_ret. simpl. intros Hst.
  apply (I_touch g w p Hg Hp). simpl in Hh.
  exact (active_hand_not_finished _ _ _ Hh Hst).
Qed.

Lemma keeps_read_hand (w : Who) (k : nat) :
  keeps I (read_hand w k) (λ _, True).
Proof.
  unfold read_hand. eapply keeps_bind; [apply keeps_deref|]. intros p _.
  eapply keeps_weaken; [apply keeps_index|done].
Qed.

Lemma keeps_can_dealer_hit : keeps I can_dealer_hit (λ _, True).
Proof. unfold can_dealer_hit. keeps_go. Qed.

Lemma keeps_can_dealer_stand : keeps I can_dealer_stand (λ _, True).
Proof.
  unfold can_dealer_stand.
  eapply keeps_bind; [apply keeps_can_dealer_hit|]. intros b _.
  by apply keeps_ret.
Qed.

Lemma keeps_check_dealer_auto_stand :
  keeps I check_dealer_auto_stand (λ _, True).
Proof. unfold check_dealer_auto_stand. keeps_go. Qed.

Lemma keeps_skip_finished_players : keeps I skip_finished_players (λ _, True).
Proof. unfold skip_finished_players. keeps_go. Qed.

Lemma keeps_advance_turn_rest (cp : option Who) :
  keeps I (advance_turn_rest cp) (λ _, True).
Proof.
  unfold advance_turn_rest.
  eapply keeps_bind with (Q := λ _, True).
  { destruct cp as [w|]; [|by apply keeps_ret].
    eapply keeps_bind; [apply keeps_deref|]. intros p _.
    destruct (is_dealer p); [|by apply keeps_ret].
    eapply keeps_bind; [apply keeps_get_current_hand|]. intros [k h] _.
    keeps_go. }
  intros [] _; [by apply keeps_ret|].
  eapply keeps_bind; [apply keeps_gets|]. intros [] _; [keeps_go|].
  eapply keeps_bind; [keeps_mod|]. intros _ _.
  eapply keeps_bind; [apply keeps_skip_finished_players|]. intros _ _.
  eapply keeps_bind; [apply keeps_gets|]. intros g' _.
  destruct (decide _); [|by apply keeps_ret].
  eapply keeps_bind; [keeps_mod|]. intros _ _.
  eapply keeps_bind; [apply keeps_check_dealer_auto_stand|]. intros _ _.
  by apply keeps_ret.
Qed.

Lemma keeps_advance_turn_body : keeps I advance_turn_body (λ _, True).
Proof.
  unfold advance_turn_body.
  eapply keeps_bind; [apply keeps_gets|]. intros cp _.
  destruct cp as [w|].
  2:{ eapply keeps_bind; [apply keeps_advance_turn_rest|]. intros _ _.
      by apply keeps_ret. }
  eapply keeps_bind; [apply keeps_deref|]. intros p (g & Hg & Hp).
  destruct (all_hands_finished p) eqn:Efin; cbn [negb].
  { eapply keeps_bind; [apply keeps_advance_turn_rest|]. intros _ _.
    by apply keeps_ret. }
  assert (touchable w) as Hw by (by eapply I_touch).
  destruct (_ <? _).
  2:{ eapply keeps_bind; [apply keeps_advance_turn_rest|]. intros _ _.
      by apply keeps_ret. }
  eapply keeps_bind; [keeps_mod|]. intros _ _.
  eapply keeps_bind; [apply keeps_get_current_hand|]. intros [k h] _.
  destruct (Nat.eqb _ _); [|by apply keeps_ret].
  eapply keeps_bind; [by apply keeps_draw|]. intros c _.
  eapply keeps_bind; [unfold map_hand; keeps_mod|]. intros _ _.
  destruct (is_split_aces h); [|by apply keeps_ret].
  eapply keeps_bind; [unfold map_hand; keeps_mod|]. intros _ _.
  by apply keeps_ret.
Qed.

Lemma keeps_advance_turn_fuel (n : nat) :
  keeps I (advance_turn_fuel n) (λ _, True).
Proof.
  induction n as [|n IH]; cbn [advance_turn_fuel];
    (eapply keeps_bind; [apply keeps_advance_turn_body|]);
    intros [] _; try (by apply keeps_ret); [apply keeps_raise|apply IH].
Qed.

Lemma keeps_advance_turn : keeps I advance_turn (λ _, True).
Proof. intros g Hg. apply (keeps_advance_turn_fuel (advance_turn_depth g) g Hg). Qed.

(** The guard every action passes before it changes a hand. *)
Local Ltac guard_active Hkh :=
  match goal with
  | n : ¬ status ?h ≠ ACTIVE |- _ =>
      let Hw := fresh "Hw" in
      assert (touchable _) as Hw
        by (apply Hkh; simpl; by destruct (decide (status h = ACTIVE)))
  end.

Lemma keeps_hit (uid : Z) : keeps I (hit uid) (λ _, True).
Proof.
  unfold hit.
  eapply keeps_bind; [apply keeps_gets|]. intros cp _.
  destruct cp as [w|]; [|by apply keeps_ret].
  eapply keeps_bind; [apply keeps_deref|]. intros p _.
  destruct (decide _); [by apply keeps_ret|].
  eapply keeps_bind with (Q := λ _, True).
  { destruct (is_dealer p); [apply keeps_can_dealer_stand|by apply keeps_ret]. }
  intros [] _; [by apply keeps_ret|].
  eapply keeps_bind; [apply keeps_get_current_hand|]. intros [k h] Hkh.
  destruct (decide _); [by apply keeps_ret|]. guard_active Hkh.
  eapply keeps_bind; [by apply keeps_draw|]. intros c _.
  eapply keeps_bind; [unfold map_hand; keeps_mod|]. intros _ _.
  eapply keeps_bind; [apply keeps_read_hand|]. intros h' _.
  eapply keeps_bind with (Q := λ _, True); [|intros; by apply keeps_ret].
  destruct (is_bust _).
  { eapply keeps_bind; [unfold map_hand; keeps_mod|]. intros _ _.
    apply keeps_advance_turn. }
  destruct (is_dealer p); [|by apply keeps_ret].
  eapply keeps_bind; [apply keeps_can_dealer_stand|]. intros [] _;
    [|by apply keeps_ret].
  eapply keeps_bind; [unfold map_hand; keeps_mod|]. intros _ _. keeps_mod.
Qed.

Lemma keeps_stand (uid : Z) : keeps I (stand uid) (λ _, True).
Proof.
  unfold stand.
  eapply keeps_bind; [apply keeps_gets|]. intros cp _.
  destruct cp as [w|]; [|by apply keeps_ret].
  eapply keeps_bind; [apply keeps_deref|]. intros p _.
  destruct (decide _); [by apply keeps_ret|].
  eapply keeps_bind with (Q := λ _, True).
  { destruct (is_dealer p); [|by apply keeps_ret].
    eapply keeps_bind; [apply keeps_can_dealer_stand|]. intros b _.
    by apply keeps_ret. }
  intros [] _; [by apply keeps_ret|].
  eapply keeps_bind; [apply keeps_get_current_hand|]. intros [k h] Hkh.
  destruct (decide _); [by apply keeps_ret|]. guard_active Hkh.
  eapply keeps_bind; [unfold map_hand; keeps_mod|]. intros _ _.
  eapply keeps_bind with (Q := λ _, True); [|intros; by apply keeps_ret].
  destruct (is_dealer p); [keeps_mod|apply keeps_advance_turn].
Qed.

Lemma keeps_double_down (uid : Z) : keeps I (double_down uid) (λ _, True).
Proof.
  unfold double_down.
  eapply keeps_bind; [apply keeps_gets|]. intros cp _.
  destruct cp as [w|]; [|by apply keeps_ret].
  eapply keeps_bind; [apply keeps_deref|]. intros p _.
  destruct (decide _); [by apply keeps_ret|].
  destruct (is_dealer p); [by apply keeps_ret|].
  eapply keeps_bind; [apply keeps_get_current_hand|]. intros [k h] Hkh.
  destruct (negb _); [by apply keeps_ret|].
  destruct (decide _); [by apply keeps_ret|]. guard_active Hkh.
  eapply keeps_bind; [by apply keeps_draw|]. intros c _.
  eapply keeps_bind; [unfold map_hand; keeps_mod|]. intros _ _.
  eapply keeps_bind; [apply keeps_read_hand|]. intros h' _.
  eapply keeps_bind with (Q := λ _, True).
  { destruct (is_bust _); unfold map_hand; keeps_mod. }
  intros _ _.
  eapply keeps_bind; [apply keeps_advance_turn|]. intros _ _.
  by apply keeps_ret.
Qed.

Lemma keeps_split (uid : Z) : keeps I (split uid) (λ _, True).
Proof.
  unfold split.
  eapply keeps_bind; [apply keeps_gets|]. intros cp _.
  destruct cp as [w|]; [|by apply keeps_ret].
  eapply keeps_bind; [apply keeps_deref|]. intros p _.
  destruct (decide _); [by apply keeps_ret|].
  destruct (is_dealer p); [by apply keeps_ret|].
  eapply keeps_bind; [apply keeps_get_current_hand|]. intros [k h] Hkh.
  destruct (negb _); [by apply keeps_ret|].
  destruct (decide _); [by apply keeps_ret|]. guard_active Hkh.
  eapply keeps_bind; [apply keeps_index|]. intros c1 _.
  eapply keeps_bind; [apply keeps_index|]. intros c2 _.
  cbv zeta.
  eapply keeps_bind; [by apply keeps_draw|]. intros c _.
  eapply keeps_bind; [keeps_mod|]. intros _ _.
  eapply keeps_bind; [keeps_mod|]. intros _ _.
  eapply keeps_bind with (Q := λ _, True); [|intros; by apply keeps_ret].
  destruct (bool_decide _); [|by apply keeps_ret].
  eapply keeps_bind; [unfold map_hand; keeps_mod|]. intros _ _.
  eapply keeps_bind; [by apply keeps_draw|]. intros c' _.
  eapply keeps_bind; [unfold map_hand; keeps_mod|]. intros _ _.
  eapply keeps_bind; [unfold map_hand; keeps_mod|]. intros _ _.
  apply keeps_advance_turn.
Qed.

Lemma keeps_surrender (uid : Z) : keeps I (surrender uid) (λ _, True).
Proof.
  unfold surrender.
  eapply keeps_bind; [apply keeps_gets|]. intros cp _.
  destruct cp as [w|]; [|by apply keeps_ret].
  eapply keeps_bind; [apply keeps_deref|]. intros p _.
  destruct (decide _); [by apply keeps_ret|].
  destruct (is_dealer p); [by apply keeps_ret|].
  eapply keeps_bind; [apply keeps_get_current_hand|]. intros [k h] Hkh.
  destruct (_ || _); [by apply keeps_ret|].
  destruct (decide _); [by apply keeps_ret|]. guard_active Hkh.
  eapply keeps_bind; [unfold map_hand; keeps_mod|]. intros _ _.
  eapply keeps_bind; [apply keeps_advance_turn|]. intros _ _.
  by apply keeps_ret.
Qed.

Lemma keeps_act (a : Action) (uid : Z) : keeps I (act a uid) (λ _, True).
Proof.
  destruct a; unfold act;
    (eapply keeps_bind;
     [first [apply keeps_hit | apply keeps_stand | apply keeps_double_down
            | apply keeps_split | apply keeps_surrender]
     | intros; by apply keeps_ret]).
Qed.

(** [start_game] deals to every player, and [toggle_style] sets the style
    flag: they keep a property that lets every player be touched and does
    not look at the flag. *)
Hypothesis touch_all : ∀ w, touchable w.
Hypothesis I_set_use_emojis : ∀ g b, I g → I (set_use_emojis b g).

Lemma keeps_toggle_style : keeps I toggle_style (λ _, True).
Proof.
  unfold toggle_style.
  eapply keeps_bind.
  { apply keeps_modify. intros g Hg. by apply I_set_use_emojis. }
  intros _ _. eapply keeps_weaken; [apply keeps_gets|done].
Qed.

Lemma keeps_deal_to (w : Who) : keeps I (deal_to w) (λ _, True).
Proof.
  unfold deal_to.
  eapply keeps_bind; [by apply keeps_draw|]. intros c _.
  eapply keeps_bind; [apply keeps_deref|]. intros p _.
  eapply keeps_bind; [apply keeps_index|]. intros h _.
  unfold map_hand. keeps_mod.
Qed.

Lemma keeps_deal_round : keeps I deal_round (λ _, True).
Proof.
  unfold deal_round.
  eapply keeps_bind; [apply keeps_gets|]. intros ps _.
  eapply keeps_bind; [|intros _ _; apply keeps_deal_to].
  apply keeps_for_each. intros i. apply keeps_deal_to.
Qed.

Lemma keeps_start_game_play : keeps I start_game_play (λ _, True).
Proof.
  unfold start_game_play.
  eapply keeps_bind.
  { unfold deal_initial_cards.
    eapply keeps_bind; [apply keeps_deal_round|]. intros _ _.
    apply keeps_deal_round. }
  intros _ _.
  eapply keeps_bind; [apply keeps_read_hand|]. intros dh _.
  destruct (is_blackjack _).
  { eapply keeps_bind; [unfold map_hand; keeps_mod|]. intros _ _.
    eapply keeps_bind; [keeps_mod|]. intros _ _.
    by apply keeps_ret. }
  eapply keeps_bind; [apply keeps_gets|]. intros ps _.
  eapply keeps_bind.
  { apply keeps_for_each. intros i. unfold mark_blackjack.
    eapply keeps_bind; [apply keeps_read_hand|]. intros h _.
    destruct (is_blackjack _); [|by apply keeps_ret].
    unfold map_hand. keeps_mod. }
  intros _ _.
  eapply keeps_bind; [keeps_mod|]. intros _ _.
  eapply keeps_bind; [keeps_mod|]. intros _ _.
  eapply keeps_bind; [apply keeps_skip_finished_players|]. intros _ _.
  eapply keeps_bind; [apply keeps_gets|]. intros g1 _.
  eapply keeps_bind with (Q := λ _, True); [|intros; by apply keeps_ret].
  destruct (decide _); [|by apply keeps_ret].
  eapply keeps_bind; [keeps_mod|]. intros _ _.
  eapply keeps_bind; [|intros; by apply keeps_ret].
  apply keeps_check_dealer_auto_stand.
Qed.

Lemma keeps_start_game : keeps I start_game (λ _, True).
Proof.
  unfold start_game.
  eapply keeps_bind; [apply keeps_gets|]. intros g0 _.
  destruct (decide _); [by apply keeps_ret|].
  destruct (decide _); [by apply keeps_ret|].
  eapply keeps_bind; [keeps_mod|]. intros _ _.
  apply keeps_start_game_play.
Qed.

(** Every call of a method that leaves the lobby as it is. *)
Lemma keeps_after_call (c : Call) (g : BlackjackGame) :
  (∀ uid name, c ≠ CAddPlayer uid name) → (∀ uid, c ≠ CRemovePlayer uid) →
  I g → I (after_call c g).
Proof.
  intros Hadd Hrem Hg. destruct c as [uid name|uid| | |a uid]; simpl.
  - by destruct (Hadd uid name).
  - by destruct (Hrem uid).
  - by apply keeps_start_game.
  - by apply keeps_toggle_style.
  - by apply keeps_act.
Qed.
End keeps_game.

(** ** The table stays as it is outside the lobby methods *)

Section same_table_kept.
Context (maxp d : Z) (ids : list Z).

Lemma same_table_map_player (g : BlackjackGame) (w : Who) (f : Player → Player) :
  same_player f →
  same_table maxp d ids g → same_table maxp d ids (map_player w f g).
Proof.
  intros Hf (H1 & H2 & H3 & H4). destruct w as [i|]; simpl.
  - repeat split; try done. unfold seated_ids in *. simpl.
    rewrite <- H4. apply list_eq. intros j.
    rewrite !list_lookup_fmap.
    destruct (decide (i = j)) as [->|Hne].
    + rewrite list_lookup_alter_eq. destruct (players g !! j); simpl; [|done].
      by rewrite (proj1 (Hf _)).
    + by rewrite list_lookup_alter_ne.
  - repeat split; try done. simpl. by rewrite (proj1 (Hf _)).
Qed.

Lemma same_table_after_call (c : Call) (g : BlackjackGame) :
  (∀ uid name, c ≠ CAddPlayer uid name) → (∀ uid, c ≠ CRemovePlayer uid) →
  same_table maxp d ids g → same_table maxp d ids (after_call c g).
Proof.
  apply (keeps_after_call _ (λ _, True) (λ _, True)); try done.
  intros g' w f _ Hf. by apply same_table_map_player.
Qed.
End same_table_kept.

(** ** The lobby *)

Lemma existsb_seated (uid : Z) (ps : list Player) :
  existsb (λ p, user_id p =? uid) ps = true ↔ uid ∈ user_id <$> ps.
Proof.
  rewrite existsb_exists, list_elem_of_fmap. split.
  - intros (p & Hin & Heq). apply Z.eqb_eq in Heq.
    exists p. split; [done|]. by apply list_elem_of_In.
  - intros (p & -> & Hin). exists p. split; [by apply list_elem_of_In|].
    apply Z.eqb_refl.
Qed.

Lemma add_player_run (uid : Z) (name : string) (g : BlackjackGame) :
  add_player uid name g
  = if decide (phase g ≠ LOBBY) then (Ok false, g)
    else if decide (max_players g ≤ Z.of_nat (length (players g))) then (Ok false, g)
    else if existsb (λ p, user_id p =? uid) (players g) then (Ok false, g)
    else if decide (uid = dealer_id g) then (Ok false, g)
    else (Ok true,
          set_players
            (players g ++ [mkPlayer uid name [mkHand [] ACTIVE false false] false 0])
            g).
Proof.
  unfold add_player. run. unfold id.
  repeat (run_case; run; try done).
Qed.

Lemma remove_player_run (uid : Z) (g : BlackjackGame) :
  remove_player uid g
  = if decide (phase g ≠ LOBBY) then (Ok false, g)
    else (Ok true,
          set_players (List.filter (λ p, negb (user_id p =? uid)) (players g)) g).
Proof.
  unfold remove_player. run. unfold id.
  repeat (run_case; run; try done).
Qed.

Lemma table_ok_add_player (uid : Z) (name : string) (g : BlackjackGame) :
  table_ok g → table_ok (add_player uid name g).2.
Proof.
  intros (Hlen & Hnd & Hd & Hid). rewrite add_player_run.
  destruct (decide (phase g ≠ LOBBY)); [done|].
  destruct (decide (max_players g ≤ _)); [done|].
  destruct (existsb _ _) eqn:Ex; [done|].
  destruct (decide (uid = dealer_id g)); [done|].
  apply not_true_iff_false in Ex. rewrite existsb_seated in Ex.
  unfold table_ok, seated_ids in *. simpl.
  rewrite length_app, fmap_app. simpl. repeat split.
  - lia.
  - apply NoDup_app. repeat split; [done| |apply NoDup_singleton].
    intros x Hx Hx'. apply list_elem_of_singleton in Hx'. by subst.
  - rewrite elem_of_app, list_elem_of_singleton. intros [?|?]; [done|].
    congruence.
  - done.
Qed.

Lemma seated_filter (uid : Z) (ps : list Player) :
  user_id <$> List.filter (λ p, negb (user_id p =? uid)) ps
  = List.filter (λ x, negb (x =? uid)) (user_id <$> ps).
Proof.
  induction ps as [|p ps IH]; [done|].
  rewrite fmap_cons. cbn [List.filter].
  destruct (negb (user_id p =? uid)); [rewrite fmap_cons|]; by rewrite IH.
Qed.

Lemma table_ok_remove_player (uid : Z) (g : BlackjackGame) :
  table_ok g → table_ok (remove_player uid g).2.
Proof.
  intros (Hlen & Hnd & Hd & Hid). rewrite remove_player_run.
  case_decide; [done|].
  unfold table_ok, seated_ids in *. simpl. rewrite seated_filter.
  repeat split.
  - pose proof (filter_length_le (λ p, negb (user_id p =? uid)) (players g)).
    lia.
  - apply NoDup_ListNoDup, List.NoDup_filter, NoDup_ListNoDup, Hnd.
  - rewrite list_elem_of_In, filter_In, <- list_elem_of_In. tauto.
  - done.
Qed.

Lemma table_ok_same_table (g g' : BlackjackGame) :
  same_table (max_players g) (dealer_id g) (seated_ids g) g' →
  table_ok g → table_ok g'.
Proof.
  intros (H1 & H2 & H3 & H4) (Hlen & Hnd & Hd & Hid).
  unfold table_ok. rewrite H1, H4, H3, H2.
  assert (length (players g') = length (players g)) as ->.
  { unfold seated_ids in H4.
    apply (f_equal length) in H4. by rewrite !length_fmap in H4. }
  rewrite Hid in *. done.
Qed.

Lemma table_ok_after_call (c : Call) (g : BlackjackGame) :
  table_ok g → table_ok (after_call c g).
Proof.
  intros Hok.
  assert (same_table (max_players g) (dealer_id g) (seated_ids g) g) as Hsame.
  { destruct Hok as (_ & _ & _ & Hid). done. }
  destruct c as [uid name|uid| | |a uid];
    [by apply table_ok_add_player|by apply table_ok_remove_player|..];
    (eapply table_ok_same_table; [|done]);
    by apply same_table_after_call.
Qed.

(** ** The shape of the game objects

    Every game object that [BlackjackGame(...)] creates and the methods then
    change is [well_formed]: the assumptions that the theorems below make
    about the dealer's flag and hand and about the seats' flags hold in every
    state a game goes through. *)

Lemma well_formed_map_player (g : BlackjackGame) (w : Who) (f : Player → Player) :
  same_player f → well_formed g → well_formed (map_player w f g).
Proof.
  intros Hf (Hd & Hh & Hps). destruct w as [i|]; simpl.
  - split; [done|]. split; [done|]. simpl. intros p Hp.
    apply list_elem_of_lookup in Hp as [j Hj].
    destruct (decide (i = j)) as [->|Hne].
    + rewrite list_lookup_alter_eq in Hj.
      destruct (players g !! j) as [q|] eqn:Hq; [|done].
      injection Hj as <-. destruct (Hf q) as (_ & Hfd & Hfh).
      destruct (Hps q) as [Hqd Hqh]; [by eapply list_elem_of_lookup_2|].
      split; [congruence|by apply Hfh].
    + rewrite list_lookup_alter_ne in Hj by done.
      apply Hps. by eapply list_elem_of_lookup_2.
  - destruct (Hf (dealer g)) as (_ & Hfd & Hfh).
    split; [simpl; congruence|]. split; [simpl; by apply Hfh|done].
Qed.

Lemma well_formed_new_game (channel d : Z) (dealer_name : string)
    (maxp tmo : Z) (dk : Deck) :
  well_formed (new_game channel d dealer_name maxp tmo dk).
Proof.
  split; [done|]. split; [done|]. simpl. intros p Hp.
  by apply elem_of_nil in Hp.
Qed.

Lemma well_formed_add_player (uid : Z) (name : string) (g : BlackjackGame) :
  well_formed g → well_formed (add_player uid name g).2.
Proof.
  intros (Hd & Hh & Hps). rewrite add_player_run.
  destruct (decide (phase g ≠ LOBBY)); [done|].
  destruct (decide (max_players g ≤ _)); [done|].
  destruct (existsb _ _); [done|].
  destruct (decide (uid = dealer_id g)); [done|].
  split; [done|]. split; [done|]. simpl. intros p Hp.
  apply elem_of_app in Hp as [Hp|Hp]; [by apply Hps|].
  apply list_elem_of_singleton in Hp as ->. done.
Qed.

Lemma well_formed_remove_player (uid : Z) (g : BlackjackGame) :
  well_formed g → well_formed (remove_player uid g).2.
Proof.
  intros (Hd & Hh & Hps). rewrite remove_player_run.
  destruct (decide (phase g ≠ LOBBY)); [done|].
  split; [done|]. split; [done|]. simpl. intros p Hp.
  apply list_elem_of_In, filter_In in Hp as [Hp _].
  apply Hps. by apply list_elem_of_In.
Qed.

Lemma well_formed_after_call (c : Call) (g : BlackjackGame) :
  well_formed g → well_formed (after_call c g).
Proof.
  intros Hg. destruct c as [uid name|uid| | |a uid];
    [by apply well_formed_add_player|by apply well_formed_remove_player|..];
    (apply (keeps_after_call well_formed (λ _, True) (λ _, True)); try done;
     intros g' w f _ Hf; by apply well_formed_map_player).
Qed.

Lemma reachable_well_formed (channel d : Z) (dealer_name : string)
    (maxp tmo : Z) (dk : Deck) (g : BlackjackGame) :
  reachable (new_game channel d dealer_name maxp tmo dk) g → well_formed g.
Proof.
  induction 1 as [|g c _ IH];
    [apply well_formed_new_game|by apply well_formed_after_call].
Qed.

(** C10. In every state a game object goes through, created with a
    non-negative player limit, the players are at most [max_players], no
    user id is seated twice, and the dealer's id is not seated; and
    [add_player] returns [False] and changes nothing when the phase is not
    LOBBY, when the lobby is full, when the id is seated already, or when the
    id is the dealer's. *)
Theorem lobby_invariant (channel d : Z) (dealer_name : string) (maxp tmo : Z)
    (dk : Deck) (g : BlackjackGame) :
  0 ≤ maxp →
  reachable (new_game channel d dealer_name maxp tmo dk) g →
  (Z.of_nat (length (players g)) ≤ max_players g
   ∧ NoDup (seated_ids g)
   ∧ (user_id (dealer g) ∉ seated_ids g))
  ∧ ∀ uid name,
      phase g ≠ LOBBY
      ∨ max_players g ≤ Z.of_nat (length (players g))
      ∨ uid ∈ seated_ids g
      ∨ uid = user_id (dealer g) →
      add_player uid name g = (Ok false, g).
Proof.
  intros Hmax Hreach.
  assert (table_ok g) as (Hlen & Hnd & Hd & Hid).
  { induction Hreach as [|g c _ IH]; [|by apply table_ok_after_call].
    unfold table_ok, seated_ids. simpl. repeat split; try done.
    - apply NoDup_nil_2.
    - apply not_elem_of_nil. }
  split; [done|].
  intros uid name Hcase. rewrite add_player_run.
  destruct (decide (phase g ≠ LOBBY)); [done|].
  destruct (decide (max_players g ≤ _)); [done|].
  destruct (existsb _ _) eqn:Ex; [done|].
  apply not_true_iff_false in Ex. rewrite existsb_seated in Ex.
  destruct (decide (uid = dealer_id g)); [done|].
  destruct Hcase as [?|[?|[?|?]]]; try done. congruence.
Qed.

(** ** After the last seat *)






(** ** The dealer's rule *)

Lemma low_total (hand : list Card) :
  sumZ (map low_points hand) = high_total hand - 10 * Z.of_nat (count_aces hand).
Proof.
  unfold high_total. induction hand as [|c cs IH].
  - unfold sumZ. simpl. lia.
  - rewrite !map_cons, !sumZ_cons, count_aces_cons, IH, value_cases.
    destruct (is_ace c) eqn:Ea; [|lia].
    unfold low_points. rewrite Ea.
    assert (is_face c = false) as ->.
    { unfold is_ace, is_face in *. apply bool_decide_eq_true in Ea.
      rewrite Ea. done. }
    unfold BLACKJACK_ACE_LOW_VALUE. lia.
Qed.

Lemma has_ace_count (hand : list Card) :
  existsb is_ace hand = true ↔ (0 < count_aces hand)%nat.
Proof.
  induction hand as [|c cs IH]; simpl; [split; [done|lia]|].
  destruct (is_ace c); simpl; [split; [lia|done]|]. done.
Qed.

(** [is_soft_hand] says what "soft" means: an Ace is still counted as 11. *)
Lemma is_soft_hand_spec (hand : list Card) :
  is_soft_hand hand = true ↔ ace_counted_high hand.
Proof.
  unfold is_soft_hand, ace_counted_high.
  destruct (adjust_aces_spec (count_aces hand) (high_total hand))
    as (k & Hk & -> & Hle & Hgt). cbn [snd].
  rewrite low_total.
  unfold BLACKJACK_ACE_HIGH_VALUE, BLACKJACK_ACE_LOW_VALUE, BLACKJACK_VALUE.
  destruct (existsb is_ace hand) eqn:Ea; cbn [negb].
  - apply has_ace_count in Ea. rewrite Z.leb_le. split.
    + intros Hsoft.
      destruct (decide (k = count_aces hand)) as [->|Hne]; [|lia].
      specialize (Hgt (count_aces hand - 1)%nat ltac:(lia)). lia.
    + intros Hrem. specialize (Hle ltac:(lia)). lia.
  - apply not_true_iff_false in Ea. rewrite has_ace_count in Ea.
    split; [done|lia].
Qed.


Lemma check_dealer_auto_stand_run (g : BlackjackGame) (h : PlayerHand) :
  phase g = DEALER_TURN → dealer_hand g = Some h →
  check_dealer_auto_stand g
  = if dealer_must_hit (cards h) then (Ok (Some false), g)
    else (Ok (Some true),
          set_phase RESULTS (map_hand TheDealer 0 (set_status STAND) g)).
Proof.
  intros Hph Hh. unfold check_dealer_auto_stand. run.
  destruct (decide (phase g ≠ DEALER_TURN)); [done|]. run.
  rewrite (index_run _ _ _ _ Hh). run.
  unfold dealer_must_hit.
  destruct (_ <? 17); run; [done|].
  destruct (_ && _); run; done.
Qed.



(** ** Splitting *)

(** The list of hands after [hands[k] = x; hands.insert(k + 1, y)] and the
    changes [f1] of [hands[k]] and [f2], [f3] of [hands[k + 1]]. *)
Lemma split_hands_shape {A} (l : list A) (k : nat) (x y : A) (f1 f2 f3 : A → A) :
  (k < length l)%nat →
  alter f3 (k + 1)%nat (alter f2 (k + 1)%nat
    (alter f1 k (list_insert_at (k + 1) y (<[k := x]> l))))
  = take k l ++ f1 x :: f3 (f2 y) :: drop (S k) l.
Proof.
  revert k. induction l as [|a l IH]; intros k Hk; simpl in Hk; [lia|].
  destruct k as [|k].
  - unfold list_insert_at. simpl. by rewrite drop_0.
  - specialize (IH k ltac:(lia)). unfold list_insert_at in *. simpl.
    f_equal. exact IH.
Qed.

Lemma can_split_pair (c1 c2 : Card) :
  rank c1 = rank c2 → can_split [c1; c2] = true.
Proof. intros H. unfold can_split. simpl. by rewrite bool_decide_eq_true_2. Qed.

(** A seat all of whose hands are finished, in a game that has left the
    lobby, is never changed again, whatever is called. *)
Section finished_seat.
Context (i : nat) (p : Player).
Hypothesis p_finished : all_hands_finished p = true.

Local Abbreviation frozen := (frozen_seat i p).

Lemma finished_seat_act (a : Action) (uid : Z) :
  keeps frozen (act a uid) (λ _, True).
Proof.
  apply (keeps_act frozen (λ w, w ≠ Seat i) (λ ph, ph ≠ LOBBY)).
  - intros g d [??]. done.
  - intros g ph Hph [??]. done.
  - intros g n [??]. done.
  - intros g w q [Hp _] Hq Hfin ->. simpl in Hq. congruence.
  - done.
  - intros g w f Hw _ [Hp Hph]. split; [|by destruct w].
    destruct w as [j|]; simpl; [|done].
    rewrite list_lookup_alter_ne; [done|congruence].
  - done.
  - done.
Qed.

Lemma finished_seat_after_call (c : Call) (g : BlackjackGame) :
  frozen g → frozen (after_call c g).
Proof.
  intros [Hp Hph]. destruct c as [uid name|uid| | |a uid]; simpl.
  - rewrite add_player_run. by destruct (decide (phase g ≠ LOBBY)).
  - rewrite remove_player_run. by destruct (decide (phase g ≠ LOBBY)).
  - unfold start_game. run. unfold id.
    by destruct (decide (phase g ≠ LOBBY)).
  - done.
  - by apply finished_seat_act.
Qed.

Lemma finished_seat_after_calls (cs : list Call) (g : BlackjackGame) :
  players g !! i = Some p → phase g ≠ LOBBY →
  players (after_calls cs g) !! i = Some p.
Proof.
  intros Hp Hph. assert (frozen g) as Hf by done. clear Hp Hph.
  revert g Hf. induction cs as [|c cs IH]; intros g Hf; simpl.
  - by destruct Hf.
  - apply IH. by apply finished_seat_after_call.
Qed.
End finished_seat.

Lemma skip_finished_ge (rest : list Player) (i : nat) :
  (i ≤ skip_finished rest i)%nat.
Proof.
  revert i. induction rest as [|p rest IH]; intros i; simpl; [lia|].
  destruct (all_hands_finished p); [|lia]. specialize (IH (S i)). lia.
Qed.

(** [_advance_turn] when the current seat is finished and some hand at the
    table is neither BUST nor SURRENDER. *)
Lemma advance_turn_finished_seat (g : BlackjackGame) (p : Player) :
  phase g = PLAYING →
  players g !! current_turn_index g = Some p →
  all_hands_finished p = true →
  is_dealer p = false →
  check_all_players_busted_or_surrendered g = false →
  advance_turn g
  = if decide (length (players g) ≤ next_seat g)%nat
    then (check_dealer_auto_stand;; mret tt)
           (set_phase DEALER_TURN (set_current_turn_index (next_seat g) g))
    else (Ok tt, set_current_turn_index (next_seat g) g).
Proof.
  intros Hph Hp Hfin Hnd Hchk.
  assert (get_current_player g = Some (Seat (current_turn_index g))) as Ew.
  { unfold get_current_player. rewrite Hph.
    pose proof (lookup_lt_Some _ _ _ Hp).
    repeat case_decide; try done. }
  rewrite advance_turn_unfold. unfold advance_turn_body, advance_turn_rest.
  run. rewrite Ew. run.
  rewrite (deref_run (Seat (current_turn_index g)) g p Hp). run.
  rewrite Hfin. cbn [negb]. run.
  rewrite (deref_run (Seat (current_turn_index g)) g p Hp). run.
  rewrite Hnd. run. rewrite Hchk. run.
  unfold skip_finished_players. run. unfold id. simpl.
  fold (next_seat g).
  destruct (decide (length (players g) ≤ next_seat g)%nat); run; [|done].
  change (set_phase DEALER_TURN
            (set_current_turn_index (next_seat g)
               (set_current_turn_index (current_turn_index g + 1) g)))
    with (set_phase DEALER_TURN (set_current_turn_index (next_seat g) g)).
  destruct (check_dealer_auto_stand _) as [[r|e] g1]; run; done.
Qed.

Lemma split_aces_hands_finished (hs : list PlayerHand) (k : nat)
    (c1 c2 d1 d2 : Card) :
  (∀ j h', hs !! j = Some h' → j ≠ k → status h' ≠ ACTIVE) →
  forallb (λ hand, negb (bool_decide (status hand = ACTIVE)))
          (split_aces_hands hs k c1 c2 d1 d2) = true.
Proof.
  intros Hother. unfold split_aces_hands.
  rewrite forallb_app. cbn [forallb status]. 
  rewrite !bool_decide_eq_false_2 by done. cbn [negb andb].
  apply andb_true_iff. split; apply forallb_forall; intros x Hx;
    apply list_elem_of_In, list_elem_of_lookup in Hx as [j Hj];
    apply negb_true_iff, bool_decide_eq_false.
  - apply lookup_take_Some in Hj as [Hj Hlt]. apply (Hother j); [done|lia].
  - rewrite lookup_drop in Hj. apply (Hother _ _ Hj). lia.
Qed.

Lemma check_all_competitive (g : BlackjackGame) (i : nat) (q : Player)
    (hand : PlayerHand) :
  players g !! i = Some q → hand ∈ hands q →
  status hand ∈ [ACTIVE; STAND; BLACKJACK; SPLIT_ACES] →
  check_all_players_busted_or_surrendered g = false.
Proof.
  intros Hq Hin Hst. unfold check_all_players_busted_or_surrendered.
  destruct (players g) as [|p0 ps] eqn:E; [done|]. rewrite <- E in *.
  apply not_true_is_false. rewrite forallb_forall. intros Hall.
  specialize (Hall q). rewrite <- list_elem_of_In in Hall.
  specialize (Hall (list_elem_of_lookup_2 _ _ _ Hq)).
  rewrite forallb_forall in Hall. specialize (Hall hand).
  rewrite <- list_elem_of_In in Hall. specialize (Hall Hin).
  by rewrite bool_decide_eq_true_2 in Hall.
Qed.

(** [split] on an ACTIVE pair of Aces, up to its call of [_advance_turn]. *)
Lemma split_aces_run (g : BlackjackGame) (p : Player) (h : PlayerHand)
    (c1 c2 d1 d2 : Card) (rest : list Card) :
  phase g = PLAYING →
  players g !! current_turn_index g = Some p →
  is_dealer p = false →
  hands p !! current_hand_index p = Some h →
  cards h = [c1; c2] → rank c1 = RA → rank c2 = RA →
  status h = ACTIVE →
  deck_cards (deck g) = rest ++ [d2; d1] →
  split (user_id p) g
  = (advance_turn;; mret true)
      (set_players
         (<[current_turn_index g :=
              set_hands (split_aces_hands (hands p) (current_hand_index p)
                           c1 c2 d1 d2) p]> (players g))
         (set_deck (mkDeck (seed (deck g)) rest) g)).
Proof.
  intros Hph Hp Hnd Hh Hcards Hr1 Hr2 Hst Hdeck.
  set (i := current_turn_index g) in *. set (k := current_hand_index p) in *.
  assert (get_current_player g = Some (Seat i)) as Ew.
  { unfold get_current_player. rewrite Hph.
    pose proof (lookup_lt_Some _ _ _ Hp).
    repeat case_decide; try done. }
  unfold split. run. rewrite Ew. run.
  rewrite (deref_run (Seat i) g p Hp). run.
  destruct (decide (user_id p ≠ user_id p)); [done|]. run. rewrite Hnd. run.
  rewrite (get_current_hand_run (Seat i) g p h Hp Hh). run.
  rewrite Hcards, can_split_pair by congruence. cbn [negb]. run.
  destruct (decide (status h ≠ ACTIVE)); [done|]. run.
  unfold index at 1 2. cbn [lookup list_lookup]. run.
  rewrite (bool_decide_eq_true_2 _ Hr1). run.
  rewrite (draw_snoc g (rest ++ [d2]) d1)
    by (rewrite Hdeck, <- app_assoc; done).
  run. cbv zeta. run.
  match goal with
  | |- context [draw ?s] => set (g4 := s)
  end.
  rewrite (draw_snoc g4 rest d2) by done.
  run.
  match goal with
  | |- context [advance_turn ?s1] =>
      match goal with
      | |- _ = (let (_, _) := advance_turn ?s2 in _) =>
          assert (s1 = s2) as ->; [|done]
      end
  end.
  unfold g4, map_hand, map_player, set_players, set_deck. cbn [players deck
    channel_id dealer_id max_players timeout use_emojis dealer phase
    current_turn_index seed]. f_equal.
  apply list_eq. intros j. destruct (decide (i = j)) as [<-|Hne].
  - rewrite !list_lookup_alter_eq, Hp.
    rewrite list_lookup_insert_eq by (by eapply lookup_lt_Some).
    cbn [fmap option_fmap option_map]. f_equal.
    unfold set_hands. cbn [user_id username hands is_dealer current_hand_index].
    f_equal. fold k.
    rewrite (split_hands_shape (hands p) k _ _ (set_status SPLIT_ACES)
               (append_card d2) (set_status SPLIT_ACES))
      by (by eapply lookup_lt_Some).
    reflexivity.
  - rewrite !list_lookup_alter_ne by done.
    by rewrite list_lookup_insert_ne.
Qed.

(** C1 (as amended). A split of an ACTIVE pair of Aces, with two cards left
    in the deck, returns [True] and leaves two hands in place of the pair,
    each holding its Ace and the one card dealt onto it (two cards) and both
    marked SPLIT_ACES; the turn has moved past the seat; no later call of any
    method changes that seat's hands again, and every action its player
    asks next is rejected without any change. *)
Theorem split_aces_auto_stand (g : BlackjackGame) (p : Player) (h : PlayerHand)
    (c1 c2 d1 d2 : Card) (rest : list Card) :
  phase g = PLAYING →
  players g !! current_turn_index g = Some p →
  is_dealer p = false →
  hands p !! current_hand_index p = Some h →
  cards h = [c1; c2] → rank c1 = RA → rank c2 = RA →
  status h = ACTIVE →
  (∀ j h', hands p !! j = Some h' → j ≠ current_hand_index p →
           status h' ≠ ACTIVE) →
  deck_cards (deck g) = rest ++ [d2; d1] →
  hands (dealer g) ≠ [] →
  ∃ g' p',
    split (user_id p) g = (Ok true, g')
    ∧ deck_cards (deck g') = rest
    ∧ players g' !! current_turn_index g = Some p'
    ∧ hands p'
      = take (current_hand_index p) (hands p)
        ++ mkHand [c1; d1] SPLIT_ACES true true
        :: mkHand [c2; d2] SPLIT_ACES true true
        :: drop (S (current_hand_index p)) (hands p)
    ∧ (current_turn_index g < current_turn_index g')%nat
    ∧ get_current_player g' ≠ Some (Seat (current_turn_index g))
    ∧ (∀ cs, players (after_calls cs g') !! current_turn_index g = Some p')
    ∧ ((∀ j q, players g !! j = Some q → j ≠ current_turn_index g →
               user_id q ≠ user_id p) →
       user_id (dealer g) ≠ user_id p →
       ∀ a, act a (user_id p) g' = (Ok (invalid_move a), g')).
Proof.
  intros Hph Hp Hnd Hh Hcards Hr1 Hr2 Hst Hother Hdeck Hdealer.
  set (i := current_turn_index g) in *.
  set (k := current_hand_index p) in *.
  set (p' := set_hands (split_aces_hands (hands p) k c1 c2 d1 d2) p).
  set (g7 := set_players (<[i := p']> (players g))
               (set_deck (mkDeck (seed (deck g)) rest) g)).
  pose proof (lookup_lt_Some _ _ _ Hp) as Hi.
  assert (players g7 !! i = Some p') as Hp7.
  { unfold g7. simpl. by apply list_lookup_insert_eq. }
  assert (all_hands_finished p' = true) as Hfin.
  { unfold all_hands_finished, p'. simpl.
    by apply split_aces_hands_finished. }
  assert (check_all_players_busted_or_surrendered g7 = false) as Hchk.
  { apply (check_all_competitive g7 i p'
             (mkHand [c1; d1] SPLIT_ACES true true) Hp7).
    - unfold p', split_aces_hands. simpl.
      rewrite elem_of_app, elem_of_cons. auto.
    - simpl. rewrite !elem_of_cons. tauto. }
  pose proof (advance_turn_finished_seat g7 p' Hph Hp7 Hfin Hnd Hchk) as Hadv.
  assert (i < next_seat g7)%nat as Hnext.
  { unfold next_seat. change (current_turn_index g7) with i.
    pose proof (skip_finished_ge (drop (i + 1) (players g7)) (i + 1)). lia. }
  (* the object [_advance_turn] leaves *)
  assert (∃ g',
    advance_turn g7 = (Ok tt, g')
    ∧ players g' = players g7 ∧ deck g' = deck g7
    ∧ current_turn_index g' = next_seat g7
    ∧ user_id (dealer g') = user_id (dealer g)
    ∧ phase g' ≠ LOBBY) as (g' & Hrun & Hpl & Hdk & Hidx & Hdid & Hph').
  { rewrite Hadv.
    destruct (decide (length (players g7) ≤ next_seat g7)%nat);
      [|eexists; repeat split; try done; simpl; by rewrite Hph].
    set (g8 := set_phase DEALER_TURN _).
    destruct (hands (dealer g)) as [|h0 hs] eqn:Eh0; [done|].
    pose proof (check_dealer_auto_stand_run g8 h0 eq_refl) as Hc.
    rewrite bind_run, Hc by (unfold dealer_hand; simpl; by rewrite Eh0).
    destruct (dealer_must_hit (cards h0)); run;
      eexists; repeat split; try done. }
  exists g', p'.
  assert (players g' !! i = Some p') as Hp' by (by rewrite Hpl).
  split.
  { rewrite (split_aces_run g p h c1 c2 d1 d2 rest) by done.
    fold i k p' g7. rewrite bind_run, Hrun. done. }
  split; [by rewrite Hdk|].
  split; [done|].
  split; [done|].
  split; [lia|].
  split.
  { unfold get_current_player.
    repeat case_decide; try done; intros [= E]; lia. }
  split.
  { intros cs. by apply finished_seat_after_calls. }
  intros Hids Hdid' a.
  destruct (get_current_player g') as [w|] eqn:Ew;
    [|by apply act_nobody_to_play].
  destruct (get_current_player_at g' w Ew) as [q Hq].
  apply (act_not_your_turn a _ g' w q Ew Hq).
  destruct w as [j|]; simpl in Hq.
  - assert (j = current_turn_index g') as ->.
    { unfold get_current_player in Ew. repeat case_decide; congruence. }
    rewrite Hpl in Hq. unfold g7 in Hq. simpl in Hq.
    rewrite list_lookup_insert_ne in Hq by lia.
    apply (Hids _ _ Hq). lia.
  - simplify_eq. by rewrite Hdid.
Qed.

(** C1 as stated fails: after the split of [A♠, A♥] each of the two hands
    holds two cards, its Ace and the card dealt onto it, not one. *)
Lemma split_aces_hands_hold_two_cards :
  ¬ (∀ g' p' h',
       split 7 aces_game = (Ok true, g') →
       players g' !! 0%nat = Some p' →
       h' ∈ hands p' →
       length (cards h') = 1%nat).
Proof.
  intros H.
  specialize (H (split 7 aces_game).2
                (mkPlayer 7 "ann"
                   [mkHand [mkCard Spades RA; mkCard Spades R4] SPLIT_ACES true true;
                    mkHand [mkCard Hearts RA; mkCard Hearts RK] SPLIT_ACES true true]
                   false 0)
                (mkHand [mkCard Spades RA; mkCard Spades R4] SPLIT_ACES true true)).
  assert (2 = 1)%nat as E; [|discriminate E].
  apply H.
  - vm_compute. reflexivity.
  - vm_compute. reflexivity.
  - apply list_elem_of_here.
Qed.

Lemma split_aces_auto_stand_witness :
  ∃ g' p',
    split 7 aces_game = (Ok true, g')
    ∧ deck_cards (deck g') = [mkCard Clubs R5]
    ∧ players g' !! 0%nat = Some p'
    ∧ hands p'
      = [mkHand [mkCard Spades RA; mkCard Spades R4] SPLIT_ACES true true;
         mkHand [mkCard Hearts RA; mkCard Hearts RK] SPLIT_ACES true true]
    ∧ (0 < current_turn_index g')%nat
    ∧ get_current_player g' ≠ Some (Seat 0)
    ∧ (∀ cs, players (after_calls cs g') !! 0%nat = Some p')
    ∧ ((∀ j q, players aces_game !! j = Some q → j ≠ 0%nat → user_id q ≠ 7) →
       100 ≠ 7 →
       ∀ a, act a 7 g' = (Ok (invalid_move a), g')).
Proof.
  apply (split_aces_auto_stand aces_game
           (mkPlayer 7 "ann"
              [mkHand [mkCard Spades RA; mkCard Hearts RA] ACTIVE false false]
              false 0)
           (mkHand [mkCard Spades RA; mkCard Hearts RA] ACTIVE false false)
           (mkCard Spades RA) (mkCard Hearts RA)
           (mkCard Spades R4) (mkCard Hearts RK) [mkCard Clubs R5]);
    try reflexivity.
  - intros [|j] h' Hj Hne; [done|]. simpl in Hj. discriminate Hj.
  - simpl. discriminate.
Defined.




(** ** The theorems at concrete games *)

Lemma invalid_move_no_change_witness :
  act Hit 7 soft17_game = (Ok (RCard None), soft17_game)
  ∧ act Surrender 7 busted_game = (Ok (RBool false), busted_game).
Proof.
  split.
  - apply (invalid_move_no_change Hit 7 soft17_game); [discriminate|].
    intros w p Hw Hp. left.
    vm_compute in Hw. injection Hw as <-.
    simpl in Hp. injection Hp as <-. simpl. discriminate.
  - apply (invalid_move_no_change Surrender 7 busted_game); [discriminate|].
    intros w p Hw Hp. right.
    vm_compute in Hw. injection Hw as <-.
    simpl in Hp. injection Hp as <-. simpl.
    eexists. split; [reflexivity|]. simpl. discriminate.
Defined.


Lemma lobby_invariant_witness :
  0 ≤ 3
  ∧ Z.of_nat (length (players (after_call (CAddPlayer 7 "ann") fresh_game)))
    ≤ max_players (after_call (CAddPlayer 7 "ann") fresh_game)
  ∧ NoDup (seated_ids (after_call (CAddPlayer 7 "ann") fresh_game))
  ∧ add_player 7 "bob" (after_call (CAddPlayer 7 "ann") fresh_game)
    = (Ok false, after_call (CAddPlayer 7 "ann") fresh_game).
Proof.
  destruct (lobby_invariant 1 100 "house" 3 60
              (mkDeck 7 [mkCard Clubs R5; mkCard Hearts RK; mkCard Spades R4])
              (after_call (CAddPlayer 7 "ann") fresh_game) ltac:(lia)
              (reachable_call _ _ _ (reachable_init _)))
    as ((H1 & H2 & H3) & H4).
  split; [lia|]. split; [exact H1|]. split; [exact H2|].
  apply H4. right. right. left. apply list_elem_of_here.
Defined.

(** ** The circuit breaker *)

Section circuit_breaker.
Import CircuitBreaker.
Context {W R E : Type} (clock : W → Z) (expected : E → bool).

Local Abbreviation call := (CircuitBreaker.call (R := R) clock expected).
Local Abbreviation calls := (CircuitBreaker.calls (R := R) clock expected).

Lemma call_thresholds (b : CircuitBreaker) func (w : W) :
  let b' := (call b func w).1.2 in
  failure_threshold b' = failure_threshold b
  ∧ success_threshold b' = success_threshold b
  ∧ recovery_timeout b' = recovery_timeout b.
Proof.
  unfold CircuitBreaker.call, admission, on_success, on_failure.
  destruct (decide (state b = OPEN));
    [destruct (should_attempt_reset b (clock w))|]; [|done|];
    (destruct (func w) as [[x|ex] w1]; [|destruct (expected ex)]);
    cbn; try done; repeat (case_match; cbn; try done).
Qed.

(** A call that ends in a matched failure was admitted and ran
    [_on_failure]; one that ends in a result ran [_on_success]. *)
Lemma call_matched_failure (b : CircuitBreaker) func (w : W) r b' w' :
  state b ≠ OPEN →
  call b func w = (r, b', w') → matched_failure expected r →
  b' = on_failure b (clock w').
Proof.
  intros Hst Hcall (e & -> & He). revert Hcall.
  unfold CircuitBreaker.call, admission.
  destruct (decide (state b = OPEN)); [done|].
  destruct (func w) as [[x|e'] w1]; [congruence|].
  destruct (expected e') eqn:He'; intros [= <- <- <-]; [done|congruence].
Qed.

Lemma call_success (b : CircuitBreaker) func (w : W) r b' w' :
  state b ≠ OPEN →
  call b func w = (r, b', w') → success r →
  b' = on_success b.
Proof.
  intros Hst Hcall (x & ->). revert Hcall.
  unfold CircuitBreaker.call, admission.
  destruct (decide (state b = OPEN)); [done|].
  destruct (func w) as [[x'|e'] w1]; [congruence|].
  destruct (expected e'); congruence.
Qed.

Lemma failures_while_closed (funcs : list (W → Outcome R E * W)) :
  ∀ (b : CircuitBreaker) (w : W) rs b' w',
    state b = CLOSED → 0 ≤ failure_count b →
    failure_count b + Z.of_nat (length funcs) ≤ failure_threshold b →
    calls b funcs w = (rs, b', w') →
    Forall (matched_failure expected) rs →
    failure_threshold b' = failure_threshold b
    ∧ failure_count b' = failure_count b + Z.of_nat (length funcs)
    ∧ state b' = (if decide (funcs ≠ []
                             ∧ failure_count b' = failure_threshold b)
                  then OPEN else CLOSED).
Proof.
  induction funcs as [|func rest IH]; intros b w rs b' w' Hst Hc Hle Hrun Hall.
  - simpl in Hrun. injection Hrun as <- <- <-.
    rewrite decide_False by tauto. simpl. split; [done|]. split; [lia|done].
  - cbn [CircuitBreaker.calls] in Hrun.
    destruct (call b func w) as [[r b1] w1] eqn:Hcall.
    destruct (calls b1 rest w1) as [[rs' b2] w2] eqn:Hrest.
    injection Hrun as <- <- <-.
    apply Forall_cons in Hall as [Hr Hrs].
    assert (b1 = on_failure b (clock w1)) as Hb1.
    { eapply call_matched_failure; [|done|done]. congruence. }
    cbn [length] in *.
    assert (failure_threshold b1 = failure_threshold b
            ∧ failure_count b1 = failure_count b + 1) as [Ht1 Hc1].
    { rewrite Hb1. unfold on_failure. simpl.
      repeat (case_match; simpl; try done). }
    destruct rest as [|func2 rest].
    + simpl in Hrest. injection Hrest as <- <- <-.
      split; [done|]. split; [simpl; lia|].
      rewrite Hb1. unfold on_failure. simpl. rewrite Hst.
      destruct (decide (CLOSED = HALF_OPEN)); [done|].
      rewrite Hb1 in Hc1. unfold on_failure in Hc1. simpl in Hc1.
      destruct (failure_threshold b <=? failure_count b + 1) eqn:Ele; simpl.
      * apply Z.leb_le in Ele. rewrite decide_True; [done|]. split; [done|].
        simpl in Hle. lia.
      * apply Z.leb_gt in Ele. rewrite decide_False; [done|]. lia.
    + assert (state b1 = CLOSED) as Hst1.
      { rewrite Hb1. unfold on_failure. simpl. rewrite Hst.
        destruct (decide (CLOSED = HALF_OPEN)); [done|].
        rewrite (proj2 (Z.leb_gt _ _)); [done|]. simpl in Hle. lia. }
      specialize (IH b1 w1 rs' b2 w2 Hst1 ltac:(lia) ltac:(simpl in *; lia)
                    Hrest Hrs) as (H1 & H2 & H3).
      split; [congruence|]. split; [simpl in *; lia|].
      rewrite H3, Ht1.
      repeat case_decide; try done; exfalso; intuition congruence.
Qed.

Lemma successes_while_half_open (funcs : list (W → Outcome R E * W)) :
  ∀ (b : CircuitBreaker) (w : W) rs b' w',
    state b = HALF_OPEN → 0 ≤ success_count b →
    success_count b + Z.of_nat (length funcs) ≤ success_threshold b →
    calls b funcs w = (rs, b', w') →
    Forall success rs →
    success_threshold b' = success_threshold b
    ∧ state b' = (if decide (funcs ≠ []
                             ∧ success_count b + Z.of_nat (length funcs)
                               = success_threshold b)
                  then CLOSED else HALF_OPEN)
    ∧ (state b' = HALF_OPEN →
       success_count b' = success_count b + Z.of_nat (length funcs))
    ∧ (funcs ≠ [] → failure_count b' = 0).
Proof.
  induction funcs as [|func rest IH]; intros b w rs b' w' Hst Hc Hle Hrun Hall.
  - simpl in Hrun. injection Hrun as <- <- <-.
    rewrite decide_False by tauto. simpl.
    split; [done|]. split; [done|]. split; [lia|done].
  - cbn [CircuitBreaker.calls] in Hrun.
    destruct (call b func w) as [[r b1] w1] eqn:Hcall.
    destruct (calls b1 rest w1) as [[rs' b2] w2] eqn:Hrest.
    injection Hrun as <- <- <-.
    apply Forall_cons in Hall as [Hr Hrs].
    assert (b1 = on_success b) as Hb1.
    { eapply call_success; [|done|done]. congruence. }
    cbn [length] in *.
    assert (success_threshold b1 = success_threshold b) as Ht1.
    { rewrite Hb1. unfold on_success. simpl.
      repeat (case_match; simpl; try done). }
    destruct rest as [|func2 rest].
    + simpl in Hrest. injection Hrest as <- <- <-.
      split; [done|].
      rewrite Hb1. unfold on_success. simpl. rewrite Hst.
      destruct (decide (HALF_OPEN = HALF_OPEN)); [|done]. simpl.
      destruct (success_threshold b <=? success_count b + 1) eqn:Ele; simpl.
      * apply Z.leb_le in Ele. rewrite decide_True by (split; [done|lia]).
        split; [done|]. split; [done|done].
      * apply Z.leb_gt in Ele. rewrite decide_False by lia.
        rewrite Hst. split; [done|]. split; [lia|done].
    + assert (state b1 = HALF_OPEN ∧ success_count b1 = success_count b + 1)
        as [Hst1 Hc1].
      { rewrite Hb1. unfold on_success. simpl. rewrite Hst.
        destruct (decide (HALF_OPEN = HALF_OPEN)); [|done]. simpl.
        rewrite (proj2 (Z.leb_gt _ _)) by (simpl in Hle; lia).
        simpl. done. }
      specialize (IH b1 w1 rs' b2 w2 Hst1 ltac:(lia) ltac:(simpl in *; lia)
                    Hrest Hrs) as (H1 & H2 & H3 & H4).
      split; [congruence|]. split.
      { rewrite H2, Ht1, Hc1.
        repeat case_decide; try done; exfalso; simpl in *;
          intuition (try congruence; lia). }
      split; [intros Hh; rewrite (H3 Hh), Hc1; simpl; lia|].
      intros _. by apply H4.
Qed.

(** C3. For calls taken one after the other on a breaker with thresholds of
    at least 1: from CLOSED with no failure counted, matched failures in a
    row leave the circuit CLOSED while they are fewer than
    [failure_threshold] and OPEN when they are exactly that many; while OPEN
    and [recovery_timeout] has not elapsed since the last failure a call is
    rejected with CircuitBreakerError, the operation not invoked (the world
    and the breaker are as before); once the timeout has elapsed the call is
    admitted as a call on the breaker set to HALF_OPEN, and the operation
    runs; from there successes in a row leave it HALF_OPEN while fewer than
    [success_threshold] and CLOSED when exactly that many; and one matched
    failure in HALF_OPEN reopens it at once. *)
Theorem circuit_breaker_transitions (b : CircuitBreaker) :
  1 ≤ failure_threshold b →
  1 ≤ success_threshold b →
  (∀ funcs (w : W) rs b' w',
     state b = CLOSED → failure_count b = 0 →
     calls b funcs w = (rs, b', w') →
     Forall (matched_failure expected) rs →
     (Z.of_nat (length funcs) < failure_threshold b → state b' = CLOSED)
     ∧ (Z.of_nat (length funcs) = failure_threshold b → state b' = OPEN))
  ∧ (∀ func (w : W) t,
       state b = OPEN → last_failure_time b = Some t →
       clock w - t < recovery_timeout b →
       call b func w = (CircuitBreakerError, b, w))
  ∧ (∀ func (w : W) t,
       state b = OPEN → last_failure_time b = Some t →
       recovery_timeout b ≤ clock w - t →
       call b func w
       = call (set_success_count 0 (set_state HALF_OPEN b)) func w
       ∧ (call b func w).2 = (func w).2
       ∧ (call b func w).1.1 ≠ CircuitBreakerError)
  ∧ (∀ funcs (w : W) rs b' w',
       state b = HALF_OPEN → success_count b = 0 →
       calls b funcs w = (rs, b', w') →
       Forall success rs →
       (Z.of_nat (length funcs) < success_threshold b → state b' = HALF_OPEN)
       ∧ (Z.of_nat (length funcs) = success_threshold b →
          state b' = CLOSED ∧ failure_count b' = 0))
  ∧ (∀ func (w : W) e w',
       state b = HALF_OPEN → func w = (Raises e, w') → expected e = true →
       ∃ b', call b func w = (Raised e, b', w')
             ∧ state b' = OPEN
             ∧ last_failure_time b' = Some (clock w')).
Proof.
  intros Hft Hst.
  split; [|split; [|split; [|split]]].
  - intros funcs w rs b' w' Hs Hc Hrun Hall. split; intros Hn.
    + destruct (failures_while_closed funcs b w rs b' w' Hs ltac:(lia)
                  ltac:(lia) Hrun Hall) as (_ & Hc' & ->).
      rewrite decide_False; [done|]. lia.
    + destruct (failures_while_closed funcs b w rs b' w' Hs ltac:(lia)
                  ltac:(lia) Hrun Hall) as (_ & Hc' & ->).
      rewrite decide_True; [done|]. split; [|lia].
      intros ->. simpl in Hn. lia.
  - intros func w t Hs Ht Hlt.
    unfold CircuitBreaker.call, admission, should_attempt_reset.
    rewrite Ht, decide_True by done.
    rewrite (proj2 (Z.leb_gt _ _)) by lia. done.
  - intros func w t Hs Ht Hge.
    assert (call b func w
            = call (set_success_count 0 (set_state HALF_OPEN b)) func w) as Heq.
    { unfold CircuitBreaker.call, admission, should_attempt_reset.
      rewrite Ht, decide_True by done.
      rewrite (proj2 (Z.leb_le _ _)) by lia. simpl. done. }
    split; [done|]. rewrite Heq.
    unfold CircuitBreaker.call, admission. simpl.
    destruct (func w) as [[x|e] w1]; [done|]. by destruct (expected e).
  - intros funcs w rs b' w' Hs Hc Hrun Hall. split; intros Hn.
    + destruct (successes_while_half_open funcs b w rs b' w' Hs ltac:(lia)
                  ltac:(lia) Hrun Hall) as (_ & -> & _).
      rewrite decide_False; [done|]. lia.
    + destruct (successes_while_half_open funcs b w rs b' w' Hs ltac:(lia)
                  ltac:(lia) Hrun Hall) as (_ & -> & _ & Hf).
      assert (funcs ≠ []) as Hne by (intros ->; simpl in Hn; lia).
      rewrite decide_True by (split; [done|lia]). split; [done|by apply Hf].
  - intros func w e w' Hs Hf He.
    unfold CircuitBreaker.call, admission.
    rewrite decide_False by congruence. rewrite Hf, He.
    eexists. split; [done|].
    unfold on_failure. simpl. rewrite Hs.
    rewrite decide_True by done. done.
Qed.
End circuit_breaker.

Lemma circuit_breaker_transitions_witness :
  1 ≤ 5 ∧ 1 ≤ 2
  ∧ ∃ b',
      CircuitBreaker.call (R := unit) id id
        (CircuitBreaker.mkBreaker 5 60 2 CircuitBreaker.HALF_OPEN 0 0 None)
        (λ w, (CircuitBreaker.Raises true, w + 5)) 0
      = (CircuitBreaker.Raised true, b', 5)
      ∧ CircuitBreaker.state b' = CircuitBreaker.OPEN
      ∧ CircuitBreaker.last_failure_time b' = Some 5.
Proof.
  split; [lia|]. split; [lia|].
  exact (proj2 (proj2 (proj2 (proj2
    (circuit_breaker_transitions (W := Z) (R := unit) (E := bool) id id
       (CircuitBreaker.mkBreaker 5 60 2 CircuitBreaker.HALF_OPEN 0 0 None)
       ltac:(simpl; lia) ltac:(simpl; lia)))))
    (λ w, (CircuitBreaker.Raises true, w + 5)) 0 true 5
    eq_refl eq_refl eq_refl).
Defined.

(** ** The cache store *)

Section cache_store.
Import CacheStore.

#[local] Instance older_total : Total older.
Proof. intros a b. unfold older. lia. Qed.

#[local] Instance older_trans : Transitive older.
Proof. intros a b c. unfold older. lia. Qed.





Lemma filter_none {A} (P : A → Prop) `{∀ x, Decision (P x)} (l : list A) :
  (∀ x, x ∈ l → ¬ P x) → filter P l = [].
Proof.
  induction l as [|a l IH]; intros Hall; [done|].
  rewrite filter_cons, decide_False by (apply Hall, list_elem_of_here).
  apply IH. intros x Hx. apply Hall. by apply list_elem_of_further.
Qed.

Lemma filter_all {A} (P : A → Prop) `{∀ x, Decision (P x)} (l : list A) :
  (∀ x, x ∈ l → P x) → filter P l = l.
Proof.
  induction l as [|a l IH]; intros Hall; [done|].
  rewrite filter_cons, decide_True by (apply Hall, list_elem_of_here).
  f_equal. apply IH. intros x Hx. apply Hall. by apply list_elem_of_further.
Qed.


End cache_store.


(** ** The deck and its seed *)

Lemma draws_take (n : nat) (d : Deck) :
  (n ≤ length (deck_cards d))%nat →
  draws n d = Some <$> take n (reverse (deck_cards d)).
Proof.
  revert d. induction n as [|n IH]; intros d Hn; [done|].
  destruct d as [sd cs].
  destruct (rev cs) as [|c r] eqn:E.
  - apply (f_equal (@length _)) in E. rewrite length_rev in E.
    simpl in *. lia.
  - assert (cs = rev r ++ [c]) as ->.
    { rewrite <- (rev_involutive cs), E. done. }
    cbn [draws]. unfold Deck_draw. cbn [deck_cards seed].
    rewrite pop_snoc. rewrite reverse_snoc. cbn [take fmap list_fmap].
    f_equal. rewrite IH; [done|].
    simpl in *. rewrite length_app in Hn. simpl in Hn. lia.
Qed.

Lemma toy_random_ok : random_ok toy_random.
Proof.
  split.
  - intros a b r Hab. simpl.
    pose proof (Z.mod_pos_bound r (b - a + 1) ltac:(lia)). lia.
  - intros l r. simpl. destruct (Z.odd r); [apply reverse_Permutation|done].
Qed.

Lemma Deck_init_seeded `{Rnd : Random} (s : Z) (r : rng) :
  s ≠ 0 →
  (Deck_init (Some s) r).1
  = mkDeck s (shuffle initialize_decks (random_seed s)).1.
Proof.
  intros Hs. unfold Deck_init. rewrite decide_False by done.
  by destruct (shuffle initialize_decks (random_seed s)).
Qed.

(** C9. [Deck(0)] is [Deck()]: the seed 0 is replaced by a random number in
    1..1000000, so two decks built with seed 0 need not draw alike (there is
    a generator on which they differ); for every seed other than 0 two decks
    built from any two generator states are the same deck, and their 104
    draws, all of which succeed, are the same. *)
Theorem deck_seed_zero_is_random :
  (∀ Rnd : Random, random_ok Rnd →
     (∀ r, Deck_init (Some 0) r = Deck_init None r)
     ∧ (∀ r, seed (Deck_init (Some 0) r).1 = (randint 1 1000000 r).1
             ∧ 1 ≤ seed (Deck_init (Some 0) r).1 ≤ 1000000)
     ∧ (∀ s r1 r2, s ≠ 0 →
          seed (Deck_init (Some s) r1).1 = s
          ∧ (Deck_init (Some s) r1).1 = (Deck_init (Some s) r2).1
          ∧ draws 104 (Deck_init (Some s) r1).1
            = draws 104 (Deck_init (Some s) r2).1
          ∧ Forall is_Some (draws 104 (Deck_init (Some s) r1).1)))
  ∧ (∃ Rnd : Random, random_ok Rnd
       ∧ ∃ r1 r2, draws 104 (Deck_init (Some 0) r1).1
                  ≠ draws 104 (Deck_init (Some 0) r2).1).
Proof.
  split.
  - intros Rnd [Hrange Hperm]. split; [done|]. split.
    + intros r. unfold Deck_init. rewrite decide_True by done.
      specialize (Hrange 1 1000000 r ltac:(lia)).
      destruct (randint 1 1000000 r) as [n r'].
      destruct (shuffle initialize_decks (random_seed n)). simpl in *. done.
    + intros s r1 r2 Hs. rewrite !Deck_init_seeded by done.
      split; [done|]. split; [done|]. split; [done|].
      rewrite draws_take.
      * apply Forall_fmap, Forall_forall. intros c _. by eexists.
      * simpl. rewrite (Permutation_length (Hperm _ _)). done.
  - exists toy_random. split; [apply toy_random_ok|].
    exists 0, 1. intros H. vm_compute in H. discriminate H.
Qed.

Lemma deck_seed_zero_is_random_witness :
  random_ok toy_random
  ∧ 5 ≠ 0
  ∧ draws 104 (Deck_init (Rnd := toy_random) (Some 5) 0).1
    = draws 104 (Deck_init (Rnd := toy_random) (Some 5) 17).1.
Proof.
  split; [apply toy_random_ok|]. split; [discriminate|].
  exact (proj1 (proj2 (proj2
    (proj2 (proj2 (proj1 deck_seed_zero_is_random toy_random toy_random_ok))
       5 0 17 ltac:(discriminate))))).
Defined.

(** ** Request deduplication *)

Section dedup.
Import Dedup.














End dedup.


(* ==================================================================== *)
(** * Further properties of the embedded code *)
(* ==================================================================== *)

(** ** Hand values, continued *)

Lemma count_aces_Permutation (l l' : list Card) :
  l ≡ₚ l' → count_aces l = count_aces l'.
Proof.
  induction 1 as [|c l l' _ IH|c c' l|l l' l'' _ IH1 _ IH2];
    rewrite ?count_aces_cons; lia.
Qed.

Lemma sumZ_Permutation (l l' : list Z) : l ≡ₚ l' → sumZ l = sumZ l'.
Proof.
  induction 1 as [|c l l' _ IH|c c' l|l l' l'' _ IH1 _ IH2];
    rewrite ?sumZ_cons; lia.
Qed.

Lemma existsb_Permutation {A} (f : A → bool) (l l' : list A) :
  l ≡ₚ l' → existsb f l = existsb f l'.
Proof.
  induction 1 as [|c l l' _ IH|c c' l|l l' l'' _ IH1 _ IH2]; simpl;
    [done|by rewrite IH|by destruct (f c), (f c')|congruence].
Qed.

(** X1. The order of the cards does not matter: two hands holding the same
    cards have the same value, and are alike bust, soft and blackjack. *)
Theorem hand_value_order_free (cards cards' : list Card) :
  cards ≡ₚ cards' →
  calculate_hand_value cards = calculate_hand_value cards'
  ∧ is_bust cards = is_bust cards'
  ∧ is_soft_hand cards = is_soft_hand cards'
  ∧ is_blackjack cards = is_blackjack cards'.
Proof.
  intros Hp.
  assert (calculate_hand_value cards = calculate_hand_value cards') as Hv.
  { rewrite !calculate_hand_value_eq, (count_aces_Permutation _ _ Hp).
    unfold high_total.
    by rewrite (sumZ_Permutation _ _ (Permutation_map value Hp)). }
  split; [done|]. split; [|split].
  - unfold is_bust. by rewrite Hv.
  - unfold is_soft_hand.
    rewrite (existsb_Permutation _ _ _ Hp).
    by rewrite (sumZ_Permutation _ _ (Permutation_map low_points Hp)).
  - unfold is_blackjack. by rewrite Hv, (Permutation_length Hp).
Qed.

Lemma hand_value_order_free_witness :
  calculate_hand_value [mkCard Spades RA; mkCard Hearts RK; mkCard Clubs R5]
  = calculate_hand_value [mkCard Hearts RK; mkCard Spades RA; mkCard Clubs R5].
Proof.
  exact (proj1 (hand_value_order_free
                  [mkCard Spades RA; mkCard Hearts RK; mkCard Clubs R5]
                  [mkCard Hearts RK; mkCard Spades RA; mkCard Clubs R5]
                  (perm_swap _ _ _))).
Defined.

Lemma low_points_bounds (c : Card) : 1 ≤ low_points c ≤ 10.
Proof. destruct c as [s []]; vm_compute; split; discriminate. Qed.

Lemma low_total_bounds (cards : list Card) :
  Z.of_nat (length cards) ≤ sumZ (map low_points cards)
  ≤ 10 * Z.of_nat (length cards).
Proof.
  induction cards as [|c cs IH]; [by vm_compute|].
  rewrite map_cons, sumZ_cons. pose proof (low_points_bounds c).
  cbn [length]. lia.
Qed.

Lemma low_total_app (l l' : list Card) :
  sumZ (map low_points (l ++ l'))
  = sumZ (map low_points l) + sumZ (map low_points l').
Proof.
  induction l as [|c l IH]; [by unfold sumZ at 2|].
  cbn [app]. rewrite !map_cons, !sumZ_cons, IH. lia.
Qed.

Lemma count_aces_length (cards : list Card) :
  (count_aces cards ≤ length cards)%nat.
Proof.
  induction cards as [|c cs IH]; [done|].
  rewrite count_aces_cons. cbn [length]. destruct (is_ace c); lia.
Qed.

(** The value in closed form. *)
Lemma hand_value_low_total (cards : list Card) :
  calculate_hand_value cards
  = sumZ (map low_points cards) + (if is_soft_hand cards then 10 else 0).
Proof.
  pose proof (is_soft_hand_spec cards) as Hsoft.
  unfold ace_counted_high in Hsoft.
  rewrite calculate_hand_value_eq, low_total.
  destruct (adjust_aces_spec (count_aces cards) (high_total cards))
    as (k & Hk & Heq & Hle & Hgt).
  rewrite Heq in *. cbn [fst snd] in *.
  destruct (is_soft_hand cards) eqn:Es.
  - assert (0 < count_aces cards - k)%nat as Hrem by (by apply Hsoft).
    assert (is_soft_hand cards = true) as Es' by done.
    unfold is_soft_hand in Es'.
    destruct (existsb is_ace cards); [|done]. cbn [negb] in Es'.
    rewrite low_total in Es'. apply Z.leb_le in Es'.
    unfold BLACKJACK_ACE_HIGH_VALUE, BLACKJACK_ACE_LOW_VALUE, BLACKJACK_VALUE in Es'.
    destruct (decide (S k = count_aces cards)) as [Hlast|Hmore]; [lia|].
    exfalso. specialize (Hle ltac:(lia)).
    pose proof (low_total_bounds cards) as Hb. rewrite low_total in Hb.
    pose proof (count_aces_length cards). nia.
  - assert (¬ (0 < count_aces cards - k)%nat) as Hrem.
    { intros H. apply Hsoft in H. congruence. }
    assert (k = count_aces cards) as -> by lia. lia.
Qed.

(** X2. The value of a hand is the total with every Ace counted as 1, plus
    10 when the hand is soft: at most one Ace is ever counted as 11, and it
    is so exactly when that does not take the hand above 21. *)
Theorem hand_value_closed_form (cards : list Card) :
  calculate_hand_value cards
  = sumZ (map low_points cards) + (if is_soft_hand cards then 10 else 0)
  ∧ (is_soft_hand cards = true
     ↔ (∃ c, c ∈ cards ∧ rank c = RA) ∧ sumZ (map low_points cards) + 10 ≤ 21).
Proof.
  split; [apply hand_value_low_total|].
  unfold is_soft_hand.
  unfold BLACKJACK_ACE_HIGH_VALUE, BLACKJACK_ACE_LOW_VALUE, BLACKJACK_VALUE.
  destruct (existsb is_ace cards) eqn:Ea; cbn [negb].
  - apply existsb_exists in Ea as (c & Hin & Hc).
    apply bool_decide_eq_true in Hc. rewrite Z.leb_le. split.
    + intros H. split; [|lia]. exists c. split; [by apply list_elem_of_In|done].
    + intros [_ H]. lia.
  - split; [done|]. intros [(c & Hin & Hc) _].
    apply not_true_iff_false in Ea. destruct Ea.
    apply existsb_exists. exists c. split; [by apply list_elem_of_In|].
    by apply bool_decide_eq_true.
Qed.

Lemma is_bust_low_total (cards : list Card) :
  is_bust cards = true ↔ 21 < sumZ (map low_points cards).
Proof.
  unfold is_bust, BLACKJACK_VALUE. rewrite Z.ltb_lt, hand_value_low_total.
  destruct (is_soft_hand cards) eqn:Es; [|lia].
  unfold is_soft_hand in Es. destruct (existsb is_ace cards); [|done].
  cbn [negb] in Es. apply Z.leb_le in Es.
  unfold BLACKJACK_ACE_HIGH_VALUE, BLACKJACK_ACE_LOW_VALUE, BLACKJACK_VALUE in Es.
  lia.
Qed.

(** X3. A hand is bust exactly when its cards, every Ace counted as 1, total
    more than 21; so a bust hand stays bust whatever cards are added to it,
    and a bust hand holds three cards at least. *)
Theorem bust_is_permanent (cards more : list Card) :
  is_bust cards = true →
  21 < sumZ (map low_points cards)
  ∧ is_bust (cards ++ more) = true
  ∧ (3 ≤ length cards)%nat.
Proof.
  intros Hb. apply is_bust_low_total in Hb. split; [done|]. split.
  - apply is_bust_low_total. rewrite low_total_app.
    pose proof (low_total_bounds more). lia.
  - pose proof (low_total_bounds cards). lia.
Qed.

Lemma bust_is_permanent_witness :
  is_bust ([mkCard Clubs R10; mkCard Diamonds R9; mkCard Hearts R5]
           ++ [mkCard Spades RA]) = true.
Proof.
  exact (proj1 (proj2 (bust_is_permanent
           [mkCard Clubs R10; mkCard Diamonds R9; mkCard Hearts R5]
           [mkCard Spades RA] eq_refl))).
Defined.

(** X4. One more card never busts a soft hand. *)
Theorem soft_hand_survives_hit (cards : list Card) (c : Card) :
  is_soft_hand cards = true → is_bust (cards ++ [c]) = false.
Proof.
  intros Hs. apply not_true_iff_false. rewrite is_bust_low_total, low_total_app.
  unfold is_soft_hand in Hs. destruct (existsb is_ace cards); [|done].
  cbn [negb] in Hs. apply Z.leb_le in Hs.
  unfold BLACKJACK_ACE_HIGH_VALUE, BLACKJACK_ACE_LOW_VALUE, BLACKJACK_VALUE in Hs.
  pose proof (low_points_bounds c).
  change (map low_points [c]) with [low_points c].
  rewrite sumZ_cons. unfold sumZ at 2. simpl. lia.
Qed.

Lemma soft_hand_survives_hit_witness :
  is_bust ([mkCard Spades RA; mkCard Hearts R6] ++ [mkCard Clubs RK]) = false.
Proof.
  exact (soft_hand_survives_hit [mkCard Spades RA; mkCard Hearts R6]
           (mkCard Clubs RK) eq_refl).
Defined.

(** X5. A blackjack is an Ace with a card worth ten, in either order, and
    nothing else. *)
Theorem is_blackjack_ace_and_ten (cards : list Card) :
  is_blackjack cards = true
  ↔ ∃ c1 c2, cards = [c1; c2]
             ∧ ((rank c1 = RA ∧ value c2 = 10) ∨ (value c1 = 10 ∧ rank c2 = RA)).
Proof.
  split.
  - destruct cards as [|c1 [|c2 [|c3 cs]]]; try done.
    intros H. exists c1, c2. split; [done|].
    destruct c1 as [s1 r1], c2 as [s2 r2].
    destruct r1, r2; vm_compute in H; try discriminate H;
      first [left; split; reflexivity | right; split; reflexivity].
  - intros (c1 & c2 & -> & H).
    destruct c1 as [s1 r1], c2 as [s2 r2]. simpl in H.
    destruct H as [[-> H]|[H ->]];
      [destruct r2|destruct r1]; vm_compute in H; try discriminate H;
      reflexivity.
Qed.

(** ** Results *)

Lemma is_blackjack_value (cards : list Card) :
  is_blackjack cards = true → calculate_hand_value cards = 21.
Proof.
  unfold is_blackjack. destruct (negb _); [done|]. apply Z.eqb_eq.
Qed.

(** X6. [determine_winner] answers "win", "lose" or "push".  Without a
    blackjack a player above 21 loses, also to a dealer above 21.  Between two
    hands of at most 21 the answer from the other side is the opposite one. *)
Theorem determine_winner_sides (pv dv : Z) (pbj dbj : bool) :
  determine_winner pv dv pbj dbj ∈ ["win"; "lose"; "push"]
  ∧ (pbj = false → 21 < pv → determine_winner pv dv pbj dbj = "lose")
  ∧ (pv ≤ 21 → dv ≤ 21 →
     determine_winner dv pv dbj pbj = opposite (determine_winner pv dv pbj dbj)).
Proof.
  unfold determine_winner, BLACKJACK_VALUE. split; [|split].
  - repeat case_match; set_solver.
  - intros -> H. cbn [andb]. destruct dbj; [done|].
    by rewrite (proj2 (Z.ltb_lt _ _) H).
  - intros Hp Hd.
    rewrite (proj2 (Z.ltb_ge 21 pv)), (proj2 (Z.ltb_ge 21 dv)) by lia.
    destruct pbj, dbj; cbn [andb]; try done.
    destruct (dv <? pv) eqn:E1, (pv <? dv) eqn:E2; try done.
    apply Z.ltb_lt in E1, E2. lia.
Qed.

(** X7. On the cards of two hands: a blackjack never loses, and wins unless
    the dealer has one too; a bust hand loses; a push is only called between
    hands of equal value, at most 21; and a hand that wins without a
    blackjack is not bust and faces a bust dealer or a smaller value. *)
Theorem hand_against_fair (player_cards dealer_cards : list Card) :
  let result := hand_against player_cards dealer_cards in
  (is_blackjack player_cards = true →
     result = if is_blackjack dealer_cards then "push" else "win")
  ∧ (is_bust player_cards = true → result = "lose")
  ∧ (result = "push" →
       calculate_hand_value player_cards = calculate_hand_value dealer_cards
       ∧ calculate_hand_value player_cards ≤ 21)
  ∧ (result = "win" → is_blackjack player_cards = false →
       is_bust player_cards = false
       ∧ (is_bust dealer_cards = true
          ∨ calculate_hand_value dealer_cards < calculate_hand_value player_cards)).
Proof.
  cbv zeta. unfold hand_against, determine_winner, is_bust, BLACKJACK_VALUE.
  pose proof (is_blackjack_value player_cards) as Hp.
  pose proof (is_blackjack_value dealer_cards) as Hd.
  destruct (is_blackjack player_cards), (is_blackjack dealer_cards);
    cbn [andb]; try specialize (Hp eq_refl); try specialize (Hd eq_refl).
  - rewrite Hp, Hd. repeat split; try done.
  - rewrite Hp. repeat split; try done.
  - rewrite Hd. repeat split; done.
  - clear Hp Hd.
    destruct (21 <? calculate_hand_value player_cards) eqn:E1;
      [repeat split; done|].
    destruct (21 <? calculate_hand_value dealer_cards) eqn:E2.
    { repeat split; try done. by left. }
    destruct (calculate_hand_value dealer_cards <? _) eqn:E3.
    { repeat split; try done. right. by apply Z.ltb_lt. }
    destruct (calculate_hand_value player_cards <? _) eqn:E4;
      [repeat split; done|].
    apply Z.ltb_ge in E1, E3, E4. repeat split; try done; lia.
Qed.

(** ** The deck, continued *)

Lemma initialize_decks_count (c : Card) :
  count_occ Card_eq_dec initialize_decks c = BLACKJACK_NUM_DECKS_IN_SHOE.
Proof. destruct c as [[] []]; vm_compute; reflexivity. Qed.

(** X8. Whatever the seed and the state of the generator, a new deck holds
    104 cards: each of the 52 cards twice, once per deck of the shoe. *)
Theorem Deck_init_composition `{Rnd : Random} (seed_arg : option Z) (r : rng) :
  random_ok Rnd →
  let d := (Deck_init seed_arg r).1 in
  deck_cards d ≡ₚ initialize_decks
  ∧ cards_remaining d = (52 * BLACKJACK_NUM_DECKS_IN_SHOE)%nat
  ∧ ∀ c, count_occ Card_eq_dec (deck_cards d) c = BLACKJACK_NUM_DECKS_IN_SHOE.
Proof.
  intros [_ Hperm]. cbv zeta.
  assert (deck_cards (Deck_init seed_arg r).1 ≡ₚ initialize_decks) as Hd.
  { unfold Deck_init.
    destruct (match seed_arg with
              | Some s => if decide (s = 0) then randint 1 1000000 r else (s, r)
              | None => randint 1 1000000 r
              end) as [self_seed r'].
    specialize (Hperm initialize_decks (random_seed self_seed)).
    by destruct (shuffle initialize_decks (random_seed self_seed)). }
  split; [done|]. split.
  - unfold cards_remaining. by rewrite (Permutation_length Hd).
  - intros c. rewrite <- (initialize_decks_count c).
    by apply Permutation_count_occ.
Qed.

Lemma Deck_init_composition_witness :
  cards_remaining (Deck_init (Rnd := toy_random) (Some 0) 41).1 = 104%nat.
Proof.
  exact (proj1 (proj2 (Deck_init_composition (Rnd := toy_random) (Some 0) 41
                         toy_random_ok))).
Defined.

Lemma pop_None {A} (l : list A) : pop l = None ↔ l = [].
Proof.
  unfold pop. destruct l as [|x l] using rev_ind; [done|].
  rewrite rev_unit. split; [done|]. by destruct l.
Qed.

Lemma draws_reverse (cs : list Card) (s : Z) (n : nat) :
  draws n (mkDeck s cs)
  = (Some <$> take n (reverse cs)) ++ replicate (n - length cs) None.
Proof.
  revert n. induction cs as [|c cs IH] using rev_ind; intros n.
  - rewrite reverse_nil, take_nil. simpl. rewrite Nat.sub_0_r.
    induction n as [|n IHn]; [done|]. simpl. by rewrite IHn.
  - destruct n as [|n]; [done|].
    cbn [draws]. unfold Deck_draw. cbn [deck_cards seed].
    rewrite pop_snoc, IH, reverse_snoc, length_app. cbn [take fmap list_fmap].
    replace (S n - (length cs + length [c]))%nat with (n - length cs)%nat
      by (simpl; lia).
    done.
Qed.

(** X9. [draw] takes the card at the end of the list and leaves the rest;
    on an empty deck, and only there, it raises and leaves the deck as it
    is.  So a deck of [m] cards serves exactly [m] draws, its cards from the
    last to the first, and every draw after them raises. *)
Theorem Deck_draw_exhausts (d : Deck) :
  (Deck_draw d = None ↔ cards_remaining d = 0%nat)
  ∧ (∀ c d', Deck_draw d = Some (c, d') →
       deck_cards d = deck_cards d' ++ [c]
       ∧ seed d' = seed d
       ∧ cards_remaining d = S (cards_remaining d'))
  ∧ (∀ n, draws n d
          = (Some <$> take n (reverse (deck_cards d)))
            ++ replicate (n - cards_remaining d) None).
Proof.
  destruct d as [s cs]. unfold cards_remaining. cbn [deck_cards seed].
  split; [|split].
  - unfold Deck_draw. cbn [deck_cards]. rewrite length_zero_iff_nil.
    rewrite <- pop_None. by destruct (pop cs) as [[c rest]|].
  - intros c d'. unfold Deck_draw. cbn [deck_cards seed].
    destruct cs as [|x cs _] using rev_ind; [done|].
    rewrite pop_snoc. intros [= <- <-]. cbn [deck_cards seed].
    rewrite length_app. simpl. split; [done|]. split; [done|lia].
  - apply draws_reverse.
Qed.

(** ** The circuit breaker, continued *)

Section circuit_breaker_life.
Import CircuitBreaker.
Context {W R E : Type} (clock : W → Z) (expected : E → bool).

Local Abbreviation call := (CircuitBreaker.call (R := R) clock expected).
Local Abbreviation calls := (CircuitBreaker.calls (R := R) clock expected).
Local Abbreviation do := (do (R := R) clock expected).

Local Ltac settled_cases :=
  unfold settled in *; simpl in *;
  repeat match goal with
         | H : ?x = ?x → _ |- _ => specialize (H eq_refl)
         | H : ?x ≠ ?y → _ |- _ => specialize (H ltac:(discriminate))
         end;
  repeat split; intros; simplify_eq/=;
  try lia; try done; try (by eexists).

Lemma settled_on_success (b : CircuitBreaker) :
  1 ≤ failure_threshold b → state b ≠ OPEN → settled b → settled (on_success b).
Proof.
  intros Hft Hst (H1 & H2 & H3 & H4 & H5). unfold on_success.
  destruct b as [ft rt st [] fc sc lft]; simpl in *; [settled_cases|done|].
  specialize (H3 eq_refl).
  destruct (st <=? sc + 1) eqn:E1; [|apply Z.leb_gt in E1]; settled_cases.
Qed.

Lemma settled_on_failure (b : CircuitBreaker) (now : Z) :
  state b ≠ OPEN → settled b → settled (on_failure b now).
Proof.
  intros Hst (H1 & H2 & H3 & H4 & H5). unfold on_failure.
  destruct b as [ft rt st [] fc sc lft]; simpl in *; [|done|settled_cases].
  destruct (ft <=? fc + 1) eqn:E1; [|apply Z.leb_gt in E1]; settled_cases.
Qed.

Lemma settled_admission (b b1 : CircuitBreaker) (w : W) :
  1 ≤ success_threshold b → settled b →
  admission clock b w = Some b1 →
  settled b1 ∧ state b1 ≠ OPEN
  ∧ failure_threshold b1 = failure_threshold b.
Proof.
  intros Hst (H1 & H2 & H3 & H4 & H5). unfold admission.
  destruct (decide (state b = OPEN)) as [Ho|Hno].
  - destruct (should_attempt_reset b (clock w)); [|done].
    intros [= <-]. simpl. split; [|done].
    unfold settled. simpl. split; [done|]. repeat split; try done. lia.
  - intros [= <-]. done.
Qed.

Lemma settled_call (b : CircuitBreaker) func (w : W) :
  1 ≤ failure_threshold b → 1 ≤ success_threshold b →
  settled b → settled (call b func w).1.2.
Proof.
  intros Hft Hst Hb. unfold CircuitBreaker.call.
  destruct (admission clock b w) as [b1|] eqn:Ea; [|done].
  destruct (settled_admission b b1 w Hst Hb Ea) as (Hb1 & Hs1 & Hft1).
  destruct (func w) as [[x|e] w1]; simpl.
  - apply settled_on_success; [lia|done|done].
  - destruct (expected e); simpl; [by apply settled_on_failure|done].
Qed.

Lemma do_thresholds (bw : CircuitBreaker * W) (op : Op) :
  failure_threshold (do bw op).1 = failure_threshold bw.1
  ∧ success_threshold (do bw op).1 = success_threshold bw.1.
Proof.
  destruct op as [func|]; simpl; [|done].
  pose proof (call_thresholds clock expected bw.1 func bw.2) as (H1 & H2 & _).
  destruct (call bw.1 func bw.2) as [[r b'] w']. simpl in *. done.
Qed.

(** X10. Through every sequence of calls and manual resets on a breaker
    created with thresholds of at least 1, the counters agree with the
    state: CLOSED goes with fewer failures counted than [failure_threshold],
    HALF_OPEN with fewer successes than [success_threshold], no success is
    counted outside HALF_OPEN, and OPEN with the time of a failure on record,
    so that the recovery timeout is always measured from a failure. *)
Theorem breaker_stays_settled (failure_thr recovery success_thr : Z)
    (ops : list Op) (w : W) :
  1 ≤ failure_thr → 1 ≤ success_thr →
  let b := (fold_left do ops (new failure_thr recovery success_thr, w)).1 in
  settled b
  ∧ failure_threshold b = failure_thr ∧ success_threshold b = success_thr.
Proof.
  intros Hft Hst. cbv zeta.
  assert (∀ bw, settled bw.1 → 1 ≤ failure_threshold bw.1 →
                1 ≤ success_threshold bw.1 →
                settled (fold_left do ops bw).1
                ∧ failure_threshold (fold_left do ops bw).1 = failure_threshold bw.1
                ∧ success_threshold (fold_left do ops bw).1 = success_threshold bw.1)
    as Hall.
  { induction ops as [|op ops IH]; intros bw Hb H1 H2; [done|].
    cbn [fold_left].
    destruct (do_thresholds bw op) as [E1 E2].
    destruct (IH (do bw op)) as (IH1 & IH2 & IH3); [|lia|lia|].
    - destruct op as [func|]; simpl.
      + pose proof (settled_call bw.1 func bw.2 H1 H2 Hb) as Hc.
        destruct (call bw.1 func bw.2) as [[r b'] w']. done.
      + unfold settled, reset. simpl. repeat split; try done; lia.
    - split; [done|]. split; congruence. }
  apply (Hall (new failure_thr recovery success_thr, w)); simpl; try done.
  unfold settled. simpl. repeat split; try done; lia.
Qed.
(** X11. Failures open the circuit only in a row: a call that succeeds on a
    CLOSED breaker clears the failures counted so far, however many, and the
    matched failures that follow it are counted from zero; fewer than
    [failure_threshold] of them leave the circuit CLOSED, and exactly that
    many open it. *)
Theorem success_breaks_streak (b : CircuitBreaker) func funcs (w : W)
    r rs b' w' :
  1 ≤ failure_threshold b →
  state b = CLOSED →
  calls b (func :: funcs) w = (r :: rs, b', w') →
  success r → Forall (matched_failure expected) rs →
  (Z.of_nat (length funcs) < failure_threshold b →
     state b' = CLOSED ∧ failure_count b' = Z.of_nat (length funcs))
  ∧ (Z.of_nat (length funcs) = failure_threshold b → state b' = OPEN).
Proof.
  intros Hft Hst Hrun Hr Hrs. cbn [CircuitBreaker.calls] in Hrun.
  destruct (call b func w) as [[r1 b1] w1] eqn:E1.
  destruct (calls b1 funcs w1) as [[rs2 b2] w2] eqn:E2.
  injection Hrun as <- <- <- <-.
  assert (b1 = on_success b) as ->.
  { apply (call_success clock expected b func w r1 b1 w1); [|done|done].
    rewrite Hst. done. }
  assert (state (on_success b) = CLOSED ∧ failure_count (on_success b) = 0
          ∧ failure_threshold (on_success b) = failure_threshold b)
    as (Hs1 & Hc1 & Ht1).
  { unfold on_success. simpl. rewrite Hst. done. }
  split; intros Hn.
  - destruct (failures_while_closed clock expected funcs (on_success b) w1
                rs2 b2 w2 Hs1 ltac:(lia) ltac:(lia) E2 Hrs) as (_ & Hc & ->).
    rewrite decide_False by lia. split; [done|lia].
  - destruct (failures_while_closed clock expected funcs (on_success b) w1
                rs2 b2 w2 Hs1 ltac:(lia) ltac:(lia) E2 Hrs) as (_ & Hc & ->).
    rewrite decide_True; [done|]. split; [|lia].
    intros ->. simpl in Hn. lia.
Qed.

(** X12. An exception that is not one of [expected_exceptions] is raised
    again as it is and counts neither as a failure nor as a success: calls
    that end so leave a breaker that is not OPEN exactly as it was, however
    many they are. *)
Theorem unmatched_exceptions_pass (b : CircuitBreaker) funcs (w : W) :
  state b ≠ OPEN → Forall (unmatched expected) funcs →
  (calls b funcs w).1.2 = b
  ∧ Forall (λ r, ∃ e, r = Raised e ∧ expected e = false) (calls b funcs w).1.1
  ∧ length (calls b funcs w).1.1 = length funcs.
Proof.
  intros Hst Hall. revert w.
  induction Hall as [|func funcs Hf _ IH]; intros w; [done|].
  cbn [CircuitBreaker.calls].
  assert (∃ e w1, call b func w = (Raised e, b, w1) ∧ expected e = false)
    as (e & w1 & -> & He).
  { destruct (Hf w) as (e & w1 & Hfw & He). exists e, w1. split; [|done].
    unfold CircuitBreaker.call, admission.
    rewrite decide_False by done. by rewrite Hfw, He. }
  destruct (IH w1) as (IH1 & IH2 & IH3).
  destruct (calls b funcs w1) as [[rs b2] w2]. simpl in *.
  split; [done|]. split; [|by rewrite IH3].
  apply Forall_cons. split; [by exists e|done].
Qed.
End circuit_breaker_life.

Lemma breaker_stays_settled_witness :
  CircuitBreaker.settled
    (fold_left (CircuitBreaker.do (R := unit) id id)
       [CircuitBreaker.DoCall (λ w, (CircuitBreaker.Raises true, w + 5));
        CircuitBreaker.DoCall (λ w, (CircuitBreaker.Raises true, w + 5));
        CircuitBreaker.DoReset;
        CircuitBreaker.DoCall (λ w, (CircuitBreaker.Returns tt, w + 1))]
       (CircuitBreaker.new 2 60 2, 0)).1.
Proof.
  exact (proj1 (breaker_stays_settled (R := unit) id id 2 60 2
    [CircuitBreaker.DoCall (λ w, (CircuitBreaker.Raises true, w + 5));
     CircuitBreaker.DoCall (λ w, (CircuitBreaker.Raises true, w + 5));
     CircuitBreaker.DoReset;
     CircuitBreaker.DoCall (λ w, (CircuitBreaker.Returns tt, w + 1))]
    0 ltac:(lia) ltac:(lia))).
Defined.

Lemma success_breaks_streak_witness :
  CircuitBreaker.state
    (CircuitBreaker.calls (R := unit) id id
       (CircuitBreaker.mkBreaker 2 60 2 CircuitBreaker.CLOSED 1 0 (Some 3))
       [λ w, (CircuitBreaker.Returns tt, w + 1);
        λ w, (CircuitBreaker.Raises true, w + 5)] 10).1.2
  = CircuitBreaker.CLOSED.
Proof.
  exact (proj1 (proj1 (success_breaks_streak (R := unit) id id
    (CircuitBreaker.mkBreaker 2 60 2 CircuitBreaker.CLOSED 1 0 (Some 3))
    (λ w, (CircuitBreaker.Returns tt, w + 1))
    [λ w, (CircuitBreaker.Raises true, w + 5)] 10
    _ _ _ _ ltac:(simpl; lia) eq_refl eq_refl
    (ex_intro _ tt eq_refl)
    (Forall_cons_2 _ _ _ (ex_intro _ true (conj eq_refl eq_refl))
                   (Forall_nil_2 _)))
    ltac:(simpl; lia))).
Defined.

Lemma unmatched_exceptions_pass_witness :
  (CircuitBreaker.calls (R := unit) id id
     (CircuitBreaker.mkBreaker 2 60 2 CircuitBreaker.HALF_OPEN 0 1 (Some 3))
     [λ w, (CircuitBreaker.Raises false, w + 1);
      λ w, (CircuitBreaker.Raises false, w + 1)] 70).1.2
  = CircuitBreaker.mkBreaker 2 60 2 CircuitBreaker.HALF_OPEN 0 1 (Some 3).
Proof.
  refine (proj1 (unmatched_exceptions_pass (R := unit) id id
    (CircuitBreaker.mkBreaker 2 60 2 CircuitBreaker.HALF_OPEN 0 1 (Some 3))
    [λ w, (CircuitBreaker.Raises false, w + 1);
     λ w, (CircuitBreaker.Raises false, w + 1)] 70
    ltac:(discriminate) _)).
  repeat apply Forall_cons_2; try apply Forall_nil_2;
    intros w; exists false, (w + 1); split; reflexivity.
Defined.

(** ** The cache store, continued *)

Section cache_lookups.
Import CacheStore.

Lemma get_cache_absent (key : string) (max_age now : Z) (t : list CacheEntry) :
  key ∉ keys t → get_cache key max_age now t = (None, t).
Proof.
  induction t as [|r t IH]; [done|].
  change (keys (r :: t)) with (cache_key r :: keys t).
  rewrite not_elem_of_cons. intros [Hne Hnot]. cbn [get_cache].
  rewrite decide_False by done. by rewrite IH.
Qed.






Lemma get_cache_cases (key : string) (max_age now : Z)
    (t : list CacheEntry) :
  NoDup (keys t) →
  let '(res, t') := get_cache key max_age now t in
  NoDup (keys t')
  ∧ (key ∉ keys t → res = None ∧ t' = t)
  ∧ (∀ r, r ∈ t → cache_key r = key →
       if now - created_at r <? max_age
       then (res = Some (data r)
             ∧ keys t' = keys t
             ∧ mkEntry key (data r) (created_at r) now (access_count r + 1) ∈ t')
       else (res = None ∧ (key ∉ keys t')
             ∧ t' = filter (λ x, cache_key x ≠ key) t)).
Proof.
  induction t as [|r t IH]; intros Hnd.
  - simpl. split; [done|]. split; [done|]. intros r Hr.
    by apply elem_of_nil in Hr.
  - change (keys (r :: t)) with (cache_key r :: keys t) in *.
    apply NoDup_cons in Hnd as [Hr Hnd]. specialize (IH Hnd).
    cbn [get_cache].
    destruct (decide (cache_key r = key)) as [Heq|Hne].
    + assert (∀ x, x ∈ t → cache_key x ≠ key) as Hothers.
      { intros x Hx Hk. apply Hr. rewrite Heq, <- Hk.
        by apply list_elem_of_fmap_2. }
      destruct (now - created_at r <? max_age) eqn:Efresh.
      * split; [by apply NoDup_cons|].
        split; [intros Hno; destruct Hno; rewrite Heq; apply list_elem_of_here|].
        intros x Hx Hk. apply elem_of_cons in Hx as [->|Hx];
          [|by destruct (Hothers x Hx)].
        rewrite Efresh. split; [done|]. split; [done|].
        rewrite Heq. apply list_elem_of_here.
      * split; [done|].
        split; [intros Hno; destruct Hno; rewrite Heq; apply list_elem_of_here|].
        intros x Hx Hk. apply elem_of_cons in Hx as [->|Hx];
          [|by destruct (Hothers x Hx)].
        rewrite Efresh. split; [done|]. split; [by rewrite <- Heq|].
        rewrite filter_cons, decide_False by (intros H; by apply H).
        symmetry. by apply filter_all.
    + destruct (get_cache key max_age now t) as [res t'] eqn:Eg.
      destruct IH as (IH1 & IH2 & IH3).
      change (keys (r :: t')) with (cache_key r :: keys t').
      assert (keys t' ⊆ keys t) as Hsub.
      { destruct (decide (key ∈ keys t)) as [Hin|Hout].
        - apply list_elem_of_fmap in Hin as (x & Hk & Hx).
          specialize (IH3 x Hx (eq_sym Hk)).
          destruct (now - created_at x <? max_age).
          + destruct IH3 as (_ & -> & _). done.
          + destruct IH3 as (_ & _ & ->). intros k Hk'.
            apply list_elem_of_fmap in Hk' as (y & -> & Hy).
            apply list_elem_of_filter in Hy as [_ Hy].
            by apply list_elem_of_fmap_2.
        - destruct (IH2 Hout) as [_ ->]. done. }
      split; [apply NoDup_cons; split; [|done]; intros H; apply Hr, Hsub, H|].
      split.
      * rewrite not_elem_of_cons. intros [_ Hout].
        destruct (IH2 Hout) as [-> ->]. done.
      * intros x Hx Hk. apply elem_of_cons in Hx as [->|Hx]; [done|].
        specialize (IH3 x Hx Hk).
        destruct (now - created_at x <? max_age).
        -- destruct IH3 as (-> & -> & Hin). split; [done|]. split; [done|].
           by apply list_elem_of_further.
        -- destruct IH3 as (-> & Hout & ->). split; [done|].
           split; [rewrite not_elem_of_cons; done|].
           by rewrite filter_cons, decide_True by done.
Qed.

(** X14. [get_cache] never serves stale data: what it returns is the data
    of the row of that key, created less than [max_age] ago, and that row
    is then marked as accessed now, once more.  A key that has no row gives
    [None] and leaves the table alone; a row found too old is deleted, so the
    key has no row afterwards.  The keys stay unique throughout. *)
Theorem get_cache_fresh_or_gone (key : string) (max_age now : Z)
    (t : list CacheEntry) :
  NoDup (keys t) →
  let res := (get_cache key max_age now t).1 in
  let t' := (get_cache key max_age now t).2 in
  NoDup (keys t')
  ∧ (key ∉ keys t → res = None ∧ t' = t)
  ∧ (∀ r, r ∈ t → cache_key r = key →
       if now - created_at r <? max_age
       then (res = Some (data r)
             ∧ keys t' = keys t
             ∧ mkEntry key (data r) (created_at r) now (access_count r + 1) ∈ t')
       else (res = None ∧ (key ∉ keys t')
             ∧ t' = filter (λ x, cache_key x ≠ key) t)).
Proof.
  intros Hnd. cbv zeta.
  pose proof (get_cache_cases key max_age now t Hnd) as H.
  by destruct (get_cache key max_age now t) as [res t'].
Qed.

Lemma get_cache_fresh_or_gone_witness :
  (get_cache "a" 3600 5000
     [mkEntry "a" "x" 10 20 1; mkEntry "b" "y" 4000 4000 1]).1 = None
  ∧ ("a" ∉ keys (get_cache "a" 3600 5000
                   [mkEntry "a" "x" 10 20 1; mkEntry "b" "y" 4000 4000 1]).2)
  ∧ (get_cache "a" 3600 5000
       [mkEntry "a" "x" 10 20 1; mkEntry "b" "y" 4000 4000 1]).2
    = filter (λ x, cache_key x ≠ "a")
        [mkEntry "a" "x" 10 20 1; mkEntry "b" "y" 4000 4000 1].
Proof.
  refine (proj2 (proj2 (get_cache_fresh_or_gone "a" 3600 5000
            [mkEntry "a" "x" 10 20 1; mkEntry "b" "y" 4000 4000 1] _))
            (mkEntry "a" "x" 10 20 1) _ eq_refl).
  - apply NoDup_cons. split; [|apply NoDup_singleton].
    rewrite list_elem_of_singleton. discriminate.
  - apply list_elem_of_here.
Defined.
Lemma filter_split_length {A} (P : A → Prop) `{∀ x, Decision (P x)} (l : list A) :
  (length (filter P l) + length (filter (λ x, ¬ P x) l) = length l)%nat.
Proof.
  induction l as [|a l IH]; [done|].
  rewrite !filter_cons. destruct (decide (P a)) as [Hp|Hn].
  - rewrite decide_False by tauto. simpl. lia.
  - rewrite decide_True by done. simpl. lia.
Qed.

Lemma get_cache_filter_fresh (key : string) (max_age now : Z)
    (P : CacheEntry → Prop) `{∀ r, Decision (P r)} (t : list CacheEntry) :
  NoDup (keys t) →
  (∀ r, now - created_at r < max_age → P r) →
  (get_cache key max_age now (filter P t)).1 = (get_cache key max_age now t).1.
Proof.
  intros Hnd Hfresh. induction t as [|r t IH]; [done|].
  change (keys (r :: t)) with (cache_key r :: keys t) in Hnd.
  apply NoDup_cons in Hnd as [Hr Hnd]. specialize (IH Hnd).
  rewrite filter_cons. destruct (decide (P r)) as [Hp|Hn]; cbn [get_cache].
  - destruct (decide (cache_key r = key)); [by destruct (_ <? _)|].
    destruct (get_cache key max_age now (filter P t)),
             (get_cache key max_age now t). done.
  - destruct (decide (cache_key r = key)) as [Heq|Hne].
    + assert ((now - created_at r <? max_age) = false) as ->.
      { apply Z.ltb_ge. destruct (decide (max_age ≤ now - created_at r)); [done|].
        destruct Hn. apply Hfresh. lia. }
      rewrite get_cache_absent; [done|].
      intros Hin. apply Hr. rewrite Heq.
      apply list_elem_of_fmap in Hin as (x & -> & Hx).
      apply list_elem_of_filter in Hx as [_ Hx]. by apply list_elem_of_fmap_2.
    + rewrite IH. by destruct (get_cache key max_age now t).
Qed.

(** X15. [cleanup_expired_cache] deletes the rows created more than
    [max_age] ago and reports how many they were; the rows left keep their
    order.  No lookup notices: at that moment [get_cache] answers for every
    key what it would have answered before the cleanup.  A second cleanup at
    the same moment deletes nothing. *)
Theorem cleanup_expired_cache_unnoticed (max_age now : Z) (t : list CacheEntry) :
  NoDup (keys t) →
  let deleted_count := (cleanup_expired_cache max_age now t).1 in
  let t' := (cleanup_expired_cache max_age now t).2 in
  deleted_count + Z.of_nat (length t') = Z.of_nat (length t)
  ∧ t' = filter (λ r, now - created_at r ≤ max_age) t
  ∧ (∀ key, (get_cache key max_age now t').1 = (get_cache key max_age now t).1)
  ∧ cleanup_expired_cache max_age now t' = (0, t').
Proof.
  intros Hnd. unfold cleanup_expired_cache. cbn [fst snd].
  split; [|split; [|split]].
  - pose proof (filter_split_length (λ r, created_at r < now - max_age) t). lia.
  - apply list_filter_iff. intros r. lia.
  - intros key. apply get_cache_filter_fresh; [done|]. intros r. lia.
  - rewrite filter_none.
    + f_equal. apply filter_all. intros r Hr.
      by apply list_elem_of_filter in Hr as [Hr _].
    + intros r Hr. by apply list_elem_of_filter in Hr as [Hr _].
Qed.

Lemma cleanup_expired_cache_unnoticed_witness :
  (cleanup_expired_cache 3600 5000
     [mkEntry "a" "x" 10 20 1; mkEntry "b" "y" 1400 4000 1]).2
  = filter (λ r, 5000 - created_at r ≤ 3600)
      [mkEntry "a" "x" 10 20 1; mkEntry "b" "y" 1400 4000 1].
Proof.
  refine (proj1 (proj2 (cleanup_expired_cache_unnoticed 3600 5000
            [mkEntry "a" "x" 10 20 1; mkEntry "b" "y" 1400 4000 1] _))).
  apply NoDup_cons. split; [|apply NoDup_singleton].
  rewrite list_elem_of_singleton. discriminate.
Defined.
End cache_lookups.

(** ** Retries *)

Section retry.
Import Retry.
Context {W R E : Type} (retryable : E → bool) (sleep : Z → W → W).

Local Abbreviation loop := (Retry.loop (R := R) retryable sleep).
Local Abbreviation wrapper := (Retry.wrapper (R := R) retryable sleep).

(** The loop from attempt [k] on, [len] attempts left. *)
Lemma loop_from (max_retries base_delay max_delay : Z) func (len : nat) :
  ∀ (k : nat) last (n : nat) (ds : list Z) (w : W),
    Z.of_nat (k + len) = max_retries → (0 < len)%nat →
    let run := loop max_retries base_delay max_delay func
                 (Z.of_nat <$> seq k len) last n ds w in
    result run ≠ ReturnedNone
    ∧ (n < calls_made run ≤ n + len)%nat
    ∧ delays run
      = ds ++ ((λ i, Z.min (base_delay * 2 ^ Z.of_nat i) max_delay)
               <$> seq k (calls_made run - n - 1))
    ∧ (∀ e, result run = Raised e → retryable e = true →
            calls_made run = (n + len)%nat).
Proof.
  induction len as [|len IH]; intros k last n ds w Hk Hlen; [lia|].
  cbv zeta. cbn [seq fmap list_fmap Retry.loop].
  destruct (func w) as [[r|e] w1].
  { cbn [result calls_made delays].
    replace (S n - n - 1)%nat with 0%nat by lia. simpl. rewrite app_nil_r.
    split; [done|]. split; [lia|]. split; [done|]. done. }
  destruct (retryable e) eqn:Ee.
  2:{ cbn [result calls_made delays].
      replace (S n - n - 1)%nat with 0%nat by lia. simpl. rewrite app_nil_r.
      split; [done|]. split; [lia|]. split; [done|].
      intros e' [= <-]. congruence. }
  destruct (decide (Z.of_nat k = max_retries - 1)) as [Hlast|Hmore].
  { cbn [result calls_made delays].
    replace (S n - n - 1)%nat with 0%nat by lia. simpl. rewrite app_nil_r.
    split; [done|]. split; [lia|]. split; [done|]. intros _ _ _. lia. }
  destruct len as [|len']; [lia|].
  specialize (IH (S k) (Some e) (S n)
                 (ds ++ [Z.min (base_delay * 2 ^ Z.of_nat k) max_delay])
                 (sleep (Z.min (base_delay * 2 ^ Z.of_nat k) max_delay) w1)
                 ltac:(lia) ltac:(lia)).
  cbv zeta in IH. destruct IH as (IH1 & IH2 & IH3 & IH4).
  split; [done|]. split; [lia|]. split.
  - rewrite IH3, <- app_assoc. f_equal.
    replace (calls_made _ - n - 1)%nat with (S (calls_made
      (loop max_retries base_delay max_delay func
         (Z.of_nat <$> seq (S k) (S len')) (Some e) (S n)
         (ds ++ [Z.min (base_delay * 2 ^ Z.of_nat k) max_delay])
         (sleep (Z.min (base_delay * 2 ^ Z.of_nat k) max_delay) w1))
      - S n - 1))%nat by lia.
    done.
  - intros e' He' Hr. rewrite (IH4 e' He' Hr). lia.
Qed.

(** X16. With [max_retries] of 1 or more the wrapper calls the function at
    least once and at most [max_retries] times, sleeps between two calls and
    nowhere else, and ends with what a call returned or raised, never by
    falling off its end; when it ends with an exception that is retried, all
    [max_retries] calls were made.  With [max_retries] of 0 or less the
    function is not called at all and the wrapper returns [None]. *)
Theorem retry_attempts (max_retries base_delay max_delay : Z) func (w : W) :
  let run := wrapper max_retries base_delay max_delay func w in
  (max_retries ≤ 0 → run = mkRun ReturnedNone 0 [] w)
  ∧ (1 ≤ max_retries →
       result run ≠ ReturnedNone
       ∧ 1 ≤ Z.of_nat (calls_made run) ≤ max_retries
       ∧ S (length (delays run)) = calls_made run
       ∧ ∀ e, result run = Raised e → retryable e = true →
              Z.of_nat (calls_made run) = max_retries).
Proof.
  cbv zeta. unfold Retry.wrapper, range. split.
  - intros Hle. by replace (Z.to_nat max_retries) with 0%nat by lia.
  - intros Hge.
    destruct (loop_from max_retries base_delay max_delay func
                (Z.to_nat max_retries) 0 None 0 [] w ltac:(lia) ltac:(lia))
      as (H1 & H2 & H3 & H4).
    split; [done|]. split; [lia|]. split.
    + rewrite H3. simpl. rewrite length_fmap, length_seq. lia.
    + intros e He Hr. rewrite (H4 e He Hr). lia.
Qed.

(** X17. The sleep after the failed attempt number [i], counted from 0,
    lasts [min(base_delay * 2^i, max_delay)] seconds: no sleep is longer
    than [max_delay], and all the sleeps of a run together last at most
    [(max_retries - 1) * max_delay] when [max_delay] is not negative. *)
Theorem retry_backoff (max_retries base_delay max_delay : Z) func (w : W) :
  1 ≤ max_retries → 0 ≤ max_delay →
  let run := wrapper max_retries base_delay max_delay func w in
  (∀ (i : nat) d, delays run !! i = Some d →
     d = Z.min (base_delay * 2 ^ Z.of_nat i) max_delay ∧ d ≤ max_delay)
  ∧ sumZ (delays run) ≤ (max_retries - 1) * max_delay.
Proof.
  intros Hge Hmax. cbv zeta. unfold Retry.wrapper, range.
  destruct (loop_from max_retries base_delay max_delay func
              (Z.to_nat max_retries) 0 None 0 [] w ltac:(lia) ltac:(lia))
    as (H1 & H2 & H3 & H4).
  simpl in H3. rewrite H3.
  set (m := (calls_made _ - 0 - 1)%nat) in *.
  assert (Z.of_nat m ≤ max_retries - 1) as Hm by lia. clearbody m.
  split.
  - intros i d Hi. rewrite list_lookup_fmap in Hi.
    destruct (seq 0 m !! i) as [j|] eqn:Ej; [|done].
    apply lookup_seq in Ej as [-> _]. injection Hi as <-. simpl. lia.
  - transitivity (Z.of_nat m * max_delay); [|nia].
    clear. generalize 0%nat as k.
    induction m as [|m IH]; intros k; [by vm_compute|].
    cbn [seq fmap list_fmap]. rewrite sumZ_cons. specialize (IH (S k)). lia.
Qed.
End retry.

Lemma retry_attempts_witness :
  Z.of_nat (Retry.calls_made
    (Retry.wrapper (R := unit) id (λ d w, w + d) 3 1 10
       (λ w, (CircuitBreaker.Raises true, w)) 0)) = 3.
Proof.
  exact (proj2 (proj2 (proj2 (proj2 (retry_attempts (R := unit) id (λ d w, w + d)
    3 1 10 (λ w, (CircuitBreaker.Raises true, w)) 0) ltac:(lia))))
    true eq_refl eq_refl).
Defined.

Lemma retry_backoff_witness :
  sumZ (Retry.delays
    (Retry.wrapper (R := unit) id (λ d w, w + d) 3 1 10
       (λ w, (CircuitBreaker.Raises true, w)) 0)) ≤ (3 - 1) * 10.
Proof.
  exact (proj2 (retry_backoff (R := unit) id (λ d w, w + d) 3 1 10
    (λ w, (CircuitBreaker.Raises true, w)) 0 ltac:(lia) ltac:(lia))).
Defined.

(** ** The course of a game *)

Lemma get_current_player_none (g : BlackjackGame) :
  phase g ≠ PLAYING → phase g ≠ DEALER_TURN → get_current_player g = None.
Proof.
  intros H1 H2. unfold get_current_player.
  rewrite decide_False by done. by rewrite decide_True.
Qed.

Lemma start_game_run_closed (g : BlackjackGame) :
  phase g ≠ LOBBY → start_game g = (Ok false, g).
Proof.
  intros H. unfold start_game. run. unfold id.
  by destruct (decide (phase g ≠ LOBBY)).
Qed.

(** X18. The phase gates the methods.  Outside PLAYING and DEALER_TURN no
    action does anything: each returns its invalid-move value and leaves the
    game as it is.  Outside LOBBY nobody joins or leaves and the game cannot
    be started (again): [add_player], [remove_player] and [start_game] return
    [False] and leave the game as it is.  So a game that is over
    ([is_game_over]) is changed by nothing but [toggle_style], which flips
    the style flag and nothing else. *)
Theorem phase_gates (g : BlackjackGame) :
  (phase g ≠ PLAYING → phase g ≠ DEALER_TURN →
     ∀ a uid, act a uid g = (Ok (invalid_move a), g))
  ∧ (phase g ≠ LOBBY →
       (∀ uid name, add_player uid name g = (Ok false, g))
       ∧ (∀ uid, remove_player uid g = (Ok false, g))
       ∧ start_game g = (Ok false, g))
  ∧ (is_game_over g = true →
       ∀ c, after_call c g
            = match c with
              | CToggleStyle => set_use_emojis (negb (use_emojis g)) g
              | _ => g
              end).
Proof.
  assert (phase g ≠ PLAYING → phase g ≠ DEALER_TURN →
          ∀ a uid, act a uid g = (Ok (invalid_move a), g)) as Hact.
  { intros H1 H2 a uid. apply act_nobody_to_play.
    by apply get_current_player_none. }
  assert (phase g ≠ LOBBY →
          (∀ uid name, add_player uid name g = (Ok false, g))
          ∧ (∀ uid, remove_player uid g = (Ok false, g))
          ∧ start_game g = (Ok false, g)) as Hlobby.
  { intros H. split; [|split].
    - intros uid name. rewrite add_player_run. by rewrite decide_True.
    - intros uid. rewrite remove_player_run. by rewrite decide_True.
    - by apply start_game_run_closed. }
  split; [done|]. split; [done|].
  intros Hover c. unfold is_game_over in Hover.
  apply bool_decide_eq_true in Hover.
  assert (phase g ≠ PLAYING ∧ phase g ≠ DEALER_TURN ∧ phase g ≠ LOBBY)
    as (H1 & H2 & H3).
  { rewrite !elem_of_cons in Hover.
    destruct Hover as [->|[->|Hno]]; [done|done|by apply elem_of_nil in Hno]. }
  destruct (Hlobby H3) as (Hadd & Hrem & Hstart).
  destruct c as [uid name|uid| | |a uid]; simpl.
  - by rewrite Hadd.
  - by rewrite Hrem.
  - by rewrite Hstart.
  - done.
  - by rewrite (Hact H1 H2).
Qed.

Lemma set_players_same (g : BlackjackGame) : set_players (players g) g = g.
Proof. by destruct g. Qed.

Lemma filter_seated_out (uid : Z) (ps : list Player) :
  existsb (λ p, user_id p =? uid) ps = false →
  List.filter (λ p, negb (user_id p =? uid)) ps = ps.
Proof.
  induction ps as [|p ps IH]; [done|]. simpl.
  destruct (user_id p =? uid); [done|]. simpl. intros H. by rewrite IH.
Qed.

Lemma seated_ids_filter (uid : Z) (ps : list Player) :
  user_id <$> List.filter (λ p, negb (user_id p =? uid)) ps
  = List.filter (λ i, negb (i =? uid)) (user_id <$> ps).
Proof.
  induction ps as [|p ps IH]; [done|]. rewrite fmap_cons. cbn [List.filter].
  destruct (user_id p =? uid); cbn [negb]; [done|].
  by rewrite fmap_cons, IH.
Qed.

(** X19. In the lobby [remove_player] undoes [add_player]: removing the
    player who has just joined gives back the game as it was before.
    [remove_player] takes out the seats of that user id and keeps the others
    in their order; it also returns [True] for a user who is not seated, and
    then leaves the game as it is. *)
Theorem remove_player_undoes_add (uid : Z) (name : string) (g : BlackjackGame) :
  phase g = LOBBY →
  (∀ g1, add_player uid name g = (Ok true, g1) →
         remove_player uid g1 = (Ok true, g))
  ∧ (∃ g', remove_player uid g = (Ok true, g')
           ∧ seated_ids g' = List.filter (λ i, negb (i =? uid)) (seated_ids g)
           ∧ (uid ∉ seated_ids g'))
  ∧ (uid ∉ seated_ids g → remove_player uid g = (Ok true, g)).
Proof.
  intros Hph. split; [|split].
  - intros g1. rewrite add_player_run, remove_player_run.
    rewrite decide_False by (by rewrite Hph; intros []).
    destruct (decide (max_players g ≤ _)); [done|].
    destruct (existsb _ (players g)) eqn:Ex; [done|].
    destruct (decide (uid = dealer_id g)); [done|].
    intros [= <-]. cbn [phase players set_players].
    rewrite decide_False by (by rewrite Hph; intros []).
    f_equal. rewrite List.filter_app, (filter_seated_out _ _ Ex). simpl.
    rewrite Z.eqb_refl. simpl. rewrite app_nil_r.
    by destruct g.
  - rewrite remove_player_run.
    rewrite decide_False by (by rewrite Hph; intros []).
    eexists. split; [done|]. unfold seated_ids. cbn [players set_players].
    split; [apply seated_ids_filter|].
    rewrite seated_ids_filter, list_elem_of_In, filter_In.
    intros [_ H]. by rewrite Z.eqb_refl in H.
  - intros Hout. rewrite remove_player_run.
    rewrite decide_False by (by rewrite Hph; intros []).
    f_equal. rewrite filter_seated_out; [apply set_players_same|].
    apply not_true_iff_false. by rewrite existsb_seated.
Qed.

Lemma remove_player_undoes_add_witness :
  remove_player 7 (add_player 7 "ann" fresh_game).2 = (Ok true, fresh_game).
Proof.
  exact (proj1 (remove_player_undoes_add 7 "ann" fresh_game eq_refl)
           (add_player 7 "ann" fresh_game).2 eq_refl).
Defined.

(** *** The phases in their order *)

Lemma act_phase_forward (a : Action) (uid : Z) (g : BlackjackGame) :
  (phase_rank (phase g) ≤ phase_rank (phase (act a uid g).2))%nat.
Proof.
  destruct (decide (phase g = PLAYING ∨ phase g = DEALER_TURN)) as [Hin|Hout].
  - apply (keeps_act (λ g', (phase_rank (phase g) ≤ phase_rank (phase g'))%nat)
             (λ _, True)
             (λ ph, (phase_rank DEALER_TURN ≤ phase_rank ph)%nat));
      try done; simpl; try lia.
    + intros g' ph Hph Hg'. simpl. destruct Hin as [-> | ->]; simpl; lia.
    + intros g' w f _ _ Hg'. by destruct w.
  - rewrite act_nobody_to_play; [done|].
    apply get_current_player_none; tauto.
Qed.

Lemma after_call_phase_forward (c : Call) (g : BlackjackGame) :
  (phase_rank (phase g) ≤ phase_rank (phase (after_call c g)))%nat.
Proof.
  destruct c as [uid name|uid| | |a uid]; simpl.
  - rewrite add_player_run. repeat case_match; done.
  - rewrite remove_player_run. repeat case_match; done.
  - destruct (decide (phase g = LOBBY)) as [->|Hne]; [simpl; lia|].
    by rewrite start_game_run_closed.
  - done.
  - apply act_phase_forward.
Qed.

Lemma after_call_not_ended (c : Call) (g : BlackjackGame) :
  phase g ≠ ENDED → phase (after_call c g) ≠ ENDED.
Proof.
  intros Hg. destruct c as [uid name|uid| | |a uid];
    [ simpl; rewrite add_player_run; repeat case_match; done
    | simpl; rewrite remove_player_run; repeat case_match; done
    | .. ];
    (apply (keeps_after_call (λ g', phase g' ≠ ENDED) (λ _, True)
              (λ ph, ph ≠ ENDED)); try done;
     intros g' w f _ _ Hg'; by destruct w).
Qed.

(** X20. The phase of a game only moves forward in the order LOBBY, DEALING,
    PLAYING, DEALER_TURN, RESULTS, ENDED, whatever is called and also when a
    call raises; and no method sets ENDED: a game not created in that phase
    is never in it, so that [is_game_over] means RESULTS. *)
Theorem phases_only_advance (g0 g : BlackjackGame) :
  reachable g0 g →
  (phase_rank (phase g0) ≤ phase_rank (phase g))%nat
  ∧ (phase g0 ≠ ENDED →
       phase g ≠ ENDED
       ∧ is_game_over g = bool_decide (phase g = RESULTS)).
Proof.
  intros Hreach.
  assert ((phase_rank (phase g0) ≤ phase_rank (phase g))%nat
          ∧ (phase g0 ≠ ENDED → phase g ≠ ENDED)) as [Hle Hne].
  { induction Hreach as [|g c _ [IH1 IH2]]; [done|]. split.
    - pose proof (after_call_phase_forward c g). lia.
    - intros H. by apply after_call_not_ended, IH2. }
  split; [done|]. intros H0. specialize (Hne H0). split; [done|].
  unfold is_game_over. destruct (phase g); done.
Qed.

Lemma phases_only_advance_witness :
  (phase_rank (phase fresh_game)
   ≤ phase_rank (phase (after_call CStartGame
                          (after_call (CAddPlayer 7 "ann") fresh_game))))%nat.
Proof.
  exact (proj1 (phases_only_advance fresh_game _
    (reachable_call _ _ CStartGame
       (reachable_call _ _ (CAddPlayer 7 "ann") (reachable_init _))))).
Defined.

(** X21. On every game created by [BlackjackGame(...)], whatever has been
    called since, [get_dealer_hand] returns and does not raise: all the
    dealer's cards when asked to reveal or in DEALER_TURN and RESULTS, and
    otherwise the first card alone, or nothing when none has been dealt. *)
Theorem get_dealer_hand_hides_hole_card (channel d : Z) (dealer_name : string)
    (maxp tmo : Z) (dk : Deck) (g : BlackjackGame) (reveal : bool) :
  reachable (new_game channel d dealer_name maxp tmo dk) g →
  ∃ h0, hands (dealer g) !! 0%nat = Some h0
        ∧ get_dealer_hand reveal g
          = (Ok (if reveal || should_reveal_hole_card g
                 then cards h0 else take 1 (cards h0)), g)
        ∧ (length (take 1 (cards h0)) ≤ 1)%nat.
Proof.
  intros Hreach.
  destruct (reachable_well_formed _ _ _ _ _ _ _ Hreach) as (_ & Hh & _).
  destruct (hands (dealer g)) as [|h0 hs] eqn:Eh; [done|].
  exists h0. split; [done|]. split.
  - unfold get_dealer_hand, should_reveal_hole_card. run. unfold id.
    rewrite Eh. destruct (reveal || _); run; done.
  - rewrite length_take. lia.
Qed.

Lemma get_dealer_hand_hides_hole_card_witness :
  ∃ h0, hands (dealer fresh_game) !! 0%nat = Some h0
        ∧ get_dealer_hand false fresh_game
          = (Ok (if false || should_reveal_hole_card fresh_game
                 then cards h0 else take 1 (cards h0)), fresh_game)
        ∧ (length (take 1 (cards h0)) ≤ 1)%nat.
Proof.
  exact (get_dealer_hand_hides_hole_card 1 100 "house" 3 60
           (mkDeck 7 [mkCard Clubs R5; mkCard Hearts RK; mkCard Spades R4])
           fresh_game false (reachable_init _)).
Defined.

(** ** No card is lost and none is made *)

Lemma fmap_alter_same {A B} (f : A → B) (F : A → A) (k : nat) (l : list A) :
  (∀ x, f (F x) = f x) → f <$> alter F k l = f <$> l.
Proof.
  intros HF. revert k. induction l as [|a l IH]; intros k; [done|].
  destruct k as [|k]; cbn [alter list_alter fmap list_fmap];
    [by rewrite HF|f_equal; apply IH].
Qed.

Lemma concat_cards_alter (F : PlayerHand → PlayerHand) (k : nat)
    (hs : list PlayerHand) (h : PlayerHand) (X : list Card) :
  hs !! k = Some h → cards (F h) ≡ₚ X ++ cards h →
  concat (cards <$> alter F k hs) ≡ₚ X ++ concat (cards <$> hs).
Proof.
  revert k. induction hs as [|a hs IH]; intros k Hk HF; [done|].
  destruct k as [|k]; simpl in *.
  - injection Hk as ->. rewrite HF. solve_Permutation.
  - rewrite (IH k Hk HF). solve_Permutation.
Qed.

Lemma concat_player_cards_alter (F : Player → Player) (i : nat)
    (ps : list Player) (p : Player) (X : list Card) :
  ps !! i = Some p → player_cards (F p) ≡ₚ X ++ player_cards p →
  concat (player_cards <$> alter F i ps) ≡ₚ X ++ concat (player_cards <$> ps).
Proof.
  revert i. induction ps as [|a ps IH]; intros i Hi HF; [done|].
  destruct i as [|i]; simpl in *.
  - injection Hi as ->. rewrite HF. solve_Permutation.
  - rewrite (IH i Hi HF). solve_Permutation.
Qed.

(** A change of one player that adds the cards [X] to those the player
    holds adds them to the cards of the game. *)
Lemma all_cards_map_player_add (w : Who) (F : Player → Player)
    (g : BlackjackGame) (p : Player) (X : list Card) :
  player_at w g = Some p → player_cards (F p) ≡ₚ X ++ player_cards p →
  all_cards (map_player w F g) ≡ₚ X ++ all_cards g.
Proof.
  intros Hp HF. unfold all_cards, table_cards.
  destruct w as [i|]; simpl in *.
  - rewrite (concat_player_cards_alter F i _ p X Hp HF). solve_Permutation.
  - injection Hp as <-. rewrite HF. solve_Permutation.
Qed.

(** A change of one player that leaves the player's cards alone leaves the
    cards of the game alone. *)
Lemma all_cards_map_player_same (w : Who) (F : Player → Player)
    (g : BlackjackGame) :
  (∀ p, player_cards (F p) = player_cards p) →
  all_cards (map_player w F g) = all_cards g.
Proof.
  intros HF. unfold all_cards, table_cards.
  destruct w as [i|]; simpl; [|by rewrite HF].
  do 3 f_equal. by apply fmap_alter_same.
Qed.

Lemma all_cards_set_status (w : Who) (k : nat) (s : HandStatus)
    (g : BlackjackGame) :
  all_cards (map_hand w k (set_status s) g) = all_cards g.
Proof.
  apply all_cards_map_player_same. intros p. unfold player_cards. simpl.
  f_equal. by apply fmap_alter_same.
Qed.

Lemma all_cards_append_card (w : Who) (k : nat) (c : Card)
    (g : BlackjackGame) (p : Player) (h : PlayerHand) :
  player_at w g = Some p → hands p !! k = Some h →
  all_cards (map_hand w k (append_card c) g) ≡ₚ c :: all_cards g.
Proof.
  intros Hp Hh. apply (all_cards_map_player_add w _ g p [c] Hp).
  unfold player_cards. simpl.
  apply (concat_cards_alter _ k _ h [c] Hh). simpl.
  symmetry. apply Permutation_cons_append.
Qed.

Lemma all_cards_draw (g : BlackjackGame) (c : Card) (d : Deck) :
  Deck_draw (deck g) = Some (c, d) →
  all_cards g ≡ₚ c :: all_cards (set_deck d g).
Proof.
  unfold Deck_draw. intros H.
  destruct (deck_cards (deck g)) as [|x cs _] eqn:E using rev_ind; [done|].
  rewrite pop_snoc in H. injection H as <- <-.
  unfold all_cards. simpl. rewrite E, <- app_assoc. simpl.
  symmetry. apply Permutation_middle.
Qed.

(** *** Reading *)

Lemma reads_ret {A} (a : A) : reads (mret a : M A).
Proof. done. Qed.

Lemma reads_gets {A} (f : BlackjackGame → A) : reads (gets f).
Proof. done. Qed.

Lemma reads_deref (w : Who) : reads (deref w).
Proof. intros g. unfold deref. by destruct (player_at w g). Qed.

Lemma reads_index {A} (l : list A) (i : nat) : reads (index l i).
Proof. intros g. unfold index. by destruct (l !! i). Qed.

Lemma reads_bind {A B} (m : M A) (k : A → M B) :
  reads m → (∀ a, reads (k a)) → reads (m ≫= k).
Proof.
  intros Hm Hk g. rewrite bind_run. specialize (Hm g).
  destruct (m g) as [[a|e] g1]; simpl in *; subst; [apply Hk|done].
Qed.

Lemma reads_get_current_hand (w : Who) : reads (get_current_hand w).
Proof.
  apply reads_bind; [apply reads_deref|]. intros p.
  apply reads_bind; [apply reads_index|]. intros h. apply reads_ret.
Qed.

Lemma reads_can_dealer_stand : reads can_dealer_stand.
Proof.
  apply reads_bind; [|intros; apply reads_ret].
  apply reads_bind; [apply reads_gets|]. intros d.
  apply reads_bind; [apply reads_index|]. intros h.
  destruct (cards h); [apply reads_ret|]. cbv zeta.
  repeat case_match; apply reads_ret.
Qed.

Lemma deref_ok (w : Who) (g : BlackjackGame) (p : Player) :
  (deref w g).1 = Ok p → player_at w g = Some p.
Proof. unfold deref. destruct (player_at w g); simpl; congruence. Qed.

Lemma index_ok {A} (l : list A) (i : nat) (g : BlackjackGame) (x : A) :
  (index l i g).1 = Ok x → l !! i = Some x.
Proof. unfold index. destruct (l !! i); simpl; congruence. Qed.

Lemma get_current_hand_ok (w : Who) (g : BlackjackGame) (k : nat)
    (h : PlayerHand) :
  (get_current_hand w g).1 = Ok (k, h) →
  ∃ p, player_at w g = Some p ∧ hands p !! k = Some h.
Proof.
  unfold get_current_hand. rewrite bind_run. unfold deref.
  destruct (player_at w g) as [p|]; [|done]. rewrite bind_run. unfold index.
  destruct (hands p !! current_hand_index p) as [h'|] eqn:E; [|done].
  simpl. intros [= <- <-]. eauto.
Qed.

(** *** Methods that conserve the cards *)

Lemma reads_conserves {A} (m : M A) : reads m → conserves m.
Proof. intros H g. by rewrite H. Qed.

Lemma conserves_bind {A B} (m : M A) (k : A → M B) :
  conserves m → (∀ a, conserves (k a)) → conserves (m ≫= k).
Proof.
  intros Hm Hk g. rewrite bind_run. specialize (Hm g).
  destruct (m g) as [[a|e] g1]; simpl in *; [|done].
  by rewrite (Hk a g1).
Qed.

Lemma conserves_modify (f : BlackjackGame → BlackjackGame) :
  (∀ g, all_cards (f g) = all_cards g) → conserves (modify f).
Proof. intros H g. simpl. by rewrite H. Qed.

Lemma conserves_for_each {A} (l : list A) (f : A → M unit) :
  (∀ x, conserves (f x)) → conserves (for_each l f).
Proof.
  intros Hf. induction l as [|x l IH]; simpl; [by apply reads_conserves|].
  apply conserves_bind; [apply Hf|]. intros _. apply IH.
Qed.

(** One step of a proof that a method conserves the cards. *)
Ltac conserve_step :=
  lazymatch goal with
  | |- conserves (mbind _ _) => apply conserves_bind; [|intros ?]
  | |- conserves (mret _) => apply reads_conserves, reads_ret
  | |- conserves (raise _) => apply reads_conserves; intros ?; reflexivity
  | |- conserves (gets _) => apply reads_conserves, reads_gets
  | |- conserves (deref _) => apply reads_conserves, reads_deref
  | |- conserves (index _ _) => apply reads_conserves, reads_index
  | |- conserves (get_current_hand _) =>
      apply reads_conserves, reads_get_current_hand
  | |- conserves can_dealer_stand =>
      apply reads_conserves, reads_can_dealer_stand
  | |- conserves (modify (map_hand _ _ (set_status _))) =>
      apply conserves_modify; intros ?; apply all_cards_set_status
  | |- conserves (modify (set_phase _)) =>
      apply conserves_modify; intros ?; reflexivity
  | |- conserves (modify (set_current_turn_index _)) =>
      apply conserves_modify; intros ?; reflexivity
  | |- conserves (modify (λ g, set_current_turn_index _ g)) =>
      apply conserves_modify; intros ?; reflexivity
  | |- conserves (if ?b then _ else _) => destruct b
  | |- conserves (match ?x with _ => _ end) => destruct x
  | |- conserves (let '(_, _) := ?x in _) => destruct x
  end.

Lemma conserves_read_hand (w : Who) (k : nat) : conserves (read_hand w k).
Proof. unfold read_hand. repeat conserve_step. Qed.

Lemma conserves_skip_finished_players : conserves skip_finished_players.
Proof. unfold skip_finished_players. repeat conserve_step. Qed.

Lemma conserves_check_dealer_auto_stand : conserves check_dealer_auto_stand.
Proof. unfold check_dealer_auto_stand. repeat conserve_step. Qed.

Lemma conserves_advance_turn_rest (cp : option Who) :
  conserves (advance_turn_rest cp).
Proof.
  unfold advance_turn_rest.
  repeat first [ apply conserves_skip_finished_players
               | apply conserves_check_dealer_auto_stand
               | conserve_step ].
Qed.

(** *** Running a method from a given game object *)

Lemma lands_conserves {A} (T : list Card) (m : M A) (g : BlackjackGame) :
  conserves m → all_cards g ≡ₚ T → lands T m g.
Proof. intros Hm Hg. unfold lands. by rewrite (Hm g). Qed.

Lemma lands_read {A B} (T : list Card) (m : M A) (k : A → M B)
    (g : BlackjackGame) :
  reads m → all_cards g ≡ₚ T →
  (∀ a, (m g).1 = Ok a → lands T (k a) g) →
  lands T (m ≫= k) g.
Proof.
  intros Hm Hg Hk. unfold lands in *. rewrite bind_run.
  specialize (Hm g). specialize (Hk).
  destruct (m g) as [[a|e] g1]; simpl in *; subst; [by apply Hk|done].
Qed.

Lemma lands_modify {B} (T : list Card) (f : BlackjackGame → BlackjackGame)
    (k : unit → M B) (g : BlackjackGame) :
  lands T (k tt) (f g) → lands T (modify f ≫= k) g.
Proof. unfold lands. by rewrite bind_run, modify_run. Qed.

Lemma lands_draw {B} (T : list Card) (k : Card → M B) (g : BlackjackGame) :
  all_cards g ≡ₚ T →
  (∀ c d, Deck_draw (deck g) = Some (c, d) → lands T (k c) (set_deck d g)) →
  lands T (draw ≫= k) g.
Proof.
  intros Hg Hk. unfold lands in *. rewrite bind_run. unfold draw.
  destruct (Deck_draw (deck g)) as [[c d]|]; [by apply Hk|done].
Qed.

(** [card = self.deck.draw(); hand.cards.append(card)] on a hand that is
    there, followed by code that conserves the cards. *)
Lemma lands_draw_append {B} (w : Who) (k : nat) (rest : Card → M B)
    (g : BlackjackGame) (p : Player) (h : PlayerHand) :
  player_at w g = Some p → hands p !! k = Some h →
  (∀ c, conserves (rest c)) →
  lands (all_cards g)
        (card ← draw; modify (map_hand w k (append_card card));; rest card) g.
Proof.
  intros Hp Hh Hrest. apply lands_draw; [done|]. intros c d Hd.
  apply lands_modify, lands_conserves; [apply Hrest|].
  rewrite (all_cards_append_card w k c _ p h); [|by rewrite player_at_set_deck|done].
  symmetry. by apply all_cards_draw.
Qed.

Lemma conserves_advance_turn_body : conserves advance_turn_body.
Proof.
  intros g. change (lands (all_cards g) advance_turn_body g).
  unfold advance_turn_body.
  apply lands_read; [apply reads_gets|done|]. intros cp _.
  destruct cp as [w|].
  2:{ apply lands_conserves; [|done].
      apply conserves_bind; [apply conserves_advance_turn_rest|].
      intros _. conserve_step. }
  apply lands_read; [apply reads_deref|done|]. intros p Hp.
  apply deref_ok in Hp.
  destruct (negb (all_hands_finished p)).
  2:{ apply lands_conserves; [|done].
      apply conserves_bind; [apply conserves_advance_turn_rest|].
      intros _. conserve_step. }
  destruct (_ <? _).
  2:{ apply lands_conserves; [|done].
      apply conserves_bind; [apply conserves_advance_turn_rest|].
      intros _. conserve_step. }
  apply lands_modify.
  set (g1 := map_player w _ g).
  assert (all_cards g1 = all_cards g) as Hg1.
  { by apply all_cards_map_player_same. }
  rewrite <- Hg1.
  apply lands_read; [apply reads_get_current_hand|done|]. intros [k h] Hkh.
  apply get_current_hand_ok in Hkh as (p1 & Hp1 & Hh).
  destruct (Nat.eqb _ _); [|apply lands_conserves; [conserve_step|done]].
  apply (lands_draw_append w k _ g1 p1 h Hp1 Hh). intros c.
  repeat conserve_step.
Qed.

Lemma conserves_advance_turn : conserves advance_turn.
Proof.
  assert (∀ n, conserves (advance_turn_fuel n)) as Hfuel.
  { induction n as [|n IH]; cbn [advance_turn_fuel];
      (apply conserves_bind; [apply conserves_advance_turn_body|]);
      intros []; try conserve_step. apply IH. }
  intros g. apply Hfuel.
Qed.

Lemma conserves_stand (uid : Z) : conserves (stand uid).
Proof.
  unfold stand.
  repeat first [ apply conserves_advance_turn | conserve_step ].
Qed.

Lemma conserves_surrender (uid : Z) : conserves (surrender uid).
Proof.
  unfold surrender.
  repeat first [ apply conserves_advance_turn | conserve_step ].
Qed.

Lemma conserves_hit (uid : Z) : conserves (hit uid).
Proof.
  intros g. change (lands (all_cards g) (hit uid) g). unfold hit.
  apply lands_read; [apply reads_gets|done|]. intros cp _.
  destruct cp as [w|]; [|apply lands_conserves; [conserve_step|done]].
  apply lands_read; [apply reads_deref|done|]. intros p Hp.
  destruct (decide _); [apply lands_conserves; [conserve_step|done]|].
  apply lands_read; [|done|].
  { destruct (is_dealer p); [apply reads_can_dealer_stand|apply reads_ret]. }
  intros [] _; [apply lands_conserves; [conserve_step|done]|].
  apply lands_read; [apply reads_get_current_hand|done|]. intros [k h] Hkh.
  apply get_current_hand_ok in Hkh as (p1 & Hp1 & Hh).
  destruct (decide _); [apply lands_conserves; [conserve_step|done]|].
  apply (lands_draw_append w k _ g p1 h Hp1 Hh). intros c.
  repeat first [ apply conserves_advance_turn | apply conserves_read_hand
               | conserve_step ].
Qed.

Lemma conserves_double_down (uid : Z) : conserves (double_down uid).
Proof.
  intros g. change (lands (all_cards g) (double_down uid) g).
  unfold double_down.
  apply lands_read; [apply reads_gets|done|]. intros cp _.
  destruct cp as [w|]; [|apply lands_conserves; [conserve_step|done]].
  apply lands_read; [apply reads_deref|done|]. intros p Hp.
  destruct (decide _); [apply lands_conserves; [conserve_step|done]|].
  destruct (is_dealer p); [apply lands_conserves; [conserve_step|done]|].
  apply lands_read; [apply reads_get_current_hand|done|]. intros [k h] Hkh.
  apply get_current_hand_ok in Hkh as (p1 & Hp1 & Hh).
  destruct (negb _); [apply lands_conserves; [conserve_step|done]|].
  destruct (decide _); [apply lands_conserves; [conserve_step|done]|].
  apply (lands_draw_append w k _ g p1 h Hp1 Hh). intros c.
  repeat first [ apply conserves_advance_turn | apply conserves_read_hand
               | conserve_step ].
Qed.

Lemma lands_then_ret {A B} (T : list Card) (m : M A) (b : B)
    (g : BlackjackGame) :
  lands T m g → lands T (m;; mret b) g.
Proof.
  unfold lands. rewrite bind_run. by destruct (m g) as [[a|e] g1].
Qed.

Lemma lands_total {A} (T T' : list Card) (m : M A) (g : BlackjackGame) :
  T ≡ₚ T' → lands T m g → lands T' m g.
Proof. unfold lands. intros <-. done. Qed.

Lemma map_player_twice (w : Who) (F1 F2 : Player → Player) (g : BlackjackGame) :
  map_player w F2 (map_player w F1 g) = map_player w (F2 ∘ F1) g.
Proof.
  destruct w as [i|]; simpl; [|done].
  unfold set_players. simpl. f_equal. apply list_alter_alter_eq.
Qed.

Lemma list_insert_at_lookup {A} (l : list A) (i : nat) (x : A) :
  (i ≤ length l)%nat → list_insert_at i x l !! i = Some x.
Proof.
  intros Hi. unfold list_insert_at.
  rewrite lookup_app_r by (rewrite length_take; lia).
  rewrite length_take. by replace (i - i `min` length l)%nat with 0%nat by lia.
Qed.

(** The cards of the hands after [hands[k] = x; hands.insert(k + 1, y)]. *)
Lemma split_hands_cards (hs : list PlayerHand) (k : nat) (h x y : PlayerHand) :
  hs !! k = Some h →
  ∃ R, concat (cards <$> hs) ≡ₚ cards h ++ R
       ∧ concat (cards <$> list_insert_at (k + 1) y (<[k := x]> hs))
         ≡ₚ cards x ++ cards y ++ R.
Proof.
  intros Hk.
  exists (concat (cards <$> take k hs) ++ concat (cards <$> drop (S k) hs)).
  pose proof (lookup_lt_Some _ _ _ Hk) as Hlt.
  split.
  - rewrite <- (take_drop_middle hs k h Hk) at 1.
    rewrite fmap_app, concat_app, fmap_cons. simpl. solve_Permutation.
  - unfold list_insert_at.
    rewrite insert_take_drop by done.
    replace (k + 1)%nat with (length (take k hs) + 1)%nat at 1 2
      by (rewrite length_take; lia).
    rewrite take_app_add, drop_app_add. simpl. rewrite drop_0.
    rewrite !fmap_app, !concat_app, !fmap_cons. simpl.
    rewrite app_nil_r. solve_Permutation.
Qed.

Lemma conserves_split (uid : Z) : conserves (split uid).
Proof.
  intros g. change (lands (all_cards g) (split uid) g). unfold split.
  apply lands_read; [apply reads_gets|done|]. intros cp _.
  destruct cp as [w|]; [|apply lands_conserves; [conserve_step|done]].
  apply lands_read; [apply reads_deref|done|]. intros p Hp.
  destruct (decide _); [apply lands_conserves; [conserve_step|done]|].
  destruct (is_dealer p); [apply lands_conserves; [conserve_step|done]|].
  apply lands_read; [apply reads_get_current_hand|done|]. intros [k h] Hkh.
  apply get_current_hand_ok in Hkh as (p1 & Hp1 & Hh).
  destruct (negb (can_split (cards h))) eqn:Ecs;
    [apply lands_conserves; [conserve_step|done]|].
  destruct (decide _); [apply lands_conserves; [conserve_step|done]|].
  apply lands_read; [apply reads_index|done|]. intros card1 H1.
  apply lands_read; [apply reads_index|done|]. intros card2 H2.
  apply index_ok in H1, H2.
  assert (cards h = [card1; card2]) as Hcards.
  { apply negb_false_iff in Ecs. unfold can_split in Ecs.
    destruct (cards h) as [|a [|b [|c l]]]; try done.
    simpl in H1, H2. congruence. }
  cbv zeta.
  apply lands_draw; [done|]. intros n1 d Hd.
  do 2 apply lands_modify. apply lands_then_ret.
  set (hand1 := append_card n1 _). set (hand2 := mkHand [card2] _ _ _).
  set (g1 := set_deck d g).
  rewrite map_player_twice.
  set (F := (λ p, set_hands (list_insert_at (k + 1) hand2 (hands p)) p)
            ∘ (λ p, set_hands (<[k := hand1]> (hands p)) p)).
  assert (player_at w g1 = Some p1) as Hp1'
    by (unfold g1; by rewrite player_at_set_deck).
  assert (all_cards (map_player w F g1) ≡ₚ all_cards g) as Hg3.
  { rewrite (all_cards_map_player_add w F g1 p1 [n1] Hp1').
    - symmetry. by apply all_cards_draw.
    - unfold player_cards, F. simpl.
      destruct (split_hands_cards (hands p1) k h hand1 hand2 Hh)
        as (R & HR1 & HR2).
      rewrite HR1, HR2, Hcards. simpl. solve_Permutation. }
  destruct (bool_decide (rank card1 = RA));
    [|apply lands_conserves; [conserve_step|done]].
  apply lands_modify.
  set (g4 := map_hand w k (set_status SPLIT_ACES) (map_player w F g1)).
  assert (all_cards g4 ≡ₚ all_cards g) as Hg4.
  { unfold g4. by rewrite all_cards_set_status. }
  apply (lands_total (all_cards g4)); [done|].
  apply (lands_draw_append w (k + 1) _ g4
           (set_hands (alter (set_status SPLIT_ACES) k (hands (F p1))) (F p1))
           hand2).
  - unfold g4, map_hand. rewrite !player_at_map_player, Hp1'. done.
  - simpl. rewrite list_lookup_alter_ne by lia.
    apply list_insert_at_lookup. rewrite length_insert.
    pose proof (lookup_lt_Some _ _ _ Hh). lia.
  - intros c. repeat first [ apply conserves_advance_turn | conserve_step ].
Qed.

Lemma conserves_act (a : Action) (uid : Z) : conserves (act a uid).
Proof.
  destruct a; unfold act;
    (apply conserves_bind; [|intros; conserve_step]);
    [ apply conserves_hit | apply conserves_stand | apply conserves_double_down
    | apply conserves_split | apply conserves_surrender ].
Qed.

(** *** Dealing *)

Lemma keeps_for_each_in {A} (I : BlackjackGame → Prop) (l : list A)
    (f : A → M unit) :
  (∀ x, x ∈ l → keeps I (f x) (λ _, True)) →
  keeps I (for_each l f) (λ _, True).
Proof.
  induction l as [|x l IH]; intros Hf; simpl; [by apply keeps_ret|].
  eapply keeps_bind; [apply Hf, list_elem_of_here|]. intros _ _.
  apply IH. intros y Hy. by apply Hf, list_elem_of_further.
Qed.

Lemma well_formed_first_hand (g : BlackjackGame) (w : Who) :
  well_formed g →
  w = TheDealer ∨ (∃ i, w = Seat i ∧ (i < length (players g))%nat) →
  ∃ p h0, player_at w g = Some p ∧ hands p !! 0%nat = Some h0.
Proof.
  intros (_ & Hd & Hps) [->|(i & -> & Hi)]; simpl.
  - destruct (hands (dealer g)) as [|h0 hs] eqn:E; [done|].
    exists (dealer g), h0. by rewrite E.
  - destruct (lookup_lt_is_Some_2 _ _ Hi) as [p Hp].
    destruct (Hps p (list_elem_of_lookup_2 _ _ _ Hp)) as [_ Hh].
    destruct (hands p) as [|h0 hs] eqn:E; [done|].
    exists p, h0. by rewrite E.
Qed.

Lemma keeps_dealing_deal_to (T : list Card) (n : nat) (w : Who) :
  w = TheDealer ∨ (∃ i, w = Seat i ∧ (i < n)%nat) →
  keeps (dealing T n) (deal_to w) (λ _, True).
Proof.
  intros Hw g (Hc & Hwf & Hlen). split; [|done].
  unfold deal_to. rewrite bind_run. unfold draw.
  destruct (Deck_draw (deck g)) as [[c d]|] eqn:Hd; [|done].
  destruct (well_formed_first_hand g w Hwf) as (p & h0 & Hp & Hh).
  { destruct Hw as [->|(i & -> & Hi)]; [by left|right]. exists i. split; [done|lia]. }
  rewrite bind_run, (deref_run w (set_deck d g) p)
    by (by rewrite player_at_set_deck).
  rewrite bind_run, (index_run _ _ _ _ Hh). cbn [snd]. rewrite modify_run.
  cbn [snd]. split; [|split].
  - rewrite (all_cards_append_card w 0 c _ p h0);
      [|by rewrite player_at_set_deck|done].
    rewrite <- Hc. symmetry. by apply all_cards_draw.
  - apply well_formed_map_player; [apply same_player_alter|].
    destruct Hwf as (H1 & H2 & H3). done.
  - rewrite <- Hlen. destruct w; simpl; [apply length_alter|done].
Qed.

Lemma keeps_dealing_deal_round (T : list Card) (n : nat) :
  keeps (dealing T n) deal_round (λ _, True).
Proof.
  unfold deal_round.
  eapply keeps_bind; [apply keeps_gets|]. intros ps (g & (_ & _ & Hlen) & ->).
  eapply keeps_bind.
  - apply keeps_for_each_in. intros i Hi. apply keeps_dealing_deal_to.
    right. exists i. split; [done|]. apply elem_of_seq in Hi. lia.
  - intros _ _. apply keeps_dealing_deal_to. by left.
Qed.

Lemma lands_keeps {A B} (I : BlackjackGame → Prop) (T : list Card)
    (m : M A) (Q : A → Prop) (k : A → M B) (g : BlackjackGame) :
  keeps I m Q → I g → (∀ g', I g' → all_cards g' ≡ₚ T) →
  (∀ a, conserves (k a)) →
  lands T (m ≫= k) g.
Proof.
  intros Hm Hg HI Hk. unfold lands. rewrite bind_run.
  destruct (Hm g Hg) as [Hg1 _].
  destruct (m g) as [[a|e] g1]; simpl in *; [|by apply HI].
  rewrite (Hk a g1). by apply HI.
Qed.

Lemma conserves_mark_blackjack (i : nat) : conserves (mark_blackjack i).
Proof.
  unfold mark_blackjack.
  repeat first [ apply conserves_read_hand | conserve_step ].
Qed.

Lemma start_game_play_lands (g : BlackjackGame) :
  well_formed g → lands (all_cards g) start_game_play g.
Proof.
  intros Hwf. unfold start_game_play.
  apply (lands_keeps (dealing (all_cards g) (length (players g)))
           (all_cards g) deal_initial_cards (λ _, True)).
  - unfold deal_initial_cards.
    eapply keeps_bind; [apply keeps_dealing_deal_round|]. intros _ _.
    apply keeps_dealing_deal_round.
  - done.
  - by intros g' (H & _).
  - intros _.
    repeat first [ apply conserves_read_hand
                 | apply conserves_for_each; intros ?;
                   apply conserves_mark_blackjack
                 | apply conserves_skip_finished_players
                 | apply conserves_check_dealer_auto_stand
                 | conserve_step ].
Qed.

Lemma start_game_run_open (g : BlackjackGame) :
  phase g = LOBBY → players g ≠ [] →
  start_game g = start_game_play (set_phase DEALING g).
Proof.
  intros Hph Hps. unfold start_game. run. unfold id.
  destruct (decide (phase g ≠ LOBBY)); [done|].
  destruct (decide (length (players g) = 0%nat)) as [H0|_].
  { by apply length_zero_iff_nil in H0. }
  run. reflexivity.
Qed.

Lemma start_game_run_empty (g : BlackjackGame) :
  players g = [] → start_game g = (Ok false, g).
Proof.
  intros Hps. unfold start_game. run. unfold id.
  destruct (decide (phase g ≠ LOBBY)); [done|].
  rewrite Hps. done.
Qed.

Lemma start_game_conserves (g : BlackjackGame) :
  well_formed g → all_cards (start_game g).2 ≡ₚ all_cards g.
Proof.
  intros Hwf.
  destruct (decide (phase g = LOBBY)) as [Hph|Hph];
    [|by rewrite start_game_run_closed].
  destruct (players g) as [|p ps] eqn:Hps;
    [by rewrite start_game_run_empty|].
  rewrite start_game_run_open by (by rewrite ?Hps).
  apply (start_game_play_lands (set_phase DEALING g)).
  by destruct Hwf as (H1 & H2 & H3).
Qed.

(** *** The lobby holds no cards *)

Lemma concat_filter_nil {A B} (f : A → list B) (P : A → bool) (l : list A) :
  concat (f <$> l) = [] → concat (f <$> List.filter P l) = [].
Proof.
  induction l as [|a l IH]; [done|]. rewrite fmap_cons. simpl.
  intros H. apply app_eq_nil in H as [Ha Hl].
  destruct (P a); [|by apply IH]. rewrite fmap_cons. simpl.
  by rewrite Ha, IH.
Qed.

Lemma start_game_leaves_lobby (g : BlackjackGame) :
  phase g = LOBBY → players g ≠ [] → phase (start_game g).2 ≠ LOBBY.
Proof.
  intros Hph Hps. rewrite start_game_run_open by done.
  apply (keeps_start_game_play (λ g', phase g' ≠ LOBBY) (λ _, True)
           (λ ph, ph ≠ LOBBY)); try done.
  intros g' w f _ _ Hg'. by destruct w.
Qed.

Lemma lobby_clean_after_call (c : Call) (g : BlackjackGame) :
  lobby_clean g → lobby_clean (after_call c g).
Proof.
  intros Hclean.
  destruct (decide (phase g = LOBBY)) as [Hph|Hph].
  2:{ intros Hafter. pose proof (after_call_phase_forward c g) as Hle.
      rewrite Hafter in Hle. destruct (phase g); simpl in Hle; try lia. done. }
  specialize (Hclean Hph). unfold table_cards in Hclean.
  apply app_eq_nil in Hclean as [Hd Hps].
  destruct c as [uid name|uid| | |a uid]; simpl.
  - rewrite add_player_run. intros _.
    repeat case_match; simpl; unfold table_cards; simpl;
      rewrite ?fmap_app, ?concat_app, Hd, Hps; done.
  - rewrite remove_player_run. intros _.
    repeat case_match; simpl; unfold table_cards; simpl;
      rewrite Hd, ?Hps; [done|]. simpl. by apply concat_filter_nil.
  - destruct (players g) as [|p ps] eqn:E.
    + rewrite start_game_run_empty by done. intros _. simpl.
      unfold table_cards. by rewrite Hd, E.
    + intros Hafter. exfalso. revert Hafter.
      apply start_game_leaves_lobby; [done|by rewrite E].
  - intros _. unfold table_cards. simpl. by rewrite Hd, Hps.
  - rewrite act_nobody_to_play.
    + intros _. simpl. unfold table_cards. by rewrite Hd, Hps.
    + apply get_current_player_none; by rewrite Hph.
Qed.

Lemma after_call_conserves (c : Call) (g : BlackjackGame) :
  well_formed g → lobby_clean g →
  all_cards (after_call c g) ≡ₚ all_cards g.
Proof.
  intros Hwf Hclean. destruct c as [uid name|uid| | |a uid]; simpl.
  - rewrite add_player_run.
    repeat case_match; try done. unfold all_cards, table_cards. simpl.
    rewrite fmap_app, concat_app. simpl. by rewrite !app_nil_r.
  - rewrite remove_player_run.
    destruct (decide (phase g ≠ LOBBY)) as [|Hph]; [done|].
    assert (phase g = LOBBY) as Hl
      by (destruct (decide (phase g = LOBBY)); [done|by destruct Hph]).
    specialize (Hclean Hl). unfold table_cards in Hclean.
    apply app_eq_nil in Hclean as [Hd Hps].
    unfold all_cards, table_cards. simpl.
    by rewrite Hd, Hps, concat_filter_nil.
  - by apply start_game_conserves.
  - done.
  - apply conserves_act.
Qed.

(** X22. No card is lost and none is made.  In every state of a game
    created by [BlackjackGame(...)], whatever has been called since and also
    after a call that raised, the cards left in the deck together with the
    cards in the hands of the dealer and of the players are the cards the
    deck was created with, each as often as there: what is dealt comes off
    the deck, and the count of cards in the deck and on the table never
    changes. *)
Theorem cards_are_conserved (channel d : Z) (dealer_name : string)
    (maxp tmo : Z) (dk : Deck) (g : BlackjackGame) :
  reachable (new_game channel d dealer_name maxp tmo dk) g →
  all_cards g ≡ₚ deck_cards dk
  ∧ (cards_remaining (deck g) + length (table_cards g)
     = cards_remaining dk)%nat
  ∧ ∀ c, count_occ Card_eq_dec (all_cards g) c
         = count_occ Card_eq_dec (deck_cards dk) c.
Proof.
  intros Hreach.
  assert (all_cards g ≡ₚ deck_cards dk ∧ well_formed g ∧ lobby_clean g)
    as (Hc & _ & _).
  { induction Hreach as [|g c _ (IH1 & IH2 & IH3)].
    - split; [|split; [apply well_formed_new_game|done]].
      unfold all_cards, table_cards, player_cards. simpl.
      by rewrite app_nil_r.
    - split; [|split].
      + by rewrite after_call_conserves.
      + by apply well_formed_after_call.
      + by apply lobby_clean_after_call. }
  split; [done|]. split.
  - unfold cards_remaining. rewrite <- (Permutation_length Hc).
    unfold all_cards. by rewrite length_app.
  - intros c. by apply Permutation_count_occ.
Qed.

Lemma cards_are_conserved_witness :
  all_cards (after_call (CAct Hit 7) (after_call CStartGame
               (after_call (CAddPlayer 7 "ann")
                  (new_game 1 100 "house" 3 60 (Deck_init (Rnd := toy_random) (Some 5) 0).1))))
  ≡ₚ deck_cards (Deck_init (Rnd := toy_random) (Some 5) 0).1.
Proof.
  exact (proj1 (cards_are_conserved 1 100 "house" 3 60 _ _
    (reachable_call _ _ (CAct Hit 7)
       (reachable_call _ _ CStartGame
          (reachable_call _ _ (CAddPlayer 7 "ann") (reachable_init _)))))).
Defined.


(** ** Finished seats *)

(** X23. Once a game has left the lobby, a seat all of whose hands are
    finished (none is ACTIVE) is final: whatever is called afterwards, by
    whomever and however often, the seat holds the same player with the same
    hands, cards and statuses. *)
Theorem finished_seat_is_final (g : BlackjackGame) (i : nat) (p : Player)
    (cs : list Call) :
  phase g ≠ LOBBY →
  players g !! i = Some p →
  all_hands_finished p = true →
  players (after_calls cs g) !! i = Some p.
Proof.
  intros Hph Hp Hfin. by apply finished_seat_after_calls.
Qed.

Lemma finished_seat_is_final_witness :
  players (after_calls [CAct Hit 7; CAct Stand 100; CAct Split 7] standing_game)
    !! 0%nat
  = Some (mkPlayer 7 "ann"
            [mkHand [mkCard Clubs R10; mkCard Diamonds R9] STAND false false]
            false 0).
Proof.
  exact (finished_seat_is_final standing_game 0 _
           [CAct Hit 7; CAct Stand 100; CAct Split 7]
           ltac:(discriminate) eq_refl eq_refl).
Defined.


(** ** Dealing the first cards *)

Lemma deal_to_run (w : Who) (g : BlackjackGame) (c : Card) (rest : list Card)
    (p : Player) (h0 : PlayerHand) :
  deck_cards (deck g) = rest ++ [c] →
  player_at w g = Some p → hands p !! 0%nat = Some h0 →
  deal_to w g
  = (Ok tt, map_hand w 0 (append_card c)
              (set_deck (mkDeck (seed (deck g)) rest) g)).
Proof.
  intros Hd Hp Hh. unfold deal_to.
  rewrite (bind_ok _ _ _ _ _ (draw_snoc g rest c Hd)).
  rewrite (bind_ok _ _ _ _ _ (deref_run w _ p
             ltac:(by rewrite player_at_set_deck))).
  rewrite (bind_ok _ _ _ _ _ (index_run _ _ _ _ Hh)).
  reflexivity.
Qed.

Lemma deal_to_empty (w : Who) (g : BlackjackGame) :
  deck_cards (deck g) = [] → deal_to w g = (Raise IndexError, g).
Proof.
  intros Hd. unfold deal_to. apply bind_raise.
  unfold draw, Deck_draw. by rewrite Hd.
Qed.

Lemma at_table_first_hand (g : BlackjackGame) (w : Who) :
  well_formed g → at_table (length (players g)) w →
  ∃ p h0, player_at w g = Some p ∧ hands p !! 0%nat = Some h0.
Proof.
  intros Hwf Hw. apply well_formed_first_hand; [done|].
  destruct w as [i|]; [right; by exists i|by left].
Qed.

Lemma first_hand_cards_deal (w w0 : Who) (c : Card) (d : Deck)
    (g : BlackjackGame) :
  first_hand_cards w0 (map_hand w 0 (append_card c) (set_deck d g))
  = (λ cs, if decide (w = w0) then cs ++ [c] else cs)
      <$> first_hand_cards w0 g.
Proof.
  unfold first_hand_cards, map_hand.
  destruct (decide (w = w0)) as [->|Hne].
  - rewrite player_at_map_player, player_at_set_deck.
    destruct (player_at w0 g) as [p|]; [|done]. simpl.
    rewrite list_lookup_alter_eq. by destruct (hands p !! 0%nat).
  - rewrite player_at_map_player_ne, player_at_set_deck by done.
    destruct (player_at w0 g) as [p|]; [|done]. simpl.
    by destruct (hands p !! 0%nat).
Qed.

(** Dealing one card each in the order [ws]: with cards enough in the deck
    each gets the card of their place, the deck is shorter by that many
    cards, and nothing else changes; with fewer cards the dealing raises once
    the deck is empty. *)
Lemma deal_list (ws : list Who) :
  ∀ g, well_formed g → Forall (at_table (length (players g))) ws →
  (length ws ≤ length (deck_cards (deck g)) →
     ∃ g', for_each ws deal_to g = (Ok tt, g')
           ∧ well_formed g'
           ∧ length (players g') = length (players g)
           ∧ phase g' = phase g
           ∧ deck_cards (deck g')
             = take (length (deck_cards (deck g)) - length ws)
                    (deck_cards (deck g))
           ∧ ∀ w, first_hand_cards w g'
                  = (λ cs, cs ++ dealt_to w ws (reverse (deck_cards (deck g))))
                      <$> first_hand_cards w g)%nat
  ∧ (length (deck_cards (deck g)) < length ws →
     ∃ g', for_each ws deal_to g = (Raise IndexError, g')
           ∧ deck_cards (deck g') = []
           ∧ phase g' = phase g)%nat.
Proof.
  induction ws as [|w ws IH]; intros g Hwf Hws.
  { split; [|simpl; lia]. intros _. exists g. simpl.
    rewrite Nat.sub_0_r, firstn_all.
    split; [done|]. split; [done|]. split; [done|]. split; [done|].
    split; [done|].
    intros w. destruct (first_hand_cards w g); simpl; [|done].
    by rewrite app_nil_r. }
  apply Forall_cons in Hws as [Hw Hws].
  destruct (deck_cards (deck g)) as [|c D _] eqn:ED using rev_ind.
  { split; [simpl; lia|]. intros _. exists g. cbn [for_each].
    rewrite (bind_raise _ _ _ _ _ (deal_to_empty w g ED)). done. }
  destruct (at_table_first_hand g w Hwf Hw) as (p & h0 & Hp & Hh).
  set (g1 := map_hand w 0 (append_card c)
               (set_deck (mkDeck (seed (deck g)) D) g)).
  assert (for_each (w :: ws) deal_to g = for_each ws deal_to g1) as Hrun.
  { cbn [for_each]. by rewrite (bind_ok _ _ _ _ _ (deal_to_run w g c D p h0 ED Hp Hh)). }
  assert (well_formed g1) as Hwf1.
  { apply well_formed_map_player; [apply same_player_alter|].
    by destruct Hwf as (H1 & H2 & H3). }
  assert (length (players g1) = length (players g)) as Hlen1.
  { unfold g1. destruct w; simpl; [apply length_alter|done]. }
  assert (deck_cards (deck g1) = D) as HD1 by (by destruct w).
  assert (phase g1 = phase g) as Hph1 by (by destruct w).
  destruct (IH g1 Hwf1 ltac:(by rewrite Hlen1)) as [IHok IHraise].
  rewrite HD1 in IHok, IHraise. rewrite Hrun, length_app. cbn [length].
  split.
  - intros Hle. destruct (IHok ltac:(lia)) as (g' & -> & H1 & H2 & H3 & H4 & H5).
    exists g'. split; [done|]. split; [done|]. split; [congruence|].
    split; [congruence|]. split.
    + rewrite H4. rewrite take_app_le by lia. f_equal. lia.
    + intros w0. rewrite H5. unfold g1. rewrite first_hand_cards_deal.
      rewrite reverse_snoc. cbn [dealt_to].
      destruct (first_hand_cards w0 g) as [cs|]; simpl; [|done].
      destruct (decide (w = w0)); [|done]. by rewrite <- app_assoc.
  - intros Hlt. destruct (IHraise ltac:(lia)) as (g' & -> & H1 & H2).
    exists g'. split; [done|]. split; [done|congruence].
Qed.

Lemma for_each_app {A} (l1 l2 : list A) (f : A → M unit) (g : BlackjackGame) :
  for_each (l1 ++ l2) f g = (for_each l1 f;; for_each l2 f) g.
Proof.
  revert g. induction l1 as [|x l1 IH]; intros g; [done|].
  cbn [app for_each]. rewrite !bind_run.
  destruct (f x g) as [[[]|e] g1]; [|done]. rewrite IH. by rewrite bind_run.
Qed.

Lemma for_each_fmap {A B} (h : A → B) (l : list A) (f : B → M unit)
    (g : BlackjackGame) :
  for_each (h <$> l) f g = for_each l (λ x, f (h x)) g.
Proof.
  revert g. induction l as [|x l IH]; intros g; [done|].
  rewrite fmap_cons. cbn [for_each]. rewrite !bind_run.
  destruct (f (h x) g) as [[[]|e] g1]; [apply IH|done].
Qed.

Lemma deal_round_order (g : BlackjackGame) :
  deal_round g = for_each (dealing_round (length (players g))) deal_to g.
Proof.
  unfold deal_round, dealing_round. run. rewrite for_each_app, bind_run.
  rewrite for_each_fmap.
  destruct (for_each _ _ g) as [[[]|e] g1]; [|done].
  cbn [for_each]. rewrite bind_run.
  by destruct (deal_to TheDealer g1) as [[[]|e] g2].
Qed.

Lemma at_table_dealing_round (n : nat) : Forall (at_table n) (dealing_round n).
Proof.
  apply Forall_app. split; [|by apply Forall_singleton].
  apply Forall_fmap, Forall_forall. intros i Hi.
  apply elem_of_seq in Hi. simpl. lia.
Qed.

Lemma length_dealing_round (n : nat) : length (dealing_round n) = S n.
Proof.
  unfold dealing_round. rewrite length_app, length_fmap, length_seq. simpl. lia.
Qed.

Lemma deal_initial_cards_order (g : BlackjackGame) :
  well_formed g →
  deal_initial_cards g
  = for_each (dealing_round (length (players g))
              ++ dealing_round (length (players g))) deal_to g.
Proof.
  intros Hwf. unfold deal_initial_cards.
  rewrite for_each_app, !bind_run, deal_round_order.
  destruct (deal_list (dealing_round (length (players g))) g Hwf
              (at_table_dealing_round _)) as [Hok Hraise].
  destruct (decide (length (dealing_round (length (players g)))
                    ≤ length (deck_cards (deck g)))%nat) as [Hle|Hgt].
  - destruct (Hok Hle) as (g1 & -> & _ & Hlen & _).
    by rewrite deal_round_order, Hlen.
  - destruct (Hraise ltac:(lia)) as (g1 & -> & _). done.
Qed.

(** *** Whose card is which *)

Lemma dealt_to_absent (w : Who) (ws : list Who) (cs : list Card) :
  w ∉ ws → dealt_to w ws cs = [].
Proof.
  revert cs. induction ws as [|a ws IH]; intros cs Hw; [done|].
  apply not_elem_of_cons in Hw as [Hne Hw].
  destruct cs as [|c cs]; [done|]. cbn [dealt_to].
  rewrite decide_False by done. by apply IH.
Qed.

Lemma dealt_to_once (w : Who) (ws : list Who) (cs : list Card) (i : nat)
    (c : Card) :
  NoDup ws → ws !! i = Some w → cs !! i = Some c → dealt_to w ws cs = [c].
Proof.
  revert cs i. induction ws as [|a ws IH]; intros cs i Hnd Hw Hc; [done|].
  apply NoDup_cons in Hnd as [Ha Hnd].
  destruct cs as [|c0 cs]; [done|]. cbn [dealt_to].
  destruct i as [|i]; simpl in Hw, Hc.
  - injection Hw as ->. injection Hc as ->. rewrite decide_True by done.
    by rewrite dealt_to_absent.
  - rewrite decide_False; [by eapply IH|].
    intros ->. apply Ha. by eapply list_elem_of_lookup_2.
Qed.

Lemma dealt_to_app (w : Who) (ws1 ws2 : list Who) (cs : list Card) :
  (length ws1 ≤ length cs)%nat →
  dealt_to w (ws1 ++ ws2) cs
  = dealt_to w ws1 cs ++ dealt_to w ws2 (drop (length ws1) cs).
Proof.
  revert cs. induction ws1 as [|a ws1 IH]; intros cs Hlen; [done|].
  destruct cs as [|c cs]; [simpl in Hlen; lia|].
  cbn [app dealt_to length drop]. simpl in Hlen.
  destruct (decide (a = w)); rewrite IH by lia; done.
Qed.

Lemma NoDup_dealing_round (n : nat) : NoDup (dealing_round n).
Proof.
  apply NoDup_app. split; [|split; [|apply NoDup_singleton]].
  - apply NoDup_fmap_2; [by intros ?? [=]|apply NoDup_seq].
  - intros w Hw Hd. apply list_elem_of_singleton in Hd as ->.
    by apply list_elem_of_fmap in Hw as (i & ? & _).
Qed.

Lemma dealing_round_lookup (n : nat) (w : Who) :
  at_table n w →
  dealing_round n !! (match w with Seat i => i | TheDealer => n end) = Some w.
Proof.
  intros Hw. unfold dealing_round. destruct w as [i|]; simpl in Hw.
  - rewrite lookup_app_l by (by rewrite length_fmap, length_seq).
    rewrite list_lookup_fmap, lookup_seq_lt by done. done.
  - rewrite lookup_app_r by (by rewrite length_fmap, length_seq).
    rewrite length_fmap, length_seq, Nat.sub_diag. done.
Qed.

(** At a table of [n] seats, two rounds give seat [i] the cards number [i]
    and [n + 1 + i] off the deck, and the dealer the cards number [n] and
    [2n + 1]. *)
Lemma dealt_to_two_rounds (n : nat) (w : Who) (cs : list Card) :
  at_table n w → (2 * (n + 1) ≤ length cs)%nat →
  let j := match w with Seat i => i | TheDealer => n end in
  ∃ c1 c2, cs !! j = Some c1 ∧ cs !! (n + 1 + j)%nat = Some c2
           ∧ dealt_to w (dealing_round n ++ dealing_round n) cs = [c1; c2].
Proof.
  intros Hw Hlen. cbv zeta.
  pose proof (dealing_round_lookup n w Hw) as Hj.
  set (j := match w with Seat i => i | TheDealer => n end) in *.
  assert (j < S n)%nat as Hjn.
  { rewrite <- (length_dealing_round n). by eapply lookup_lt_Some. }
  destruct (lookup_lt_is_Some_2 cs j ltac:(lia)) as [c1 Hc1].
  destruct (lookup_lt_is_Some_2 cs (n + 1 + j) ltac:(lia)) as [c2 Hc2].
  exists c1, c2. split; [done|]. split; [done|].
  rewrite dealt_to_app by (rewrite length_dealing_round; lia).
  rewrite (dealt_to_once w _ cs j c1 (NoDup_dealing_round n) Hj Hc1).
  rewrite (dealt_to_once w _ _ j c2 (NoDup_dealing_round n) Hj); [done|].
  rewrite lookup_drop, length_dealing_round.
  by replace (S n + j)%nat with (n + 1 + j)%nat by lia.
Qed.

(** X24. [_deal_initial_cards] deals round-robin.  At a table of [n] seats
    with at least [2 (n + 1)] cards in the deck it returns, and the first
    hand of seat [i] has gained the cards number [i] and [n + 1 + i] off the
    deck, the dealer's the cards number [n] and [2n + 1] (the hole card), in
    that order; the deck is shorter by those [2 (n + 1)] cards and the phase
    is as before.  With fewer cards it raises IndexError with the deck
    empty; [start_game] then raises too, and leaves the game in DEALING. *)
Theorem deal_initial_cards_round_robin (g : BlackjackGame) :
  well_formed g →
  let n := length (players g) in
  let D := deck_cards (deck g) in
  ((2 * (n + 1) ≤ length D)%nat →
     ∃ g', deal_initial_cards g = (Ok tt, g')
           ∧ deck_cards (deck g') = take (length D - 2 * (n + 1)) D
           ∧ phase g' = phase g
           ∧ ∀ w, at_table n w →
               let j := match w with Seat i => i | TheDealer => n end in
               ∃ old c1 c2,
                 first_hand_cards w g = Some old
                 ∧ reverse D !! j = Some c1
                 ∧ reverse D !! (n + 1 + j)%nat = Some c2
                 ∧ first_hand_cards w g' = Some (old ++ [c1; c2]))
  ∧ ((length D < 2 * (n + 1))%nat →
       (∃ g', deal_initial_cards g = (Raise IndexError, g')
              ∧ deck_cards (deck g') = [] ∧ phase g' = phase g)
       ∧ (phase g = LOBBY → players g ≠ [] →
            ∃ g', start_game g = (Raise IndexError, g')
                  ∧ deck_cards (deck g') = [] ∧ phase g' = DEALING)).
Proof.
  intros Hwf. cbv zeta.
  set (n := length (players g)). set (D := deck_cards (deck g)).
  assert (∀ g0, well_formed g0 → length (players g0) = n →
                deck_cards (deck g0) = D → (length D < 2 * (n + 1))%nat →
                ∃ g', deal_initial_cards g0 = (Raise IndexError, g')
                      ∧ deck_cards (deck g') = [] ∧ phase g' = phase g0)
    as Hshort.
  { intros g0 Hwf0 Hn0 HD0 Hlt. rewrite deal_initial_cards_order by done.
    rewrite Hn0.
    destruct (deal_list (dealing_round n ++ dealing_round n) g0 Hwf0)
      as [_ Hraise].
    { rewrite Hn0. apply Forall_app. split; apply at_table_dealing_round. }
    apply Hraise. rewrite HD0, length_app, !length_dealing_round. lia. }
  split.
  - intros Hle. rewrite deal_initial_cards_order by done. fold n.
    destruct (deal_list (dealing_round n ++ dealing_round n) g Hwf)
      as [Hok _].
    { apply Forall_app. split; apply at_table_dealing_round. }
    destruct Hok as (g' & -> & _ & _ & Hph & Hdeck & Hcards).
    { rewrite length_app, !length_dealing_round. fold D. lia. }
    exists g'. split; [done|]. split.
    { rewrite Hdeck, length_app, !length_dealing_round. fold D.
      f_equal. lia. }
    split; [done|]. intros w Hw. cbv zeta.
    destruct (at_table_first_hand g w Hwf Hw) as (p & h0 & Hp & Hh).
    destruct (dealt_to_two_rounds n w (reverse D) Hw)
      as (c1 & c2 & Hc1 & Hc2 & Hdealt).
    { rewrite length_reverse. lia. }
    exists (cards h0), c1, c2.
    assert (first_hand_cards w g = Some (cards h0)) as Hold.
    { unfold first_hand_cards. rewrite Hp. simpl. by rewrite Hh. }
    split; [done|]. split; [done|]. split; [done|].
    rewrite Hcards, Hold. simpl. fold D. by rewrite Hdealt.
  - intros Hlt. split; [by apply Hshort|].
    intros Hph Hps. rewrite start_game_run_open by done.
    destruct (Hshort (set_phase DEALING g)) as (g' & Hrun & Hd & Hph');
      [exact Hwf|done|done|done|].
    exists g'. split; [|done].
    unfold start_game_play. by rewrite (bind_raise _ _ _ _ _ Hrun).
Qed.

Lemma deal_initial_cards_round_robin_witness :
  ∃ g', start_game (add_player 7 "ann" fresh_game).2 = (Raise IndexError, g')
        ∧ deck_cards (deck g') = [] ∧ phase g' = DEALING.
Proof.
  refine (proj2 (proj2 (deal_initial_cards_round_robin
            (add_player 7 "ann" fresh_game).2 _) _) eq_refl _).
  - apply well_formed_after_call with (c := CAddPlayer 7 "ann").
    apply well_formed_new_game.
  - simpl. lia.
  - discriminate.
Defined.


(** ** Showing cards *)

Lemma one_deck_all (c : Card) : c ∈ one_deck.
Proof. destruct c as [[] []]; vm_compute; set_solver. Qed.

Lemma NoDup_fmap_inj_in {A B} `{EqDecision B} (f : A → B) (l : list A) (x y : A) :
  NoDup (f <$> l) → x ∈ l → y ∈ l → f x = f y → x = y.
Proof.
  induction l as [|a l IH]; intros Hnd Hx Hy Hf; [by apply elem_of_nil in Hx|].
  rewrite fmap_cons in Hnd. apply NoDup_cons in Hnd as [Ha Hnd].
  apply elem_of_cons in Hx as [->|Hx]; apply elem_of_cons in Hy as [->|Hy].
  - done.
  - destruct Ha. rewrite Hf. by apply list_elem_of_fmap_2.
  - destruct Ha. rewrite <- Hf. by apply list_elem_of_fmap_2.
  - by apply IH.
Qed.

Lemma imap_second_hidden {A B} (f : nat → A → B) (x y y' : A) (l : list A) :
  (∀ a b, f 1%nat a = f 1%nat b) →
  imap f (x :: y :: l) = imap f (x :: y' :: l).
Proof. intros Hf. cbn [imap]. f_equal. unfold compose at 1 3. simpl. by rewrite (Hf y y'). Qed.

(** X25. The hole card does not leak.  With [hide_second] the text that
    [format_hand] and [format_hand_with_value] give for a hand does not depend
    on what its second card is: the card back (or ["??"]) stands in its
    place, and the value is shown as ["?"]. *)
Theorem hidden_card_does_not_leak (c0 c1 c1' : Card) (rest : list Card)
    (use_emojis : bool) :
  format_hand (c0 :: c1 :: rest) true use_emojis
  = format_hand (c0 :: c1' :: rest) true use_emojis
  ∧ format_hand_with_value (c0 :: c1 :: rest) true use_emojis
    = format_hand_with_value (c0 :: c1' :: rest) true use_emojis
  ∧ imap (display_card true use_emojis) (c0 :: c1 :: rest) !! 1%nat
    = Some (if use_emojis then CARD_BACK_EMOJI else "??").
Proof.
  assert (format_hand (c0 :: c1 :: rest) true use_emojis
          = format_hand (c0 :: c1' :: rest) true use_emojis) as H.
  { unfold format_hand.
    by rewrite (imap_second_hidden _ c0 c1 c1'). }
  split; [done|]. split; [|done].
  unfold format_hand_with_value. cbv zeta. by rewrite H.
Qed.

(** X26. Every card of the deck has an emoji in the registry, so
    [get_emoji] never falls back to the text of the card; and no two cards
    are shown alike, neither as text nor as emoji. *)
Theorem cards_are_shown_apart (c c' : Card) :
  is_Some (CARD_EMOJIS !! (rank_name (rank c) +:+ "_" +:+ suit_name (suit c)))
  ∧ (Card_str c = Card_str c' → c = c')
  ∧ (get_emoji c = get_emoji c' → c = c').
Proof.
  split; [|split].
  - destruct c as [[] []]; vm_compute; by eexists.
  - apply (NoDup_fmap_inj_in Card_str one_deck); try apply one_deck_all.
    apply (bool_decide_unpack _). by vm_compute.
  - apply (NoDup_fmap_inj_in get_emoji one_deck); try apply one_deck_all.
    apply (bool_decide_unpack _). by vm_compute.
Qed.

(** X27. While the dealer has not played (any phase but [DEALER_TURN] and
    [RESULTS]), the dealer's line of the game embed is the same whatever the
    dealer's second card is: it is built, without an error, from the other
    cards alone. *)
Theorem game_embed_hides_hole_card (g : BlackjackGame) (c0 c1 c1' : Card)
    (rest : list Card) :
  phase g ∉ [DEALER_TURN; RESULTS] →
  first_hand_cards TheDealer g = Some (c0 :: c1 :: rest) →
  (dealer_text g).1
  = Ok (format_hand_with_value (c0 :: c1 :: rest) true (use_emojis g))
  ∧ (dealer_text (map_hand TheDealer 0 (set_cards (c0 :: c1' :: rest)) g)).1
    = (dealer_text g).1.
Proof.
  intros Hph Hcards.
  unfold first_hand_cards in Hcards. simpl in Hcards.
  destruct (hands (dealer g)) as [|h0 hs] eqn:Hh; [done|].
  simpl in Hcards. injection Hcards as Hc.
  assert (should_reveal_hole_card g = false) as Hrev.
  { unfold should_reveal_hole_card. by rewrite bool_decide_eq_false. }
  assert ((dealer_text g).1
          = Ok (format_hand_with_value (c0 :: c1 :: rest) true (use_emojis g)))
    as Hg.
  { unfold dealer_text. run. unfold id. rewrite Hh. simpl. run.
    by rewrite Hrev, Hc. }
  split; [done|]. rewrite Hg.
  unfold dealer_text. run. unfold id, map_hand. simpl. rewrite Hh. simpl. run.
  unfold should_reveal_hole_card in *. simpl. rewrite Hrev. simpl.
  done.
Qed.

Lemma game_embed_hides_hole_card_witness :
  (dealer_text (map_hand TheDealer 0
     (set_cards [mkCard Spades RA; mkCard Clubs R2])
     (set_phase PLAYING soft17_game))).1
  = (dealer_text (set_phase PLAYING soft17_game)).1.
Proof.
  refine (proj2 (game_embed_hides_hole_card (set_phase PLAYING soft17_game) (mkCard Spades RA)
            (mkCard Hearts R6) (mkCard Clubs R2) [] _ _)).
  - by apply (bool_decide_unpack _).
  - reflexivity.
Defined.


(** ** The cache store: what a read protects *)

Section cache_recency.
Import CacheStore.

#[local] Existing Instance older_total.
#[local] Existing Instance older_trans.




End cache_recency.

